(** * The microphone pipeline of [src/hook/useMicStreamer.ts]

    A shallow embedding of the hook's pure helpers ([downsampleTo16k],
    [floatTo16BitPCM], [encodeWav]), of the voice-activity segmenter inside
    [onaudioprocess], of the gates at the head of [finalizeSegment], and of
    the asynchronous part of [finalizeSegment] (transcription, the translation
    worker pool, abort controllers) as an event-driven state machine.

    Numbers.  A finite JavaScript number is a rational ([Q]): the value of
    the double.  Where the code computes with doubles the result is rounded
    to the nearest double, ties to even ([fl64]), and a store into a
    [Float32Array] rounds to the nearest single ([fl32]); sums, products and
    quotients are written with their rounding wherever it is not exact.
    Infinities and [NaN] are not numbers of the model: no duration, sample
    or energy overflows, and a quotient by zero is an error of its own.
    [Math.sqrt] is not computable over [Q], so a frame carries the value
    [rmsEnergy] returned for it.  Integers that the code stores in typed
    arrays or writes through a [DataView] are [Z] with the wrap-around
    written out.  Strings are lists of UTF-16 code units.

    Events.  The hook is single-threaded: between two awaits its code runs
    to completion.  An event is an audio callback, the settling of a promise
    that some call of [finalizeSegment] awaits, or the effect's cleanup; the
    network is a function that answers each request attempt.

    Left out: the warm-up request of the first effect, the acquisition of
    the microphone and the audio graph, the [rms] entry of the upload's
    statistics, and consumer callbacks that throw. *)

From Stdlib Require Import ZArith QArith Qround Qminmax Qabs Qpower Lia Lqa List Bool
  Permutation.
From stdpp Require Import base list sorting.

Local Open Scope Z_scope.

(* ===================================================================== *)
(** ** JavaScript strings *)
(* ===================================================================== *)

(** A string is its sequence of UTF-16 code units. *)
Definition jsstring := list N.

Definition jsstring_eqb (a b : jsstring) : bool :=
  bool_decide (a = b).

(** ECMAScript WhiteSpace and LineTerminator code points, the ones
    [String.prototype.trim] strips. *)
Definition is_js_space (c : N) : bool :=
  ((9 <=? c) && (c <=? 13) || (c =? 32) || (c =? 160) || (c =? 5760)
   || (8192 <=? c) && (c <=? 8202) || (c =? 8232) || (c =? 8233)
   || (c =? 8239) || (c =? 8287) || (c =? 12288) || (c =? 65279))%N.

Fixpoint trim_start (s : jsstring) : jsstring :=
  match s with
  | [] => []
  | c :: s' => if is_js_space c then trim_start s' else s
  end.

Definition trim_end (s : jsstring) : jsstring :=
  rev (trim_start (rev s)).

(** [s.trim()] *)
Definition trim (s : jsstring) : jsstring :=
  trim_end (trim_start s).

(** [(json?.text || "").trim()]: a missing [text] and the empty string are
    both falsy and read as the empty string. *)
Definition text_or_empty (t : option jsstring) : jsstring :=
  match t with
  | Some s => s
  | None => []
  end.

Definition trimmed_text (t : option jsstring) : jsstring :=
  trim (text_or_empty t).

(** Truthiness of a string: only the empty string is falsy. *)
Definition truthy (s : jsstring) : bool :=
  match s with
  | [] => false
  | _ :: _ => true
  end.

(* ===================================================================== *)
(** ** Rational helpers *)
(* ===================================================================== *)

Definition Qlt_bool (a b : Q) : bool := negb (Qle_bool b a).

Definition Qnat (n : nat) : Q := inject_Z (Z.of_nat n).

(** Truncation toward zero, the [ToIntegerOrInfinity] step of a store into an
    integer typed array. *)
Definition Qtrunc (q : Q) : Z := Z.quot (Qnum q) (Zpos (Qden q)).

(* ===================================================================== *)
(** ** IEEE 754 rounding *)
(* ===================================================================== *)

(** [2^e] for an integer [e]. *)
Definition pow2 (e : Z) : Q := (2 ^ e)%Q.

(** [floor (log2 q)] for a positive [q]: the quotient of the bit lengths is
    right or one too large. *)
Definition ilog2 (q : Q) : Z :=
  let e0 := Z.log2 (Qnum q) - Z.log2 (Zpos (Qden q)) in
  if Qle_bool (pow2 e0) q then e0 else e0 - 1.

(** The nearest integer, a tie going to the even one. *)
Definition rne (q : Q) : Z :=
  let f := Qfloor q in
  match (q - inject_Z f ?= 1 # 2)%Q with
  | Lt => f
  | Gt => f + 1
  | Eq => if Z.even f then f else f + 1
  end.

(** The exponent of the last place of [q] in a binary format with [prec]
    significant bits whose smallest exponent is [emin]. *)
Definition cexp (prec emin : Z) (q : Q) : Z :=
  Z.max (ilog2 (Qabs q) - prec + 1) emin.

(** [q] rounded to the nearest number of the format, ties to even: the
    rounding of every IEEE 754 operation.  The format has no largest
    number here: overflow is not modelled. *)
Definition round_to (prec emin : Z) (q : Q) : Q :=
  if Qeq_bool q 0 then 0%Q
  else
    let e := cexp prec emin q in
    Qred (inject_Z (rne (q / pow2 e)) * pow2 e).

(** The numbers of the format: [m * 2^e] with [|m| < 2^prec] and
    [emin <= e]. *)
Definition representable (prec emin : Z) (q : Q) : Prop :=
  exists m e : Z, q == inject_Z m * pow2 e /\ Z.abs m < 2 ^ prec /\ emin <= e.

(** binary64, the JavaScript number, and binary32, the element of a
    [Float32Array] ([Math.fround]). *)
Definition fl64 : Q -> Q := round_to 53 (-1074).
Definition fl32 : Q -> Q := round_to 24 (-149).

Definition is_f64 : Q -> Prop := representable 53 (-1074).
Definition is_f32 : Q -> Prop := representable 24 (-149).

(** [a + b] of two numbers. *)
Definition fadd (a b : Q) : Q := fl64 (a + b).

Arguments round_to : simpl never.
Arguments fl64 : simpl never.
Arguments fl32 : simpl never.
Arguments fadd : simpl never.

(* ===================================================================== *)
(** ** Resampler: [downsampleTo16k] *)
(* ===================================================================== *)

Definition outRate : Q := 16000.

(** The inner [for (; pos < nextPos && pos < float32.length; pos++)].  The
    cursor is the pair of [pos] and the samples from [pos] on, so the test
    [pos < float32.length] is the test that this suffix is not empty.
    Result: [sum], [count], the new [pos] and the remaining suffix. *)
Fixpoint gather (rest : list Q) (pos : nat) (nextPos : Q) (sum : Q) (count : nat)
  : Q * nat * nat * list Q :=
  match rest with
  | [] => (sum, count, pos, [])
  | x :: rest' =>
      if Qlt_bool (Qnat pos) nextPos
      then gather rest' (S pos) nextPos (fadd sum x) (S count)
      else (sum, count, pos, rest)
  end.

(** [out[idx] = count ? sum / count : 0]: the quotient of two numbers,
    stored into a [Float32Array]. *)
Definition avg (sum : Q) (count : nat) : Q :=
  match count with
  | O => 0%Q
  | S _ => fl32 (fl64 (sum / Qnat count))
  end.

(** The outer [while (idx < outLen)]: [todo] is [outLen - idx]. *)
Fixpoint resample_loop (todo : nat) (idx : nat) (ratio : Q)
    (rest : list Q) (pos : nat) : list Q :=
  match todo with
  | O => []
  | S todo' =>
      let nextPos := fl64 (Qnat (idx + 1) * ratio) in
      let '(sum, count, pos', rest') := gather rest pos nextPos 0%Q 0%nat in
      avg sum count :: resample_loop todo' (S idx) ratio rest' pos'
  end.

(** [downsampleTo16k(float32, inRate)].  [ratio] and the quotient under
    [Math.floor] are numbers, each rounded.  [None] is the [RangeError] of
    [new Float32Array(outLen)] for a negative or infinite [outLen] (a ratio
    that is zero or negative); a [NaN] length (0/0) allocates nothing. *)
Definition downsampleTo16k (float32 : list Q) (inRate : Q) : option (list Q) :=
  if Qeq_bool inRate outRate then Some float32
  else
    let ratio := fl64 (inRate / outRate) in
    if Qeq_bool ratio 0 then
      match float32 with
      | [] => Some []
      | _ :: _ => None
      end
    else
      let outLen := Qfloor (fl64 (Qnat (length float32) / ratio)) in
      if outLen <? 0 then None
      else Some (resample_loop (Z.to_nat outLen) 0 ratio float32 0).

(** The pre-gain loop of [onaudioprocess]:
    [v = down[i] * preGain; down[i] = v > 1 ? 1 : v < -1 ? -1 : v].  The
    product is a number, and [down] is a [Float32Array]. *)
Definition gain1 (preGain : Q) (x : Q) : Q :=
  let v := fl64 (x * preGain) in
  if Qlt_bool 1 v then 1%Q else if Qlt_bool v (-1) then (-1)%Q else fl32 v.

Definition applyGain (preGain : Q) (down : list Q) : list Q :=
  if Qeq_bool preGain 1 then down else map (gain1 preGain) down.

(** What [onaudioprocess] makes of the channel data before the segmenter
    sees it. *)
Definition prepare (preGain : Q) (inCh : list Q) (sampleRate : Q) : option (list Q) :=
  applyGain preGain <$> downsampleTo16k inCh sampleRate.

(** *** The resampler as the specification words it

    Output sample [idx] is the mean of the input samples whose position [p]
    satisfies [idx * ratio <= p < (idx + 1) * ratio], and 0 when there is
    none; with the arithmetic of the code: the two bounds are products of
    numbers, the mean is the running sum of numbers divided by their count,
    and the result is stored as a single. *)
Fixpoint samples_at (keep : nat -> bool) (start : nat) (buf : list Q) : list Q :=
  match buf with
  | [] => []
  | x :: buf' =>
      if keep start then x :: samples_at keep (S start) buf'
      else samples_at keep (S start) buf'
  end.

Definition in_group (ratio : Q) (idx : nat) (p : nat) : bool :=
  Qle_bool (fl64 (Qnat idx * ratio)) (Qnat p)
  && Qlt_bool (Qnat p) (fl64 (Qnat (idx + 1) * ratio)).

Definition group (ratio : Q) (buf : list Q) (idx : nat) : list Q :=
  samples_at (in_group ratio idx) 0 buf.

Definition mean (l : list Q) : Q :=
  avg (fold_left fadd l 0%Q) (length l).

(** [floor (n / ratio)] with [ratio = inRate / 16000], both quotients
    numbers. *)
Definition spec_outLen (n : nat) (inRate : Q) : nat :=
  Z.to_nat (Qfloor (fl64 (Qnat n / fl64 (inRate / 16000)))).

Definition resample_spec (float32 : list Q) (inRate : Q) : list Q :=
  map (fun idx => mean (group (fl64 (inRate / 16000)) float32 idx))
      (seq 0 (spec_outLen (length float32) inRate)).

(* ===================================================================== *)
(** ** Codec: [floatTo16BitPCM], [writeString], [encodeWav] *)
(* ===================================================================== *)

(** [Math.max(-1, Math.min(1, x))] *)
Definition clamp1 (x : Q) : Q := Qmax (-1) (Qmin 1 x).

(** The store [out[i] = v] into an [Int16Array]: truncate, then wrap to the
    signed 16-bit range. *)
Definition toInt16 (v : Q) : Z :=
  (Qtrunc v + 32768) mod 65536 - 32768.

(** [s < 0 ? s * 0x8000 : s * 0x7fff] *)
Definition scale16 (s : Q) : Q :=
  if Qlt_bool s 0 then (s * 32768)%Q else (s * 32767)%Q.

Definition pcm16_of (x : Q) : Z := toInt16 (scale16 (clamp1 x)).

Definition floatTo16BitPCM (src : list Q) : list Z := map pcm16_of src.

(** A [DataView] over an [ArrayBuffer] is the list of its bytes, each a [Z]
    in [0, 256).  Every write below is in range; stdpp's list insert leaves
    the list alone out of range, where [DataView] would throw. *)
Definition setUint8 (view : list Z) (offset : nat) (v : Z) : list Z :=
  <[offset := v mod 256]> view.

(** Little-endian writes ([littleEndian = true]). *)
Definition setUint16 (view : list Z) (offset : nat) (v : Z) : list Z :=
  let u := v mod 65536 in
  setUint8 (setUint8 view offset u) (offset + 1) (Z.shiftr u 8).

Definition setInt16 (view : list Z) (offset : nat) (v : Z) : list Z :=
  setUint16 view offset v.

Definition setUint32 (view : list Z) (offset : nat) (v : Z) : list Z :=
  let u := v mod 4294967296 in
  setUint8 (setUint8 (setUint8 (setUint8 view offset u)
    (offset + 1) (Z.shiftr u 8)) (offset + 2) (Z.shiftr u 16))
    (offset + 3) (Z.shiftr u 24).

(** [writeString(view, offset, str)]: one [setUint8] per code unit. *)
Fixpoint writeString (view : list Z) (offset : nat) (str : jsstring) : list Z :=
  match str with
  | [] => view
  | c :: str' => writeString (setUint8 view offset (Z.of_N c)) (offset + 1) str'
  end.

(** The payload loop
    [for (i = 0; i < int16.length; i++, offset += 2) view.setInt16(offset, int16[i], true)]. *)
Fixpoint write_samples (view : list Z) (offset : nat) (int16 : list Z) : list Z :=
  match int16 with
  | [] => view
  | v :: int16' => write_samples (setInt16 view offset v) (offset + 2) int16'
  end.

Definition str_RIFF : jsstring := [82; 73; 70; 70]%N.
Definition str_WAVE : jsstring := [87; 65; 86; 69]%N.
Definition str_fmt : jsstring := [102; 109; 116; 32]%N.
Definition str_data : jsstring := [100; 97; 116; 97]%N.
(** [String.fromCharCode(1, 0)] *)
Definition str_1_0 : jsstring := [1; 0]%N.

Definition encodeWav (int16 : list Z) (sampleRate : Z) : list Z :=
  let bytesPerSample := 2 in
  let blockAlign := 1 * bytesPerSample in
  let byteRate := sampleRate * blockAlign in
  let dataSize := Z.of_nat (length int16) * bytesPerSample in
  let buffer := replicate (44 + Z.to_nat dataSize) 0 in
  let view := writeString buffer 0 str_RIFF in
  let view := setUint32 view 4 (36 + dataSize) in
  let view := writeString view 8 str_WAVE in
  let view := writeString view 12 str_fmt in
  let view := setUint32 view 16 16 in
  let view := writeString view 20 str_1_0 in
  let view := writeString view 22 str_1_0 in
  let view := setUint32 view 24 sampleRate in
  let view := setUint32 view 28 byteRate in
  let view := setUint16 view 32 blockAlign in
  let view := setUint16 view 34 16 in
  let view := writeString view 36 str_data in
  let view := setUint32 view 40 dataSize in
  write_samples view 44 int16.

(** Readers of the container, as a decoder would read its fields. *)
Definition getUint16 (view : list Z) (offset : nat) : Z :=
  view !!! offset + 256 * view !!! (offset + 1)%nat.

Definition getUint32 (view : list Z) (offset : nat) : Z :=
  view !!! offset + 256 * view !!! (offset + 1)%nat
  + 65536 * view !!! (offset + 2)%nat + 16777216 * view !!! (offset + 3)%nat.

Definition getInt16 (view : list Z) (offset : nat) : Z :=
  let u := getUint16 view offset in
  if u <? 32768 then u else u - 65536.

(** The bytes of a 16-bit and of a 32-bit little-endian field. *)
Definition le16 (v : Z) : list Z :=
  let u := v mod 65536 in
  [u mod 256; Z.shiftr u 8 mod 256].

Definition le32 (v : Z) : list Z :=
  let u := v mod 4294967296 in
  [u mod 256; Z.shiftr u 8 mod 256; Z.shiftr u 16 mod 256; Z.shiftr u 24 mod 256].

(** The 44-byte header for [dataSize] payload bytes at [sampleRate]. *)
Definition wav_header (dataSize sampleRate : Z) : list Z :=
  map Z.of_N str_RIFF ++ le32 (36 + dataSize) ++ map Z.of_N str_WAVE
  ++ map Z.of_N str_fmt ++ le32 16 ++ le16 1 ++ le16 1
  ++ le32 sampleRate ++ le32 (sampleRate * 2) ++ le16 2 ++ le16 16
  ++ map Z.of_N str_data ++ le32 dataSize.

(* ===================================================================== *)
(** ** Options of the hook *)
(* ===================================================================== *)

(** The fields of [Opts] that decide control flow.  [inputLang], [sttModel],
    [llmModel] and the sampling parameters only travel in request bodies.
    [translationParallelWorkers] is [None] when the caller leaves it out. *)
Record Opts := {
  outputs : list jsstring;
  vadGateHigh : Q;
  vadGateLow : Q;
  padMs : Q;
  minSpeechMs : Q;
  maxSegmentMs : Q;
  preGain : Q;
  translationParallelWorkers : option Z
}.

(** The defaults of the destructuring in [useMicStreamer]. *)
Definition default_opts (outs : list jsstring) : Opts :=
  {| outputs := outs;
     vadGateHigh := 1 # 100;
     vadGateLow := 4 # 1000;
     padMs := 70;
     minSpeechMs := 800;
     maxSegmentMs := 5000;
     preGain := 102 # 100;
     translationParallelWorkers := None |}.

(* ===================================================================== *)
(** ** Segmenter: the body of [proc.onaudioprocess] *)
(* ===================================================================== *)

(** The frame after resampling and pre-gain, with the energy [rmsEnergy]
    measured on it: a finite number, since a callback of 2048 samples never
    resamples to an empty frame (whose energy would be [NaN]). *)
Record Frame := {
  down : list Q;
  energy : Q
}.

(** [(n / 16000) * 1000]: a quotient and a product of numbers. *)
Definition len_ms (n : nat) : Q :=
  fl64 (fl64 (Qnat n / 16000) * 1000).

(** [frameMs = (down.length / 16000) * 1000] *)
Definition frameMs (f : Frame) : Q := len_ms (length (down f)).

(** The five refs [segFramesRef], [segDurMsRef], [silenceMsRef],
    [speakingRef], [voicedMsRef]. *)
Record SegState := {
  segFrames : list (list Q);
  segDurMs : Q;
  silenceMs : Q;
  speaking : bool;
  voicedMs : Q
}.

Definition resetSegmentState : SegState :=
  {| segFrames := []; segDurMs := 0; silenceMs := 0; speaking := false;
     voicedMs := 0 |}.

(** What [finalizeSegment] reads from the refs in its first three lines,
    before [resetSegmentState] runs. *)
Record Snapshot := {
  snap_frames : list (list Q);
  snap_durMs : Q;
  snap_voicedMs : Q
}.

Definition snapshot (st : SegState) : Snapshot :=
  {| snap_frames := segFrames st; snap_durMs := segDurMs st;
     snap_voicedMs := voicedMs st |}.

(** [ref.current += frameMs]: a sum of numbers. *)
Definition add_ms (acc : Q) (f : Frame) : Q := fadd acc (frameMs f).

(** One audio callback.  The second component is [Some snap] when the
    callback calls [finalizeSegment()] (which then reads [snap]) and
    [resetSegmentState()]. *)
Definition vad_step (o : Opts) (st : SegState) (f : Frame)
  : SegState * option Snapshot :=
  if negb (speaking st) then
    if Qle_bool (vadGateHigh o) (energy f) then
      ({| segFrames := segFrames st ++ [down f];
          segDurMs := add_ms (segDurMs st) f;
          silenceMs := 0;
          speaking := true;
          voicedMs := add_ms (voicedMs st) f |}, None)
    else (st, None)
  else
    let frames := segFrames st ++ [down f] in
    let dur := add_ms (segDurMs st) f in
    if Qlt_bool (energy f) (vadGateLow o) then
      let sil := add_ms (silenceMs st) f in
      let st' := {| segFrames := frames; segDurMs := dur; silenceMs := sil;
                    speaking := true; voicedMs := voicedMs st |} in
      if Qle_bool (padMs o) sil || Qle_bool (maxSegmentMs o) dur
      then (resetSegmentState, Some (snapshot st'))
      else (st', None)
    else
      let st' := {| segFrames := frames; segDurMs := dur; silenceMs := 0;
                    speaking := true;
                    voicedMs := add_ms (voicedMs st) f |} in
      if Qle_bool (maxSegmentMs o) dur
      then (resetSegmentState, Some (snapshot st'))
      else (st', None).

(** The segmenter alone over a frame sequence: final state and the
    [finalizeSegment] calls made, oldest first. *)
Fixpoint vad_run (o : Opts) (st : SegState) (fs : list Frame)
  : SegState * list Snapshot :=
  match fs with
  | [] => (st, [])
  | f :: fs' =>
      let '(st1, emitted) := vad_step o st f in
      let '(st2, later) := vad_run o st1 fs' in
      (st2, match emitted with Some s => s :: later | None => later end)
  end.

(** Total duration of a frame sequence, summed the way [segDurMsRef] is. *)
Definition total_ms (fs : list Frame) : Q := fold_left add_ms fs 0%Q.

(* ===================================================================== *)
(** ** The gates at the head of [finalizeSegment] *)
(* ===================================================================== *)

(** The [stats] sent with the upload, without [rms] (a square root). *)
Record Stats := {
  st_durMs : Q;
  st_voicedMs : Q;
  st_voicedFraction : Q;
  st_peak : Q
}.

(** Where [finalizeSegment] leaves its synchronous part. *)
Inductive Verdict :=
| DropEmpty                                   (* [if (!frames.length) return] *)
| DropShort                                   (* [if (durMs < minSpeechMs) return] *)
| DropNoise                                   (* the quality filter *)
| Upload (wav : list Z) (stats : Stats).

(** [voicedMs > 0 ? voicedMs / Math.max(1, durMs) : 0]: the quotient is a
    number. *)
Definition voicedFraction (voiced dur : Q) : Q :=
  if Qlt_bool 0 voiced then fl64 (voiced / Qmax 1 dur) else 0%Q.

Definition peak_of (merged : list Q) : Q :=
  fold_left (fun peak x => let a := Qabs x in if Qlt_bool peak a then a else peak)
            merged 0%Q.

(** The literal [0.18] is the number nearest to 18/100. *)
Definition lowVoicedFraction : Q := fl64 (18 # 100).
Definition shortDurationMs : Q := 1200.

Definition quality_reject (vf dur : Q) : bool :=
  Qlt_bool vf lowVoicedFraction && Qlt_bool dur shortDurationMs.

Definition gate (o : Opts) (s : Snapshot) : Verdict :=
  match snap_frames s with
  | [] => DropEmpty
  | _ :: _ =>
      if Qlt_bool (snap_durMs s) (minSpeechMs o) then DropShort
      else
        let merged := concat (snap_frames s) in
        let vf := voicedFraction (snap_voicedMs s) (snap_durMs s) in
        if quality_reject vf (snap_durMs s) then DropNoise
        else Upload (encodeWav (floatTo16BitPCM merged) 16000)
                    {| st_durMs := snap_durMs s; st_voicedMs := snap_voicedMs s;
                       st_voicedFraction := vf; st_peak := peak_of merged |}
  end.

(* ===================================================================== *)
(** ** Requests: [fetch], [fetchWithRetry], [res.json()] *)
(* ===================================================================== *)

(** What a rejected promise carries: the [AbortError] of an aborted signal,
    or any other error with its message. *)
Inductive Err :=
| AbortError
| Failure (msg : jsstring).

(** The body of a response: not JSON, or an object with an optional [text]. *)
Inductive Body :=
| BadJson (msg : jsstring)
| Json (text : option jsstring).

(** What the network answers to one [fetch] whose signal is not aborted. *)
Inductive FetchOutcome :=
| Response (ok : bool) (status : jsstring) (body : Body)
| NetworkError (msg : jsstring).

Inductive Endpoint :=
| Transcribe
| Translate (lang : jsstring).

(** The environment: the answer to attempt [i] of the request that task [k]
    sends to an endpoint. *)
Definition Network := nat -> Endpoint -> nat -> FetchOutcome.

(** [await fetch(input, init)] followed by the [res.ok] test, under a signal
    that is aborted or not: an aborted signal rejects with [AbortError]
    whatever the network would have answered. *)
Definition fetch_result (aborted : bool) (answer : FetchOutcome) : Err + Body :=
  if aborted then inl AbortError
  else match answer with
       | Response true _ b => inr b
       | Response false status _ => inl (Failure status)
       | NetworkError msg => inl (Failure msg)
       end.

(** [await res.json()]: reading the body of an aborted request rejects. *)
Definition json_result (aborted : bool) (b : Body) : Err + option jsstring :=
  if aborted then inl AbortError
  else match b with
       | BadJson msg => inl (Failure msg)
       | Json t => inr t
       end.

(** The [for] loop of [fetchWithRetry] when nothing aborts it: [todo] is
    [tries - i], and [lastErr] is what the final [throw lastErr] throws. *)
Fixpoint retry_loop (answers : nat -> FetchOutcome) (todo i : nat) (lastErr : Err)
  : Err + Body :=
  match todo with
  | O => inl lastErr
  | S todo' =>
      match fetch_result false (answers i) with
      | inr b => inr b
      | inl e => retry_loop answers todo' (S i) e
      end
  end.

(** [lastErr] starts [undefined], which only [tries = 0] would throw; both
    call sites pass [tries = 2]. *)
Definition fetchWithRetry (answers : nat -> FetchOutcome) (tries : nat) : Err + Body :=
  retry_loop answers tries 0 (Failure []).

(** [fetchWithRetry(...)] then [res.json()], never aborted. *)
Definition request (answers : nat -> FetchOutcome) (tries : nat)
  : Err + option jsstring :=
  match fetchWithRetry answers tries with
  | inl e => inl e
  | inr b => json_result false b
  end.

(** The same code cut at its [await]s, for interleaving: where a call to
    [fetchWithRetry] followed by [res.json()] is suspended. *)
Inductive Call :=
| AwaitFetch (i : nat)          (* [await fetch(input, init)], attempt [i] *)
| AwaitDelay (i : nat)          (* the back-off timer after failed attempt [i] *)
| AwaitJson (b : Body).         (* [await res.json()] *)

Inductive Settled :=
| Pending (c : Call)
| Returned (text : option jsstring)
| Threw (e : Err).

(** The awaited promise settles and the code runs to its next [await]. *)
Definition call_step (tries : nat) (aborted : bool) (answers : nat -> FetchOutcome)
    (c : Call) : Settled :=
  match c with
  | AwaitFetch i =>
      match fetch_result aborted (answers i) with
      | inr b => Pending (AwaitJson b)
      | inl e => if (S i <? tries)%nat then Pending (AwaitDelay i) else Threw e
      end
  | AwaitDelay i => Pending (AwaitFetch (S i))
  | AwaitJson b =>
      match json_result aborted b with
      | inr t => Returned t
      | inl e => Threw e
      end
  end.

(* ===================================================================== *)
(** ** Translation dispatcher: the worker pool of [finalizeSegment] *)
(* ===================================================================== *)

Definition Translation := (jsstring * jsstring)%type.   (* [{ lang, text }] *)

(** [outputs.indexOf(lang)] *)
Fixpoint indexOf_from (l : list jsstring) (x : jsstring) (i : Z) : Z :=
  match l with
  | [] => -1
  | y :: l' => if jsstring_eqb y x then i else indexOf_from l' x (i + 1)
  end.

Definition indexOf (l : list jsstring) (x : jsstring) : Z := indexOf_from l x 0.

(** The comparator [(a, b) => outputs.indexOf(a.lang) - outputs.indexOf(b.lang)]. *)
Definition by_target (outs : list jsstring) (a b : Translation) : Z :=
  indexOf outs (fst a) - indexOf outs (fst b).

(** [Array.prototype.sort] is stable, and this comparator is consistent, so
    the result is the stable sorted arrangement; insertion computes it. *)
Fixpoint sort_insert {A} (cmp : A -> A -> Z) (x : A) (l : list A) : list A :=
  match l with
  | [] => [x]
  | y :: l' => if cmp x y <=? 0 then x :: l else y :: sort_insert cmp x l'
  end.

Fixpoint js_sort {A} (cmp : A -> A -> Z) (l : list A) : list A :=
  match l with
  | [] => []
  | x :: l' => sort_insert cmp x (js_sort cmp l')
  end.

(** A runner of the pool is suspended inside [translateOne(lang)] or has
    left its [while] loop. *)
Inductive Worker :=
| Busy (lang : jsstring) (c : Call)
| Exited.

Record Pool := {
  queue : list jsstring;
  results : list Translation;
  workers : list Worker
}.

(** A runner at the head of its loop:
    [while (queue.length) { lang = queue.shift(); if (!lang) break; await translateOne(lang) }]. *)
Definition pull (q : list jsstring) : Worker * list jsstring :=
  match q with
  | [] => (Exited, [])
  | lang :: q' => if truthy lang then (Busy lang (AwaitFetch 0), q') else (Exited, q')
  end.

(** The [for] loop that starts the runners one after the other; each runs
    to its first [await]. *)
Fixpoint spawn (n : nat) (p : Pool) : Pool :=
  match n with
  | O => p
  | S n' =>
      let '(w, q) := pull (queue p) in
      spawn n' {| queue := q; results := results p; workers := workers p ++ [w] |}
  end.

(** [Math.max(1, Math.min(outputs.length || 1,
              translationParallelWorkers ?? (outputs.length || 1)))],
    for an integer option. *)
Definition maxWorkers (o : Opts) : nat :=
  let n := Z.of_nat (length (outputs o)) in
  let n1 := if n =? 0 then 1 else n in
  Z.to_nat (Z.max 1 (Z.min n1 (default n1 (translationParallelWorkers o)))).

Definition start_pool (o : Opts) : Pool :=
  spawn (maxWorkers o) {| queue := outputs o; results := []; workers := [] |}.

Definition is_exited (w : Worker) : bool :=
  match w with
  | Exited => true
  | Busy _ _ => false
  end.

(** The runner's loop after [translateOne] returned or threw (the [catch {}]
    swallows every error): take the next target. *)
Definition next_target (p : Pool) (w : nat) (res : list Translation) : Pool :=
  let '(wk, q) := pull (queue p) in
  {| queue := q; results := res; workers := <[w := wk]> (workers p) |}.

(** The promise runner [w] awaits settles.  [t] is what [translateOne]
    pushes: [if (t) results.push({ lang, text: t })]. *)
Definition settle_worker (aborted : bool) (answers : Endpoint -> nat -> FetchOutcome)
    (p : Pool) (w : nat) : Pool :=
  match workers p !! w with
  | Some (Busy lang c) =>
      match call_step 2 aborted (answers (Translate lang)) c with
      | Pending c' =>
          {| queue := queue p; results := results p;
             workers := <[w := Busy lang c']> (workers p) |}
      | Returned text =>
          let t := trimmed_text text in
          next_target p w (if truthy t then results p ++ [(lang, t)] else results p)
      | Threw _ => next_target p w (results p)
      end
  | _ => p
  end.

(* ===================================================================== *)
(** ** One call of [finalizeSegment] past its gates *)
(* ===================================================================== *)

(** Where the call is suspended: in the transcription request (its
    [fetchWithRetry] or [sttRes.json()]), or in [Promise.allSettled(runners)];
    or it has returned. *)
Inductive Phase :=
| Stt (c : Call)
| Translating (transcript : jsstring) (p : Pool)
| Finished.

(** [aborted] is the state of the call's own [AbortController] [ac]. *)
Record Task := {
  aborted : bool;
  phase : Phase;
  upload : list Z;
  stats : Stats
}.

Inductive Callback :=
| OnResult (original : jsstring) (translations : list Translation)
| OnError (e : Err).

Definition with_phase (t : Task) (ph : Phase) : Task :=
  {| aborted := aborted t; phase := ph; upload := upload t; stats := stats t |}.

Definition with_abort (t : Task) : Task :=
  {| aborted := true; phase := phase t; upload := upload t; stats := stats t |}.

(** After [await Promise.allSettled(runners)]: once every runner has left
    its loop, [onResult] gets the results sorted by target position.  The
    call is the last statement of the [try] block; [onResult] is taken to
    return (were it to throw, the [catch] would see its error). *)
Definition deliver (o : Opts) (transcript : jsstring) (p : Pool)
  : Phase * list Callback :=
  if forallb is_exited (workers p)
  then (Finished, [OnResult transcript (js_sort (by_target (outputs o)) (results p))])
  else (Translating transcript p, []).

(** The [catch (e)] of [finalizeSegment]: silent on [AbortError], otherwise
    [onError] with the error's message. *)
Definition on_throw (e : Err) : list Callback :=
  match e with
  | AbortError => []
  | Failure _ => [OnError e]
  end.

(** The promise that task [t] awaits settles (in the translation phase, the
    one its runner [w] awaits); the task runs until every path is suspended
    again or the function returns. *)
Definition settle_task (o : Opts) (answers : Endpoint -> nat -> FetchOutcome)
    (t : Task) (w : nat) : Task * list Callback :=
  match phase t with
  | Stt c =>
      match call_step 2 (aborted t) (answers Transcribe) c with
      | Pending c' => (with_phase t (Stt c'), [])
      | Returned text =>
          let transcript := trimmed_text text in
          if truthy transcript then
            let '(ph, cbs) := deliver o transcript (start_pool o) in
            (with_phase t ph, cbs)
          else (with_phase t Finished, [])
      | Threw e => (with_phase t Finished, on_throw e)
      end
  | Translating transcript p =>
      let '(ph, cbs) := deliver o transcript (settle_worker (aborted t) answers p w) in
      (with_phase t ph, cbs)
  | Finished => (t, [])
  end.

(* ===================================================================== *)
(** ** The capture session *)
(* ===================================================================== *)

(** Every call of [finalizeSegment] that got past the gates, oldest first;
    [reqCtrl] is [reqCtrlRef.current], the index of the task whose
    controller it holds; [log] is the callbacks made so far, each with the
    task that made it. *)
Record Session := {
  tasks : list Task;
  reqCtrl : option nat;
  log : list (nat * Callback)
}.

Definition empty_session : Session :=
  {| tasks := []; reqCtrl := None; log := [] |}.

(** [reqCtrlRef.current?.abort()] *)
Definition abort_current (s : Session) : list Task :=
  match reqCtrl s with
  | Some k => alter with_abort k (tasks s)
  | None => tasks s
  end.

(** [finalizeSegment()] up to its first [await]. *)
Definition finalizeSegment (o : Opts) (snap : Snapshot) (s : Session) : Session :=
  match gate o snap with
  | Upload wav st =>
      let ts := abort_current s in
      {| tasks := ts ++ [{| aborted := false; phase := Stt (AwaitFetch 0);
                            upload := wav; stats := st |}];
         reqCtrl := Some (length ts);
         log := log s |}
  | _ => s
  end.

(** [cleanup()], on the session. *)
Definition cleanup (s : Session) : Session :=
  {| tasks := abort_current s; reqCtrl := None; log := log s |}.

Definition settle (o : Opts) (net : Network) (s : Session) (k w : nat) : Session :=
  match tasks s !! k with
  | Some t =>
      let '(t', cbs) := settle_task o (net k) t w in
      {| tasks := <[k := t']> (tasks s);
         reqCtrl := reqCtrl s;
         log := log s ++ map (pair k) cbs |}
  | None => s
  end.

(** The hook between two events: segmenter refs and session. *)
Record System := {
  seg : SegState;
  sess : Session
}.

Definition initial : System :=
  {| seg := resetSegmentState; sess := empty_session |}.

Inductive Event :=
| EvAudio (f : Frame)            (* [onaudioprocess] fires *)
| EvSettle (k w : nat)           (* the promise awaited by task [k] (runner [w]) settles *)
| EvCleanup.                     (* the effect's cleanup runs *)

Definition step (o : Opts) (net : Network) (sys : System) (e : Event) : System :=
  match e with
  | EvAudio f =>
      let '(st, emitted) := vad_step o (seg sys) f in
      {| seg := st;
         sess := match emitted with
                 | Some snap => finalizeSegment o snap (sess sys)
                 | None => sess sys
                 end |}
  | EvSettle k w => {| seg := seg sys; sess := settle o net (sess sys) k w |}
  | EvCleanup => {| seg := resetSegmentState; sess := cleanup (sess sys) |}
  end.

Definition run (o : Opts) (net : Network) (sys : System) (es : list Event) : System :=
  fold_left (step o net) es sys.

(** The callbacks task [k] has made. *)
Definition callbacks_of (k : nat) (s : Session) : list Callback :=
  map snd (List.filter (fun e => Nat.eqb (fst e) k) (log s)).

(** *** The dispatcher as the specification words it

    The translation of a target is what [translateOne] would push for it
    when its request runs undisturbed; the delivered list is, in target
    order, the targets that have one. *)
Definition translateOne (answers : Endpoint -> nat -> FetchOutcome) (lang : jsstring)
  : option Translation :=
  match request (answers (Translate lang)) 2 with
  | inr text =>
      let t := trimmed_text text in
      if truthy t then Some (lang, t) else None
  | inl _ => None
  end.

Definition in_target_order (answers : Endpoint -> nat -> FetchOutcome)
    (outs : list jsstring) : list Translation :=
  omap (translateOne answers) outs.

(* ===================================================================== *)
(** ** Auxiliary notions used in the statements *)
(* ===================================================================== *)

(** An event that cannot start a segment: any event that is not a frame, or
    a frame whose energy stays below [vadGateHigh]. *)
Definition below_start (o : Opts) (e : Event) : Prop :=
  match e with
  | EvAudio f => (energy f < vadGateHigh o)%Q
  | _ => True
  end.

(** Reading the payload back, sample by sample. *)
Definition decode_samples (wav : list Z) (n : nat) : list Z :=
  map (fun i => getInt16 wav (44 + 2 * i)) (seq 0 n).

(** A frame whose energy does not fall below [vadGateLow]. *)
Definition voiced (o : Opts) (f : Frame) : Prop := (vadGateLow o <= energy f)%Q.

(** Some [finalizeSegment] call of the run over [fs] comes with a total
    duration of at most [maxSegmentMs]. *)
Definition cut_within_max (o : Opts) (fs : list Frame) : bool :=
  existsb (fun s => Qle_bool (snap_durMs s) (maxSegmentMs o))
          (snd (vad_run o resetSegmentState fs)).

(** The segmenter while it speaks over voiced frames [fs] from [st]. *)
Definition speaking_over (st : SegState) (fs : list Frame) : SegState :=
  {| segFrames := segFrames st ++ map down fs;
     segDurMs := fold_left add_ms fs (segDurMs st);
     silenceMs := 0;
     speaking := true;
     voicedMs := fold_left add_ms fs (voicedMs st) |}.

(** A steady frame of 2048 samples at 16 kHz (128 ms), all equal to [x]; its
    RMS energy is [|x|]. *)
Definition steady (x : Q) : Frame :=
  {| down := replicate 2048 x; energy := Qabs x |}.

(** A property of a task that aborting keeps, and under which a settling
    promise makes no callback and keeps the property. *)
Definition quiet (o : Opts) (answers : Endpoint -> nat -> FetchOutcome)
    (P : Task -> Prop) : Prop :=
  (forall t, P t -> P (with_abort t))
  /\ (forall t w, P t ->
        P (fst (settle_task o answers t w)) /\ snd (settle_task o answers t w) = []).

(** In a session reached from the initial one, a task that has made a
    callback is finished; so a task still in flight has made none. *)
Definition log_of_finished (s : Session) : Prop :=
  forall k cb, In (k, cb) (log s) ->
    exists t, tasks s !! k = Some t /\ phase t = Finished.

(** The phase and the abort flag of task [k], when there is one. *)
Definition phase_of (s : Session) (k : nat) : option Phase :=
  phase <$> tasks s !! k.

Definition aborted_of (s : Session) (k : nat) : option bool :=
  aborted <$> tasks s !! k.

(** Empty or made of white space only. *)
Definition blank (s : jsstring) : bool := forallb is_js_space s.

(** Strings of character codes below 128, for readable examples. *)
Definition lang_en : jsstring := [101; 110]%N.                (* "en" *)
Definition lang_ja : jsstring := [106; 97]%N.                 (* "ja" *)
Definition lang_ko : jsstring := [107; 111]%N.                (* "ko" *)
Definition text_hello : jsstring := [104; 101; 108; 108; 111]%N.   (* "hello" *)
Definition text_ok : jsstring := [79; 75]%N.                  (* "OK" *)

(** A network on which every request succeeds at once, transcription with
    [transcript] and the translation to [lang] with [reply lang]. *)
Definition always_ok (transcript : jsstring) (reply : jsstring -> jsstring) : Network :=
  fun _ ep _ =>
    match ep with
    | Transcribe => Response true text_ok (Json (Some transcript))
    | Translate lang => Response true text_ok (Json (Some (reply lang)))
    end.

(** An utterance under the default options: seven steady frames at 0.05
    (896 ms) and one silent frame, which ends the segment at 1024 ms. *)
Definition utterance : list Event :=
  map EvAudio (replicate 7 (steady (1 # 20)) ++ [steady 0]).

(** One task on its own: the promises awaited by runners [ws] settle in
    that order and nothing aborts the task. *)
Fixpoint run_task (o : Opts) (answers : Endpoint -> nat -> FetchOutcome)
    (t : Task) (ws : list nat) : Task * list Callback :=
  match ws with
  | [] => (t, [])
  | w :: ws' =>
      let '(t1, c1) := settle_task o answers t w in
      let '(t2, c2) := run_task o answers t1 ws' in
      (t2, c1 ++ c2)
  end.

Definition busy_lang (w : Worker) : option jsstring :=
  match w with
  | Busy lang _ => Some lang
  | Exited => None
  end.

(** A suspended call of [fetchWithRetry(..., 2, ...)] then [res.json()] that
    is where the undisturbed request would be. *)
Definition on_track (answers : nat -> FetchOutcome) (c : Call) : Prop :=
  match c with
  | AwaitFetch 0 => True
  | AwaitFetch 1 => exists e, fetch_result false (answers 0%nat) = inl e
  | AwaitFetch _ => False
  | AwaitDelay 0 => exists e, fetch_result false (answers 0%nat) = inl e
  | AwaitDelay _ => False
  | AwaitJson b => fetchWithRetry answers 2 = inr b
  end.

Definition worker_on_track (answers : Endpoint -> nat -> FetchOutcome) (w : Worker) : Prop :=
  match w with
  | Busy lang c => on_track (answers (Translate lang)) c
  | Exited => True
  end.

(** The pool while no signal is aborted: every target is translated
    ([done]), in translation or queued; the results are the translations of
    the targets done; a runner has only left when the queue was empty. *)
Record pool_inv (answers : Endpoint -> nat -> FetchOutcome) (outs : list jsstring)
    (p : Pool) (done : list jsstring) : Prop := {
  inv_targets : done ++ omap busy_lang (workers p) ++ queue p ≡ₚ outs;
  inv_results : results p ≡ₚ omap (translateOne answers) done;
  inv_tracks : Forall (worker_on_track answers) (workers p);
  inv_queue : queue p <> [] -> Forall (fun w => is_exited w = false) (workers p)
}.

(** Steps a suspended call can still take, at most. *)
Definition call_measure (c : Call) : nat :=
  match c with
  | AwaitFetch 0 => 4
  | AwaitFetch _ => 2
  | AwaitDelay _ => 3
  | AwaitJson _ => 1
  end.

Definition worker_measure (w : Worker) : nat :=
  match w with
  | Busy _ c => call_measure c
  | Exited => 0
  end.

Definition pool_measure (p : Pool) : nat :=
  sum_list (worker_measure <$> workers p) + 5 * length (queue p).

(** A task that translates, or has delivered, as the translations in target
    order require. *)
Definition dispatch_inv (o : Opts) (answers : Endpoint -> nat -> FetchOutcome)
    (transcript : jsstring) (t : Task) (cbs : list Callback) : Prop :=
  aborted t = false
  /\ ((exists p done,
         phase t = Translating transcript p
         /\ pool_inv answers (outputs o) p done
         /\ workers p <> []
         /\ cbs = [])
      \/ (phase t = Finished
          /\ cbs = [OnResult transcript (in_target_order answers (outputs o))])).

(** A task that awaits the body of a successful transcription response. *)
Definition awaiting_transcript (text : option jsstring) : Task :=
  {| aborted := false;
     phase := Stt (AwaitJson (Json text));
     upload := [];
     stats := {| st_durMs := 0; st_voicedMs := 0; st_voicedFraction := 0; st_peak := 0 |} |}.

(** The comparator that a key induces, and its order. *)
Definition cmp_by {A} (key : A -> Z) (a b : A) : Z := key a - key b.

Definition key_le {A} (key : A -> Z) (a b : A) : Prop := key a <= key b.

(** An event that aborts the request in [reqCtrlRef]: the teardown, or a
    frame that ends a segment which passes the gates. *)
Definition aborting (o : Opts) (sys : System) (e : Event) : Prop :=
  match e with
  | EvCleanup => True
  | EvAudio f =>
      exists snap wav st,
        snd (vad_step o (seg sys) f) = Some snap /\ gate o snap = Upload wav st
  | EvSettle _ _ => False
  end.

(** Only the request in [reqCtrlRef] can still have a live signal. *)
Definition single_live_request (s : Session) : Prop :=
  forall k t, tasks s !! k = Some t -> aborted t = false -> reqCtrl s = Some k.

(* ===================================================================== *)
(** ** More of the code: the health-check encoder of the application *)
(* ===================================================================== *)

(** [encodeWavFromFloat32(float32, sampleRate)] of the application file: the
    conversion loop of [floatTo16BitPCM] and the header of [encodeWav]
    written once more, with the format tag and the channel count stored by
    [setUint16] and a local [writeString].  The [Blob] around the buffer is
    left out. *)
Definition encodeWavFromFloat32 (float32 : list Q) (sampleRate : Z) : list Z :=
  let pcm16 := map pcm16_of float32 in
  let bytesPerSample := 2 in
  let blockAlign := 1 * bytesPerSample in
  let byteRate := sampleRate * blockAlign in
  let dataSize := Z.of_nat (length pcm16) * bytesPerSample in
  let buffer := replicate (44 + Z.to_nat dataSize) 0 in
  let view := writeString buffer 0 str_RIFF in
  let view := setUint32 view 4 (36 + dataSize) in
  let view := writeString view 8 str_WAVE in
  let view := writeString view 12 str_fmt in
  let view := setUint32 view 16 16 in
  let view := setUint16 view 20 1 in
  let view := setUint16 view 22 1 in
  let view := setUint32 view 24 sampleRate in
  let view := setUint32 view 28 byteRate in
  let view := setUint16 view 32 blockAlign in
  let view := setUint16 view 34 16 in
  let view := writeString view 36 str_data in
  let view := setUint32 view 40 dataSize in
  write_samples view 44 pcm16.

(** A byte of a [DataView]. *)
Definition is_byte (b : Z) : Prop := 0 <= b < 256.

(* ===================================================================== *)
(** ** More of the code: a request run to its end *)
(* ===================================================================== *)

(** The awaited promises of one call settle one after the other, at most
    [fuel] of them. *)
Fixpoint call_run (fuel tries : nat) (aborted : bool) (answers : nat -> FetchOutcome)
    (c : Call) : Settled :=
  match fuel with
  | O => Pending c
  | S fuel' =>
      match call_step tries aborted answers c with
      | Pending c' => call_run fuel' tries aborted answers c'
      | settled => settled
      end
  end.

(** What the straight-line code returns or throws, as a settled call. *)
Definition settled_of (r : Err + option jsstring) : Settled :=
  match r with
  | inr text => Returned text
  | inl e => Threw e
  end.

(** Attempt [i] fails (the fetch rejects or the response is not ok). *)
Definition attempt_fails (answers : nat -> FetchOutcome) (i : nat) : Prop :=
  exists e, fetch_result false (answers i) = inl e.

(* ===================================================================== *)
(** ** More of the code: what the segmenter keeps *)
(* ===================================================================== *)

(** The durations of the buffered frames, summed in the order and with the
    arithmetic of [segDurMsRef.current += frameMs]. *)
Definition frames_ms (frames : list (list Q)) : Q :=
  fold_left (fun acc d => fadd acc (len_ms (length d))) frames 0%Q.

(** The accounts of the five refs agree: idle means reset; while speaking
    the buffer is not empty, [segDurMs] is what the durations of the
    buffered frames sum to, and the voiced time and the trailing silence
    each lie between 0 and [segDurMs]. *)
Definition seg_consistent (st : SegState) : Prop :=
  if speaking st then
    segFrames st <> []
    /\ segDurMs st = frames_ms (segFrames st)
    /\ (0 <= voicedMs st)%Q
    /\ (voicedMs st <= segDurMs st)%Q
    /\ (0 <= silenceMs st)%Q
    /\ (silenceMs st <= segDurMs st)%Q
  else st = resetSegmentState.

(** While speaking, the buffer is below the maximum unless it holds the
    first frame only, and the trailing silence is below the pad. *)
Definition seg_bounded (o : Opts) (st : SegState) : Prop :=
  speaking st = true ->
  (length (segFrames st) = 1%nat \/ (segDurMs st < maxSegmentMs o)%Q)
  /\ (silenceMs st = 0%Q \/ (silenceMs st < padMs o)%Q).

(** A silent frame. *)
Definition silent (o : Opts) (f : Frame) : Prop := (energy f < vadGateLow o)%Q.

(** The segmenter while it speaks over silent frames [fs] from [st]. *)
Definition silent_over (st : SegState) (fs : list Frame) : SegState :=
  {| segFrames := segFrames st ++ map down fs;
     segDurMs := fold_left add_ms fs (segDurMs st);
     silenceMs := fold_left add_ms fs (silenceMs st);
     speaking := true;
     voicedMs := voicedMs st |}.

(** What a request created by [finalizeSegment] carries: a container of
    [44 + 2n] bytes for the [n] samples of some frames, a duration that is
    what the durations of these frames sum to and is at least
    [minSpeechMs], and statistics that passed the quality filter. *)
Definition upload_wf (o : Opts) (t : Task) : Prop :=
  exists frames : list (list Q),
    length (upload t) = (44 + 2 * length (concat frames))%nat
    /\ st_durMs (stats t) = frames_ms frames
    /\ (minSpeechMs o <= st_durMs (stats t))%Q
    /\ (0 <= st_voicedMs (stats t))%Q
    /\ (st_voicedMs (stats t) <= st_durMs (stats t))%Q
    /\ st_voicedFraction (stats t)
       = voicedFraction (st_voicedMs (stats t)) (st_durMs (stats t))
    /\ quality_reject (st_voicedFraction (stats t)) (st_durMs (stats t)) = false.

(* ===================================================================== *)
(** ** More of the code: [useAudioDevices] *)
(* ===================================================================== *)

Inductive DeviceKind := AudioInput | AudioOutput | VideoInput.

Record Device := {
  kind : DeviceKind;
  deviceId : jsstring;
  label : jsstring
}.

(** The three states of the hook and the [mounted] flag of its effect. *)
Record DevicesState := {
  mounted : bool;
  devices : list Device;
  ready : bool;
  error : option jsstring
}.

(** After the effect has run, before any [refresh] has settled. *)
Definition devices_initial : DevicesState :=
  {| mounted := true; devices := []; ready := false; error := None |}.

Definition is_mic (d : Device) : bool :=
  match kind d with
  | AudioInput => true
  | _ => false
  end.

(** A call of [refresh()] ends, with the enumerated devices or with the
    message of the error thrown ([e?.message || "mic permission failed"]);
    or the effect's cleanup runs. *)
Inductive DevicesEvent :=
| Enumerated (all : list Device)
| Refused (msg : jsstring)
| Unmounted.

Definition devices_step (s : DevicesState) (e : DevicesEvent) : DevicesState :=
  match e with
  | Enumerated all =>
      if mounted s
      then {| mounted := true; devices := List.filter is_mic all; ready := true;
              error := error s |}
      else s
  | Refused msg =>
      if mounted s
      then {| mounted := true; devices := devices s; ready := ready s;
              error := Some msg |}
      else s
  | Unmounted =>
      {| mounted := false; devices := devices s; ready := ready s; error := error s |}
  end.

Definition devices_run (s : DevicesState) (es : list DevicesEvent) : DevicesState :=
  fold_left devices_step es s.

(* ===================================================================== *)
(** ** More of the code: notions for the statements about requests *)
(* ===================================================================== *)

(** The promises a suspended call still awaits when every [fetch] of it
    rejects: the attempts left and the back-off timers between them. *)
Definition call_rest (tries : nat) (c : Call) : nat :=
  match c with
  | AwaitFetch i => 1 + 2 * (tries - S i)
  | AwaitDelay i => 2 + 2 * (tries - S (S i))
  | AwaitJson _ => 1
  end.

(** The outcome of one attempt is the result of the whole loop when it is a
    response that is ok, or when the attempt is the last one. *)
Definition ends_loop (tries n : nat) (r : Err + Body) : Prop :=
  (exists b, r = inr b) \/ S n = tries.

(** A pool has as many runners as [maxWorkers] says. *)
Definition pool_sized (o : Opts) (t : Task) : Prop :=
  match phase t with
  | Translating _ p => length (workers p) = maxWorkers o
  | _ => True
  end.

(** The controller in [reqCtrlRef] belongs to the newest request. *)
Definition ctrl_is_newest (s : Session) : Prop :=
  forall k, reqCtrl s = Some k -> S k = length (tasks s).

(** The task that [finalizeSegment] creates for an upload. *)
Definition new_task (wav : list Z) (st : Stats) : Task :=
  {| aborted := false; phase := Stt (AwaitFetch 0); upload := wav; stats := st |}.

(** No [onError] for an [AbortError]. *)
Definition not_abort_report (cb : Callback) : Prop := cb <> OnError AbortError.

(** A value between two bounds. *)
Definition within (lo hi x : Q) : Prop := (lo <= x)%Q /\ (x <= hi)%Q.

(** How often a list of callbacks has [onResult]. *)
Definition result_calls (cbs : list Callback) : nat :=
  length (List.filter (fun cb => match cb with OnResult _ _ => true | OnError _ => false end)
                      cbs).

(** What a pool may hold: the targets delivered, in translation and queued
    are, counted with their repetitions, among the targets asked for; and no
    result has an empty text. *)
Definition pool_sound (outs : list jsstring) (p : Pool) : Prop :=
  map fst (results p) ++ omap busy_lang (workers p) ++ queue p ⊆+ outs
  /\ Forall (fun x : Translation => snd x <> []) (results p).

Definition task_sound (o : Opts) (t : Task) : Prop :=
  match phase t with
  | Translating tr p => tr <> [] /\ pool_sound (outputs o) p
  | _ => True
  end.

(** What [onResult] may receive. *)
Definition result_sound (o : Opts) (cb : Callback) : Prop :=
  match cb with
  | OnResult tr trs =>
      tr <> []
      /\ map fst trs ⊆+ outputs o
      /\ Forall (fun x : Translation => snd x <> []) trs
  | OnError _ => True
  end.

(* ===================================================================== *)
(** ** More of the code: inputs for examples *)
(* ===================================================================== *)

(** A server that fails the first [n] attempts of a request and then
    answers with [text]. *)
Definition flaky (n : nat) (text : jsstring) : nat -> FetchOutcome :=
  fun i => if (i <? n)%nat then NetworkError text_ok
           else Response true text_ok (Json (Some text)).

(** The default options with a pad of 300 ms. *)
Definition patient_opts : Opts :=
  {| outputs := []; vadGateHigh := 1 # 100; vadGateLow := 4 # 1000; padMs := 300;
     minSpeechMs := 800; maxSegmentMs := 5000; preGain := 102 # 100;
     translationParallelWorkers := None |}.

(** The default options with three targets and at most two runners. *)
Definition two_runner_opts : Opts :=
  {| outputs := [lang_en; lang_ja; lang_ko]; vadGateHigh := 1 # 100;
     vadGateLow := 4 # 1000; padMs := 70; minSpeechMs := 800; maxSegmentMs := 5000;
     preGain := 102 # 100; translationParallelWorkers := Some 2 |}.

(** A frame of [n] samples at 0.05. *)
Definition frame_of (n : nat) : Frame :=
  {| down := replicate n (1 # 20)%Q; energy := 1 # 20 |}.

(** The default options with a maximum of 125.125 ms. *)
Definition tight_opts : Opts :=
  {| outputs := []; vadGateHigh := 1 # 100; vadGateLow := 4 # 1000; padMs := 70;
     minSpeechMs := 800; maxSegmentMs := 125125 # 1000; preGain := 102 # 100;
     translationParallelWorkers := None |}.

(** A frame of two samples (an eighth of a millisecond), both equal to [x]. *)
Definition tiny (x : Q) : Frame :=
  {| down := [x; x]; energy := Qabs x |}.

(** Options that take any segment: no minimum duration, and a pad of three
    eighths of a millisecond. *)
Definition brief_opts : Opts :=
  {| outputs := []; vadGateHigh := 1 # 100; vadGateLow := 4 # 1000; padMs := 3 # 8;
     minSpeechMs := 0; maxSegmentMs := 5000; preGain := 102 # 100;
     translationParallelWorkers := None |}.

(** A microphone and a loudspeaker. *)
Definition a_microphone : Device :=
  {| kind := AudioInput; deviceId := text_ok; label := text_hello |}.

Definition a_loudspeaker : Device :=
  {| kind := AudioOutput; deviceId := text_hello; label := text_ok |}.

(* ===================================================================== *)
(** ** Rounding *)
(* ===================================================================== *)

Lemma pow2_pos (e : Z) : (0 < pow2 e)%Q.
Proof. apply Qpower_0_lt. reflexivity. Qed.

Lemma pow2_plus (a b : Z) : pow2 (a + b) == pow2 a * pow2 b.
Proof. apply Qpower_plus. discriminate. Qed.

Lemma pow2_le (a b : Z) : a <= b -> (pow2 a <= pow2 b)%Q.
Proof. intros H. apply Qpower_le_compat_l; [exact H | discriminate]. Qed.

Lemma pow2_lt (a b : Z) : a < b -> (pow2 a < pow2 b)%Q.
Proof. intros H. apply Qpower_lt_compat_l; [exact H | reflexivity]. Qed.

Lemma pow2_Z (a : Z) : 0 <= a -> pow2 a == inject_Z (2 ^ a).
Proof. intros H. unfold pow2. now rewrite Zpower_Qpower. Qed.

Lemma pow2_div (a b : Z) : pow2 (a - b) == pow2 a / pow2 b.
Proof.
  pose proof (pow2_pos b) as Hb.
  assert (E : pow2 a == pow2 (a - b) * pow2 b).
  { rewrite <- pow2_plus. now replace (a - b + b) with a by lia. }
  rewrite E. field. intros H. rewrite H in Hb. discriminate.
Qed.

Lemma div_pow2_le (x y : Q) (e : Z) : (x <= y)%Q -> (x / pow2 e <= y / pow2 e)%Q.
Proof.
  intros H. unfold Qdiv. apply Qmult_le_compat_r; [exact H|].
  apply Qinv_le_0_compat. apply Qlt_le_weak, pow2_pos.
Qed.

Lemma pow2_div_pow2 (a b : Z) : pow2 a / pow2 b == pow2 (a - b).
Proof. now rewrite pow2_div. Qed.

(** *** The binary logarithm *)

Lemma ilog2_spec (q : Q) :
  (0 < q)%Q -> (pow2 (ilog2 q) <= q)%Q /\ (q < pow2 (ilog2 q + 1))%Q.
Proof.
  intros Hq. unfold ilog2.
  destruct q as [n d]. simpl Qnum. simpl Qden.
  assert (Hn : 0 < n) by (unfold Qlt in Hq; simpl in Hq; lia).
  destruct (Z.log2_spec n Hn) as [A1 A2].
  destruct (Z.log2_spec (Zpos d) eq_refl) as [B1 B2].
  pose proof (Z.log2_nonneg n) as Ha. pose proof (Z.log2_nonneg (Zpos d)) as Hb.
  set (a := Z.log2 n) in *. set (b := Z.log2 (Zpos d)) in *.
  assert (P2 : forall k, 0 <= k -> 0 < 2 ^ k) by (intros; now apply Z.pow_pos_nonneg).
  pose proof (P2 a Ha) as Pa. pose proof (P2 b Hb) as Pb.
  assert (Up : (n # d < pow2 (a - b + 1))%Q).
  { replace (a - b + 1) with ((a + 1) - b) by lia.
    rewrite pow2_div, (pow2_Z (a + 1)), (pow2_Z b) by lia.
    apply Qlt_shift_div_l; [change 0%Q with (inject_Z 0); rewrite <- Zlt_Qlt; lia|].
    unfold Qlt, Qmult, inject_Z. simpl.
    replace (Z.succ a) with (a + 1) in A2 by lia. nia. }
  assert (Lo : (pow2 (a - b - 1) <= n # d)%Q).
  { replace (a - b - 1) with (a - (b + 1)) by lia.
    rewrite pow2_div, (pow2_Z a), (pow2_Z (b + 1)) by lia.
    apply Qle_shift_div_r; [change 0%Q with (inject_Z 0); rewrite <- Zlt_Qlt; apply P2; lia|].
    unfold Qle, Qmult, inject_Z. simpl.
    replace (Z.succ b) with (b + 1) in B2 by lia. nia. }
  destruct (Qle_bool (pow2 (a - b)) (n # d)) eqn:E.
  - apply Qle_bool_iff in E. split; assumption.
  - assert (Hlt : (n # d < pow2 (a - b))%Q).
    { apply Qnot_le_lt. intros Hle. apply Qle_bool_iff in Hle. congruence. }
    split; [exact Lo|]. now replace (a - b - 1 + 1) with (a - b) by lia.
Qed.

Lemma ilog2_unique (q : Q) (k : Z) :
  (pow2 k <= q)%Q -> (q < pow2 (k + 1))%Q -> ilog2 q = k.
Proof.
  intros H1 H2.
  assert (Hq : (0 < q)%Q) by (eapply Qlt_le_trans; [apply pow2_pos | exact H1]).
  destruct (ilog2_spec q Hq) as [S1 S2].
  destruct (Z.lt_trichotomy (ilog2 q) k) as [L|[E|L]]; [|exact E|].
  - exfalso. assert (pow2 (ilog2 q + 1) <= pow2 k)%Q by (apply pow2_le; lia). lra.
  - exfalso. assert (pow2 (k + 1) <= pow2 (ilog2 q))%Q by (apply pow2_le; lia). lra.
Qed.

Lemma ilog2_comp (x y : Q) : (0 < x)%Q -> x == y -> ilog2 x = ilog2 y.
Proof.
  intros Hx E. destruct (ilog2_spec x Hx) as [S1 S2].
  symmetry. apply ilog2_unique; rewrite <- E; assumption.
Qed.

Lemma ilog2_le (x y : Q) : (0 < x)%Q -> (x <= y)%Q -> ilog2 x <= ilog2 y.
Proof.
  intros Hx H.
  assert (Hy : (0 < y)%Q) by lra.
  destruct (ilog2_spec x Hx) as [X1 X2]. destruct (ilog2_spec y Hy) as [Y1 Y2].
  destruct (Z_le_gt_dec (ilog2 x) (ilog2 y)) as [L|G]; [exact L|].
  exfalso. assert (pow2 (ilog2 y + 1) <= pow2 (ilog2 x))%Q by (apply pow2_le; lia). lra.
Qed.

(** *** Rounding to the nearest integer, ties to even *)

Lemma inject_Z_pred (z : Z) : inject_Z (z - 1) == inject_Z z - 1.
Proof. unfold Qeq, Qminus, Qplus, Qopp, inject_Z. simpl. lia. Qed.

Lemma inject_Z_succ (z : Z) : inject_Z (z + 1) == inject_Z z + 1.
Proof. unfold Qeq, Qplus, inject_Z. simpl. lia. Qed.

Lemma Qfloor_unique (z : Z) (x : Q) :
  (inject_Z z <= x)%Q -> (x < inject_Z (z + 1))%Q -> Qfloor x = z.
Proof.
  intros H1 H2.
  pose proof (Qfloor_resp_le _ _ H1) as L. rewrite Qfloor_Z in L.
  pose proof (Qfloor_le x) as U.
  assert (inject_Z (Qfloor x) < inject_Z (z + 1))%Q by lra.
  rewrite <- Zlt_Qlt in H. lia.
Qed.

Lemma rne_bounds (q : Q) : Qfloor q <= rne q <= Qfloor q + 1.
Proof.
  unfold rne. destruct (_ ?= _)%Q; [destruct (Z.even _)| |]; lia.
Qed.

Lemma rne_comp (x y : Q) : x == y -> rne x = rne y.
Proof.
  intros E. unfold rne. rewrite (Qfloor_comp _ _ E).
  assert (E2 : x - inject_Z (Qfloor y) == y - inject_Z (Qfloor y)) by now rewrite E.
  now rewrite (Qcompare_comp _ _ E2 _ _ (Qeq_refl (1 # 2))).
Qed.

Lemma rne_Z (z : Z) : rne (inject_Z z) = z.
Proof.
  unfold rne. rewrite Qfloor_Z.
  assert (E : (inject_Z z - inject_Z z ?= 1 # 2)%Q = Lt).
  { apply (proj1 (Qlt_alt _ _)). lra. }
  now rewrite E.
Qed.

Lemma rne_le (x y : Q) : (x <= y)%Q -> rne x <= rne y.
Proof.
  intros H.
  pose proof (Qfloor_resp_le _ _ H) as F.
  pose proof (rne_bounds x) as Bx. pose proof (rne_bounds y) as By.
  destruct (Z.eq_dec (Qfloor x) (Qfloor y)) as [E|NE]; [|lia].
  unfold rne in *. rewrite E in *.
  set (f := Qfloor y) in *.
  destruct (Qcompare_spec (x - inject_Z f) (1 # 2)) as [Ex|Lx|Gx];
    destruct (Qcompare_spec (y - inject_Z f) (1 # 2)) as [Ey|Ly|Gy];
    try destruct (Z.even f); try lia; exfalso; lra.
Qed.

Lemma rne_opp (q : Q) : rne (- q) = - rne q.
Proof.
  pose proof (Qfloor_le q) as F1. pose proof (Qlt_floor q) as F2.
  set (f := Qfloor q) in *.
  rewrite inject_Z_succ in F2.
  destruct (Qeq_dec q (inject_Z f)) as [E|NE].
  - assert (E' : - q == inject_Z (- f)) by (rewrite inject_Z_opp, E; reflexivity).
    rewrite (rne_comp _ _ E'), (rne_comp _ _ E), !rne_Z. reflexivity.
  - assert (Hlt : (inject_Z f < q)%Q).
    { apply Qle_lteq in F1 as [L|L]; [exact L|]. exfalso. apply NE. now symmetry. }
    assert (Ff : Qfloor (- q) = - f - 1).
    { apply Qfloor_unique.
      - rewrite inject_Z_pred, inject_Z_opp. lra.
      - replace (- f - 1 + 1) with (- f) by lia. rewrite inject_Z_opp. lra. }
    unfold rne. rewrite Ff. fold f.
    assert (I1 : inject_Z (- f - 1) == - inject_Z f - 1).
    { now rewrite inject_Z_pred, inject_Z_opp. }
    destruct (Qcompare_spec (q - inject_Z f) (1 # 2)) as [Ex|Lx|Gx];
      destruct (Qcompare_spec (- q - inject_Z (- f - 1)) (1 # 2)) as [Ey|Ly|Gy];
      rewrite I1 in *; try (exfalso; lra); try lia.
    replace (- f - 1) with (- (f + 1)) by lia.
    rewrite Z.even_opp, Z.even_add. simpl.
    destruct (Z.even f); simpl; lia.
Qed.

Lemma rne_nonneg (q : Q) : (0 <= q)%Q -> 0 <= rne q.
Proof.
  intros H. change 0 with (rne (inject_Z 0)) at 1. rewrite rne_Z.
  pose proof (rne_le _ _ H) as L. change 0%Q with (inject_Z 0) in L.
  now rewrite rne_Z in L.
Qed.

(** *** Rounding to a binary format *)

Section Rounding.
Variables prec emin : Z.
Hypothesis prec_pos : 1 <= prec.

Lemma round_to_0 (q : Q) : q == 0 -> round_to prec emin q = 0%Q.
Proof.
  intros E. unfold round_to. apply Qeq_bool_iff in E. now rewrite E.
Qed.

Lemma round_to_eq (q : Q) :
  ~ q == 0 ->
  round_to prec emin q
  == inject_Z (rne (q / pow2 (cexp prec emin q))) * pow2 (cexp prec emin q).
Proof.
  intros NE. unfold round_to.
  destruct (Qeq_bool q 0) eqn:E; [apply Qeq_bool_iff in E; contradiction|].
  apply Qred_correct.
Qed.

Lemma Qabs_pos_iff (q : Q) : ~ q == 0 -> (0 < Qabs q)%Q.
Proof.
  intros NE.
  apply Qabs_case; intros H; apply Qle_lteq in H as [H|H]; try lra;
    exfalso; apply NE; lra.
Qed.

Lemma cexp_comp (x y : Q) : ~ x == 0 -> x == y -> cexp prec emin x = cexp prec emin y.
Proof.
  intros NE E. unfold cexp.
  rewrite (ilog2_comp (Qabs x) (Qabs y)); [reflexivity | now apply Qabs_pos_iff |].
  now rewrite E.
Qed.

Lemma round_to_comp (x y : Q) : x == y -> round_to prec emin x == round_to prec emin y.
Proof.
  intros E. destruct (Qeq_dec x 0) as [Hz|NZ].
  - rewrite (round_to_0 x Hz), (round_to_0 y); [reflexivity | now rewrite <- E].
  - assert (NZy : ~ y == 0) by now rewrite <- E.
    rewrite (round_to_eq x NZ), (round_to_eq y NZy), (cexp_comp x y NZ E).
    assert (E2 : x / pow2 (cexp prec emin y) == y / pow2 (cexp prec emin y))
      by now rewrite E.
    now rewrite (rne_comp _ _ E2).
Qed.

Lemma cexp_opp (q : Q) : ~ q == 0 -> cexp prec emin (- q) = cexp prec emin q.
Proof.
  intros NE. unfold cexp.
  rewrite (ilog2_comp (Qabs (- q)) (Qabs q)); [reflexivity | |apply Qabs_opp].
  apply Qabs_pos_iff. intros E. apply NE. lra.
Qed.

Lemma round_to_opp (q : Q) : round_to prec emin (- q) == - round_to prec emin q.
Proof.
  destruct (Qeq_dec q 0) as [Hz|NZ].
  - rewrite (round_to_0 q Hz), (round_to_0 (- q)); [reflexivity | lra].
  - assert (NZ' : ~ - q == 0) by (intros E; apply NZ; lra).
    rewrite (round_to_eq q NZ), (round_to_eq (- q) NZ'), (cexp_opp q NZ).
    assert (E2 : - q / pow2 (cexp prec emin q) == - (q / pow2 (cexp prec emin q))).
    { unfold Qdiv. ring. }
    rewrite (rne_comp _ _ E2), rne_opp, inject_Z_opp. ring.
Qed.

Lemma cexp_pos (q : Q) : (0 < q)%Q -> cexp prec emin q = Z.max (ilog2 q - prec + 1) emin.
Proof.
  intros H. unfold cexp.
  rewrite (ilog2_comp (Qabs q) q); [reflexivity | |apply Qabs_pos; lra].
  apply Qabs_pos_iff. intros E. lra.
Qed.

Lemma round_pos_nonneg (q : Q) : (0 < q)%Q -> (0 <= round_to prec emin q)%Q.
Proof.
  intros H. rewrite round_to_eq by (intros E; lra).
  pose proof (pow2_pos (cexp prec emin q)) as Hp.
  apply Qmult_le_0_compat; [|lra].
  change 0%Q with (inject_Z 0). rewrite <- Zle_Qle. apply rne_nonneg.
  apply Qle_shift_div_l; [exact Hp | lra].
Qed.

Lemma round_pos_le (x y : Q) :
  (0 < x)%Q -> (x <= y)%Q -> (round_to prec emin x <= round_to prec emin y)%Q.
Proof.
  intros Hx Hxy. assert (Hy : (0 < y)%Q) by lra.
  rewrite (round_to_eq x), (round_to_eq y) by (intros E; lra).
  rewrite (cexp_pos x Hx), (cexp_pos y Hy).
  pose proof (ilog2_le x y Hx Hxy) as Hl.
  destruct (ilog2_spec x Hx) as [X1 X2]. destruct (ilog2_spec y Hy) as [Y1 Y2].
  set (kx := ilog2 x) in *. set (ky := ilog2 y) in *.
  set (ex := Z.max (kx - prec + 1) emin). set (ey := Z.max (ky - prec + 1) emin).
  assert (Hexy : ex <= ey) by (unfold ex, ey; lia).
  destruct (Z.eq_dec ex ey) as [E|NE].
  - rewrite E. apply Qmult_le_compat_r; [|apply Qlt_le_weak, pow2_pos].
    rewrite <- Zle_Qle. apply rne_le. now apply div_pow2_le.
  - assert (Ey : ey = ky - prec + 1) by (unfold ex, ey in *; lia).
    assert (Kx : kx + 1 <= ky) by (unfold ex, ey in *; lia).
    assert (Kex : 0 <= ky - ex) by (unfold ex, ey in *; lia).
    apply Qle_trans with (pow2 ky).
    + assert (B : rne (x / pow2 ex) <= 2 ^ (ky - ex)).
      { rewrite <- (rne_Z (2 ^ (ky - ex))). apply rne_le.
        rewrite <- pow2_Z by exact Kex. rewrite <- pow2_div_pow2.
        apply div_pow2_le.
        assert (pow2 (kx + 1) <= pow2 ky)%Q by now apply pow2_le. lra. }
      apply Qle_trans with (inject_Z (2 ^ (ky - ex)) * pow2 ex)%Q.
      * apply Qmult_le_compat_r; [|apply Qlt_le_weak, pow2_pos].
        now rewrite <- Zle_Qle.
      * rewrite <- pow2_Z by exact Kex. rewrite <- pow2_plus.
        replace (ky - ex + ex) with ky by lia. apply Qle_refl.
    + assert (B : 2 ^ (prec - 1) <= rne (y / pow2 ey)).
      { rewrite <- (rne_Z (2 ^ (prec - 1))). apply rne_le.
        rewrite <- pow2_Z by lia.
        replace (prec - 1) with (ky - ey) by lia. rewrite <- pow2_div_pow2.
        now apply div_pow2_le. }
      apply Qle_trans with (inject_Z (2 ^ (prec - 1)) * pow2 ey)%Q.
      * rewrite <- pow2_Z by lia. rewrite <- pow2_plus.
        replace (prec - 1 + ey) with ky by lia. apply Qle_refl.
      * apply Qmult_le_compat_r; [|apply Qlt_le_weak, pow2_pos].
        now rewrite <- Zle_Qle.
Qed.

Lemma round_to_nonneg (q : Q) : (0 <= q)%Q -> (0 <= round_to prec emin q)%Q.
Proof.
  intros H. apply Qle_lteq in H as [H|H].
  - now apply round_pos_nonneg.
  - rewrite round_to_0 by (now symmetry). apply Qle_refl.
Qed.

Lemma round_to_nonpos (q : Q) : (q <= 0)%Q -> (round_to prec emin q <= 0)%Q.
Proof.
  intros H.
  assert (E : q == - - q) by ring.
  rewrite (round_to_comp _ _ E), round_to_opp.
  assert (0 <= round_to prec emin (- q))%Q by (apply round_to_nonneg; lra).
  lra.
Qed.

(** Rounding is monotone. *)
Lemma round_to_le (x y : Q) :
  (x <= y)%Q -> (round_to prec emin x <= round_to prec emin y)%Q.
Proof.
  intros H.
  destruct (Qlt_le_dec 0 x) as [Hx|Hx]; [now apply round_pos_le|].
  destruct (Qlt_le_dec y 0) as [Hy|Hy].
  - assert (Ex : x == - - x) by ring. assert (Ey : y == - - y) by ring.
    rewrite (round_to_comp _ _ Ex), (round_to_comp _ _ Ey).
    rewrite (round_to_opp (- x)), (round_to_opp (- y)).
    assert (round_to prec emin (- y) <= round_to prec emin (- x))%Q
      by (apply round_pos_le; lra).
    lra.
  - apply Qle_trans with 0%Q; [now apply round_to_nonpos | now apply round_to_nonneg].
Qed.

Lemma ilog2_scaled (m e : Z) :
  0 < m -> ilog2 (inject_Z m * pow2 e) = Z.log2 m + e.
Proof.
  intros Hm. destruct (Z.log2_spec m Hm) as [A1 A2].
  pose proof (Z.log2_nonneg m) as Ha.
  pose proof (pow2_pos e) as He.
  apply ilog2_unique.
  - rewrite pow2_plus, (pow2_Z (Z.log2 m)) by exact Ha.
    apply Qmult_le_compat_r; [|lra]. now rewrite <- Zle_Qle.
  - replace (Z.log2 m + e + 1) with (Z.succ (Z.log2 m) + e) by lia.
    rewrite pow2_plus, (pow2_Z (Z.succ (Z.log2 m))) by lia.
    apply Qmult_lt_compat_r; [exact He|]. now rewrite <- Zlt_Qlt.
Qed.

(** A representable number is left alone. *)
Lemma round_to_exact (q : Q) : representable prec emin q -> round_to prec emin q == q.
Proof.
  intros (m & e & E & Hm & He).
  destruct (Qeq_dec q 0) as [Hz|NZ]; [rewrite (round_to_0 q Hz); now symmetry|].
  assert (Pos : forall m' : Z, 0 < m' -> m' < 2 ^ prec -> emin <= e ->
                  round_to prec emin (inject_Z m' * pow2 e) == inject_Z m' * pow2 e).
  { intros m' M1 M2 _.
    pose proof (pow2_pos e) as Pe.
    assert (Hq : (0 < inject_Z m' * pow2 e)%Q).
    { apply Qmult_lt_0_compat; [|exact Pe].
      change 0%Q with (inject_Z 0). now rewrite <- Zlt_Qlt. }
    rewrite round_to_eq by (intros E'; lra).
    rewrite (cexp_pos _ Hq), ilog2_scaled by exact M1.
    assert (L : Z.log2 m' < prec) by (apply Z.log2_lt_pow2; lia).
    set (c := Z.max (Z.log2 m' + e - prec + 1) emin).
    assert (Hc : 0 <= e - c) by (unfold c; lia).
    assert (E1 : inject_Z m' * pow2 e / pow2 c == inject_Z (m' * 2 ^ (e - c))).
    { rewrite inject_Z_mult, <- pow2_Z by exact Hc. rewrite pow2_div.
      pose proof (pow2_pos c). field. intros E'. lra. }
    rewrite (rne_comp _ _ E1), rne_Z, inject_Z_mult, <- pow2_Z by exact Hc.
    rewrite <- Qmult_assoc, <- pow2_plus. now replace (e - c + c) with e by lia. }
  destruct (Z.lt_trichotomy m 0) as [L|[Hz|G]].
  - assert (E2 : q == - (inject_Z (- m) * pow2 e)).
    { rewrite E, inject_Z_opp. ring. }
    rewrite (round_to_comp _ _ E2), round_to_opp, Pos by lia. now rewrite E2.
  - exfalso. apply NZ. rewrite E, Hz. ring.
  - rewrite (round_to_comp _ _ E), Pos by lia. now rewrite E.
Qed.

Lemma round_to_representable (q : Q) : representable prec emin (round_to prec emin q).
Proof.
  assert (Pos : forall x, (0 < x)%Q -> representable prec emin (round_to prec emin x)).
  { intros x Hx.
    destruct (ilog2_spec x Hx) as [X1 X2].
    pose proof (cexp_pos x Hx) as Ec.
    set (c := cexp prec emin x) in *.
    assert (Hc : ilog2 x - prec + 1 <= c /\ emin <= c) by lia.
    assert (B : 0 <= rne (x / pow2 c) <= 2 ^ prec).
    { split.
      - apply rne_nonneg. apply Qle_shift_div_l; [apply pow2_pos | lra].
      - rewrite <- (rne_Z (2 ^ prec)). apply rne_le.
        rewrite <- pow2_Z by lia.
        assert (Ep : pow2 prec == pow2 (c + prec) / pow2 c).
        { rewrite pow2_div_pow2. now replace (c + prec - c) with prec by lia. }
        rewrite Ep. apply div_pow2_le.
        assert (pow2 (ilog2 x + 1) <= pow2 (c + prec))%Q by (apply pow2_le; lia). lra. }
    destruct (Z.eq_dec (rne (x / pow2 c)) (2 ^ prec)) as [E|NE].
    - exists (2 ^ (prec - 1)), (c + 1). split; [|split].
      + rewrite round_to_eq by (intros E'; lra). fold c. rewrite E.
        rewrite <- !pow2_Z by lia. rewrite <- !pow2_plus.
        now replace (prec + c) with (prec - 1 + (c + 1)) by lia.
      + rewrite Z.abs_eq by (apply Z.pow_nonneg; lia).
        apply Z.pow_lt_mono_r; lia.
      + lia.
    - exists (rne (x / pow2 c)), c. split; [|split].
      + rewrite round_to_eq by (intros E'; lra). reflexivity.
      + rewrite Z.abs_eq by lia. lia.
      + lia. }
  destruct (Qlt_le_dec 0 q) as [Hq|Hq]; [now apply Pos|].
  apply Qle_lteq in Hq as [Hq|Hq].
  - destruct (Pos (- q)%Q) as (m & e & E & Hm & He); [lra|].
    exists (- m), e. split; [|split; [now rewrite Z.abs_opp | exact He]].
    assert (E2 : q == - - q) by ring.
    rewrite (round_to_comp _ _ E2), round_to_opp, E, inject_Z_opp. ring.
  - exists 0, emin. split; [|split; [|lia]].
    + rewrite (round_to_0 q Hq). ring.
    + simpl. apply Z.pow_pos_nonneg; lia.
Qed.

Lemma round_to_idem (q : Q) :
  round_to prec emin (round_to prec emin q) == round_to prec emin q.
Proof. apply round_to_exact, round_to_representable. Qed.

End Rounding.

(** *** Numbers and singles *)

#[global] Instance fl64_proper : Proper (Qeq ==> Qeq) fl64.
Proof. intros x y E. now apply round_to_comp. Qed.

#[global] Instance fl32_proper : Proper (Qeq ==> Qeq) fl32.
Proof. intros x y E. now apply round_to_comp. Qed.

#[global] Instance fadd_proper : Proper (Qeq ==> Qeq ==> Qeq) fadd.
Proof. intros a a' Ea b b' Eb. unfold fadd. now rewrite Ea, Eb. Qed.

Lemma fl64_le (x y : Q) : (x <= y)%Q -> (fl64 x <= fl64 y)%Q.
Proof. apply round_to_le. lia. Qed.

Lemma fl32_le (x y : Q) : (x <= y)%Q -> (fl32 x <= fl32 y)%Q.
Proof. apply round_to_le. lia. Qed.

Lemma fl64_exact (x : Q) : is_f64 x -> fl64 x == x.
Proof. apply round_to_exact. lia. Qed.

Lemma fl32_exact (x : Q) : is_f32 x -> fl32 x == x.
Proof. apply round_to_exact. lia. Qed.

Lemma fl64_is_f64 (x : Q) : is_f64 (fl64 x).
Proof. apply round_to_representable. lia. Qed.

Lemma fl32_is_f32 (x : Q) : is_f32 (fl32 x).
Proof. apply round_to_representable. lia. Qed.

Lemma fl64_nonneg (x : Q) : (0 <= x)%Q -> (0 <= fl64 x)%Q.
Proof. apply round_to_nonneg. Qed.

Lemma is_f64_comp (x y : Q) : x == y -> is_f64 x -> is_f64 y.
Proof. intros E (m & e & H). exists m, e. now rewrite <- E. Qed.

Lemma is_f32_comp (x y : Q) : x == y -> is_f32 x -> is_f32 y.
Proof. intros E (m & e & H). exists m, e. now rewrite <- E. Qed.

(** A single is a number. *)
Lemma is_f32_f64 (x : Q) : is_f32 x -> is_f64 x.
Proof.
  intros (m & e & E & Hm & He). exists m, e.
  split; [exact E|]. split; [|lia].
  eapply Z.lt_trans; [exact Hm|]. reflexivity.
Qed.

(** An integer below [2^prec] is a number of the format. *)
Lemma is_f64_Z (z : Z) : Z.abs z < 2 ^ 53 -> is_f64 (inject_Z z).
Proof.
  intros H. exists z, 0. split; [|split; [exact H | lia]].
  change (pow2 0) with 1%Q. ring.
Qed.

Lemma is_f32_Z (z : Z) : Z.abs z < 2 ^ 24 -> is_f32 (inject_Z z).
Proof.
  intros H. exists z, 0. split; [|split; [exact H | lia]].
  change (pow2 0) with 1%Q. ring.
Qed.

Lemma is_f64_0 : is_f64 0.
Proof. now apply (is_f64_Z 0). Qed.

Lemma fadd_is_f64 (a b : Q) : is_f64 (fadd a b).
Proof. apply fl64_is_f64. Qed.

Lemma fadd_le_mono (a b c : Q) : (a <= b)%Q -> (fadd a c <= fadd b c)%Q.
Proof. intros H. unfold fadd. apply fl64_le. lra. Qed.

Lemma fadd_le_mono_r (a b c : Q) : (b <= c)%Q -> (fadd a b <= fadd a c)%Q.
Proof. intros H. unfold fadd. apply fl64_le. lra. Qed.

(** Adding a number that is not negative does not decrease a number. *)
Lemma fadd_ge_l (a b : Q) : is_f64 a -> (0 <= b)%Q -> (a <= fadd a b)%Q.
Proof.
  intros Ha Hb. rewrite <- (fl64_exact a Ha) at 1.
  unfold fadd. apply fl64_le. lra.
Qed.

Lemma fadd_nonneg (a b : Q) : (0 <= a)%Q -> (0 <= b)%Q -> (0 <= fadd a b)%Q.
Proof. intros Ha Hb. unfold fadd. apply fl64_nonneg. lra. Qed.

Lemma len_ms_nonneg (n : nat) : (0 <= len_ms n)%Q.
Proof.
  unfold len_ms. apply fl64_nonneg.
  assert (0 <= fl64 (Qnat n / 16000))%Q.
  { apply fl64_nonneg. apply Qle_shift_div_l; [reflexivity|].
    rewrite Qmult_0_l. unfold Qnat. change 0%Q with (inject_Z 0).
    rewrite <- Zle_Qle. lia. }
  lra.
Qed.

Lemma len_ms_is_f64 (n : nat) : is_f64 (len_ms n).
Proof. apply fl64_is_f64. Qed.

(* ===================================================================== *)
(** * Properties *)
(* ===================================================================== *)

(** ** Comparisons on rationals *)

Lemma Qlt_bool_iff (a b : Q) : Qlt_bool a b = true <-> (a < b)%Q.
Proof.
  unfold Qlt_bool. rewrite negb_true_iff.
  split; intros H.
  - apply Qnot_le_lt. intros Hle. apply Qle_bool_iff in Hle. congruence.
  - destruct (Qle_bool b a) eqn:E; [|reflexivity].
    apply Qle_bool_iff in E. exfalso. exact (Qlt_not_le _ _ H E).
Qed.

Lemma Qlt_bool_false_iff (a b : Q) : Qlt_bool a b = false <-> (b <= a)%Q.
Proof.
  unfold Qlt_bool. rewrite negb_false_iff. apply Qle_bool_iff.
Qed.

Lemma Qle_bool_false_iff (a b : Q) : Qle_bool a b = false <-> (b < a)%Q.
Proof.
  rewrite <- Qlt_bool_iff. unfold Qlt_bool.
  destruct (Qle_bool a b); simpl; split; congruence.
Qed.

Lemma Qnat_nonneg (n : nat) : (0 <= Qnat n)%Q.
Proof.
  unfold Qnat, Qle. simpl. lia.
Qed.

Lemma Qnat_lt (a b : nat) : (Qnat a < Qnat b)%Q <-> (a < b)%nat.
Proof.
  unfold Qnat. rewrite <- Zlt_Qlt. lia.
Qed.

Lemma Qnat_le (a b : nat) : (Qnat a <= Qnat b)%Q <-> (a <= b)%nat.
Proof.
  unfold Qnat. rewrite <- Zle_Qle. lia.
Qed.

Lemma frameMs_nonneg (f : Frame) : (0 <= frameMs f)%Q.
Proof.
  unfold frameMs. apply len_ms_nonneg.
Qed.

(* ===================================================================== *)
(** ** Segmenter: hysteresis *)
(* ===================================================================== *)

Lemma idle_frame_ignored (o : Opts) (st : SegState) (f : Frame) :
  speaking st = false ->
  (energy f < vadGateHigh o)%Q ->
  vad_step o st f = (st, None).
Proof.
  intros Hs He. unfold vad_step. rewrite Hs. simpl.
  apply Qle_bool_false_iff in He. rewrite He. reflexivity.
Qed.

Lemma step_initial_below_start (o : Opts) (net : Network) (e : Event) :
  below_start o e -> step o net initial e = initial.
Proof.
  destruct e as [f|k w|]; simpl; intros H.
  - rewrite (idle_frame_ignored o resetSegmentState f eq_refl H). reflexivity.
  - reflexivity.
  - reflexivity.
Qed.

(** C4.  While no frame's energy reaches [vadGateHigh] the hook stays as it
    was initialised, whatever else happens: the segmenter is idle, no frame
    is buffered, no duration is accumulated, and the session has made no
    request and no callback. *)
Theorem C4_below_gateHigh_stays_idle (o : Opts) (net : Network) (es : list Event) :
  Forall (below_start o) es ->
  run o net initial es = initial
  /\ speaking (seg (run o net initial es)) = false
  /\ segFrames (seg (run o net initial es)) = []
  /\ tasks (sess (run o net initial es)) = []
  /\ log (sess (run o net initial es)) = [].
Proof.
  intros H.
  assert (E : run o net initial es = initial).
  { unfold run. induction H as [|e es He Hes IH]; simpl.
    - reflexivity.
    - rewrite (step_initial_below_start o net e He). exact IH. }
  rewrite E. repeat split.
Qed.

(** The segmenter alone: no [finalizeSegment] call is made either. *)
Lemma vad_run_below_gateHigh (o : Opts) (fs : list Frame) :
  Forall (fun f => (energy f < vadGateHigh o)%Q) fs ->
  vad_run o resetSegmentState fs = (resetSegmentState, []).
Proof.
  induction 1 as [|f fs Hf Hfs IH]; simpl.
  - reflexivity.
  - rewrite (idle_frame_ignored o resetSegmentState f eq_refl Hf), IH. reflexivity.
Qed.

(* ===================================================================== *)
(** ** The gates *)
(* ===================================================================== *)

Lemma finalizeSegment_dropped (o : Opts) (snap : Snapshot) (s : Session) :
  (forall wav st, gate o snap <> Upload wav st) ->
  finalizeSegment o snap s = s.
Proof.
  intros H. unfold finalizeSegment.
  destruct (gate o snap) eqn:E; try reflexivity.
  exfalso. exact (H _ _ eq_refl).
Qed.

(** What the segmenter hands over always has at least one frame. *)
Lemma vad_step_emits_frames (o : Opts) (st : SegState) (f : Frame) st' snap :
  vad_step o st f = (st', Some snap) -> snap_frames snap <> [].
Proof.
  unfold vad_step.
  destruct (negb (speaking st)).
  - destruct (Qle_bool _ _); discriminate.
  - destruct (Qlt_bool _ _).
    + destruct (_ || _); [|discriminate].
      intros [= _ <-]. simpl. intros E. now apply app_eq_nil in E as [_ ?].
    + destruct (Qle_bool _ _); [|discriminate].
      intros [= _ <-]. simpl. intros E. now apply app_eq_nil in E as [_ ?].
Qed.

(** C5.  A segment shorter than [minSpeechMs] leaves [finalizeSegment] at
    the minimum-duration test, before any quality measure is computed: the
    session is unchanged (no request is created, no callback is logged), and
    the verdict is the duration one whatever the voiced fraction is. *)
Theorem C5_short_segment_discarded (o : Opts) (snap : Snapshot) (s : Session) :
  snap_frames snap <> [] ->
  (snap_durMs snap < minSpeechMs o)%Q ->
  gate o snap = DropShort
  /\ finalizeSegment o snap s = s
  /\ tasks (finalizeSegment o snap s) = tasks s
  /\ log (finalizeSegment o snap s) = log s.
Proof.
  intros Hne Hlt.
  assert (G : gate o snap = DropShort).
  { unfold gate. destruct (snap_frames snap); [congruence|].
    apply Qlt_bool_iff in Hlt. rewrite Hlt. reflexivity. }
  assert (E : finalizeSegment o snap s = s).
  { apply finalizeSegment_dropped. intros wav st. rewrite G. discriminate. }
  rewrite E. auto.
Qed.

Lemma quality_reject_iff (vf dur : Q) :
  quality_reject vf dur = true
  <-> (vf < lowVoicedFraction)%Q /\ (dur < shortDurationMs)%Q.
Proof.
  unfold quality_reject. rewrite andb_true_iff, !Qlt_bool_iff. reflexivity.
Qed.

(** The voiced fraction of the code is the quotient of the two durations,
    a number, as soon as the segment lasts a millisecond. *)
Lemma voicedFraction_quotient (voiced dur : Q) :
  (0 <= voiced)%Q -> (1 <= dur)%Q ->
  voicedFraction voiced dur == fl64 (voiced / dur).
Proof.
  intros Hv Hd. unfold voicedFraction.
  destruct (Qlt_bool 0 voiced) eqn:E.
  - rewrite (Q.max_r 1 dur Hd). reflexivity.
  - apply Qlt_bool_false_iff in E.
    assert (Ev : voiced == 0) by (apply Qle_antisym; assumption).
    assert (Eq : voiced / dur == 0) by (rewrite Ev; unfold Qdiv; apply Qmult_0_l).
    rewrite Eq. reflexivity.
Qed.



(* ===================================================================== *)
(** ** Codec *)
(* ===================================================================== *)

Lemma clamp1_range (x : Q) : (-1 <= clamp1 x)%Q /\ (clamp1 x <= 1)%Q.
Proof.
  unfold clamp1. split.
  - apply Q.le_max_l.
  - apply Q.max_lub; [discriminate | apply Q.le_min_l].
Qed.

Lemma clamp1_inside (x : Q) : (-1 <= x)%Q -> (x <= 1)%Q -> clamp1 x == x.
Proof.
  intros Hl Hh. unfold clamp1.
  rewrite (Q.min_r 1 x Hh). apply Q.max_r. exact Hl.
Qed.

Lemma clamp1_above (x : Q) : (1 <= x)%Q -> clamp1 x == 1.
Proof.
  intros H. unfold clamp1.
  rewrite (Q.min_l 1 x H). apply Q.max_r. discriminate.
Qed.

Lemma clamp1_below (x : Q) : (x <= -1)%Q -> clamp1 x == -1.
Proof.
  intros H. unfold clamp1.
  apply Q.max_l. apply Q.min_le_iff. right. exact H.
Qed.

Lemma Qtrunc_bounds (q : Q) (lo hi : Z) :
  (inject_Z lo <= q)%Q -> (q <= inject_Z hi)%Q -> lo <= Qtrunc q <= hi.
Proof.
  destruct q as [n d]. unfold Qle, Qtrunc. simpl. intros Hlo Hhi.
  rewrite Z.mul_1_r in Hlo, Hhi.
  split.
  - rewrite <- (Z.quot_mul lo (Zpos d)) by lia.
    apply Z.quot_le_mono; lia.
  - rewrite <- (Z.quot_mul hi (Zpos d)) by lia.
    apply Z.quot_le_mono; lia.
Qed.

Lemma scale16_range (s : Q) :
  (-1 <= s)%Q -> (s <= 1)%Q ->
  (inject_Z (-32768) <= scale16 s)%Q /\ (scale16 s <= inject_Z 32767)%Q.
Proof.
  intros Hl Hh. unfold scale16.
  destruct (Qlt_bool s 0) eqn:E.
  - apply Qlt_bool_iff in E. split.
    + apply Qle_trans with ((-1) * 32768)%Q; [discriminate|].
      apply Qmult_le_compat_r; [exact Hl | discriminate].
    + apply Qle_trans with 0%Q; [|discriminate].
      apply Qle_trans with (0 * 32768)%Q; [|discriminate].
      apply Qmult_le_compat_r; [apply Qlt_le_weak; exact E | discriminate].
  - apply Qlt_bool_false_iff in E. split.
    + apply Qle_trans with 0%Q; [discriminate|].
      apply Qmult_le_0_compat; [exact E | discriminate].
    + apply Qle_trans with (1 * 32767)%Q; [|discriminate].
      apply Qmult_le_compat_r; [exact Hh | discriminate].
Qed.

(** The 16-bit store never wraps: the scaled sample is already in range. *)
Lemma pcm16_of_spec (x : Q) :
  pcm16_of x = Qtrunc (scale16 (clamp1 x))
  /\ -32768 <= pcm16_of x <= 32767.
Proof.
  destruct (clamp1_range x) as [Hl Hh].
  destruct (scale16_range _ Hl Hh) as [Sl Sh].
  pose proof (Qtrunc_bounds _ _ _ Sl Sh) as B.
  unfold pcm16_of, toInt16.
  rewrite Z.mod_small by lia.
  split; lia.
Qed.

Lemma length_setUint8 view off v : length (setUint8 view off v) = length view.
Proof. apply length_insert. Qed.

Lemma setUint8_app_l (h t : list Z) off v :
  (off < length h)%nat -> setUint8 (h ++ t) off v = setUint8 h off v ++ t.
Proof. intros H. unfold setUint8. now rewrite insert_app_l. Qed.

Lemma setUint16_app_l (h t : list Z) off v :
  (off + 1 < length h)%nat -> setUint16 (h ++ t) off v = setUint16 h off v ++ t.
Proof.
  intros H. unfold setUint16.
  rewrite !setUint8_app_l; rewrite ?length_setUint8; auto; lia.
Qed.

Lemma setUint32_app_l (h t : list Z) off v :
  (off + 3 < length h)%nat -> setUint32 (h ++ t) off v = setUint32 h off v ++ t.
Proof.
  intros H. unfold setUint32.
  rewrite !setUint8_app_l; rewrite ?length_setUint8; auto; lia.
Qed.

Lemma length_writeString str : forall view off,
  length (writeString view off str) = length view.
Proof.
  induction str as [|c str IH]; intros; simpl; [reflexivity|].
  now rewrite IH, length_setUint8.
Qed.

Lemma writeString_app_l str : forall (h t : list Z) off,
  (off + length str <= length h)%nat ->
  writeString (h ++ t) off str = writeString h off str ++ t.
Proof.
  induction str as [|c str IH]; intros h t off H; simpl in *; [reflexivity|].
  rewrite setUint8_app_l by lia.
  apply IH. rewrite length_setUint8. lia.
Qed.

(** One sample written at the end of what is already written. *)
Lemma setInt16_at_end (pre rest : list Z) (a b v : Z) :
  setInt16 (pre ++ a :: b :: rest) (length pre) v = (pre ++ le16 v) ++ rest.
Proof.
  unfold setInt16, setUint16, setUint8, le16.
  rewrite insert_app_r_alt by lia. rewrite Nat.sub_diag. simpl.
  rewrite insert_app_r_alt by lia.
  replace (length pre + 1 - length pre)%nat with 1%nat by lia. simpl.
  now rewrite <- app_assoc.
Qed.

Lemma write_samples_at_end (int16 : list Z) : forall pre : list Z,
  write_samples (pre ++ replicate (2 * length int16) 0) (length pre) int16
  = pre ++ flat_map le16 int16.
Proof.
  induction int16 as [|v int16 IH]; intros pre; simpl.
  - reflexivity.
  - replace (length int16 + S (length int16 + 0))%nat
      with (S (2 * length int16)) by lia.
    simpl replicate.
    rewrite setInt16_at_end.
    replace (length pre + 2)%nat with (length (pre ++ le16 v))
      by (rewrite length_app; simpl; lia).
    replace (length int16 + (length int16 + 0))%nat with (2 * length int16)%nat by lia.
    rewrite IH. now rewrite <- app_assoc.
Qed.

Lemma length_le16 v : length (le16 v) = 2%nat.
Proof. reflexivity. Qed.

Lemma length_flat_map_le16 (l : list Z) : length (flat_map le16 l) = (2 * length l)%nat.
Proof.
  induction l as [|v l IH]; simpl; [reflexivity|]. rewrite IH. lia.
Qed.

Lemma length_wav_header d r : length (wav_header d r) = 44%nat.
Proof. reflexivity. Qed.

(** The container is the header followed by the samples, two bytes each. *)
Lemma encodeWav_layout (int16 : list Z) (sampleRate : Z) :
  encodeWav int16 sampleRate
  = wav_header (Z.of_nat (length int16) * 2) sampleRate ++ flat_map le16 int16.
Proof.
  unfold encodeWav.
  replace (Z.to_nat (Z.of_nat (length int16) * 2)) with (2 * length int16)%nat by lia.
  rewrite replicate_add.
  set (body := replicate (2 * length int16) 0).
  set (d := Z.of_nat (length int16) * 2).
  rewrite writeString_app_l by (simpl; lia).
  rewrite setUint32_app_l by (rewrite !length_writeString; simpl; lia).
  rewrite writeString_app_l by (rewrite ?length_writeString; simpl; lia).
  rewrite writeString_app_l by (rewrite ?length_writeString; simpl; lia).
  rewrite setUint32_app_l by (rewrite ?length_writeString; simpl; lia).
  rewrite writeString_app_l by (rewrite ?length_writeString; simpl; lia).
  rewrite writeString_app_l by (rewrite ?length_writeString; simpl; lia).
  rewrite setUint32_app_l by (rewrite ?length_writeString; simpl; lia).
  rewrite setUint32_app_l by (rewrite ?length_writeString; simpl; lia).
  rewrite setUint16_app_l by (rewrite ?length_writeString; simpl; lia).
  rewrite setUint16_app_l by (rewrite ?length_writeString; simpl; lia).
  rewrite writeString_app_l by (rewrite ?length_writeString; simpl; lia).
  rewrite setUint32_app_l by (rewrite ?length_writeString; simpl; lia).
  match goal with |- write_samples (?h ++ body) 44 int16 = _ =>
    assert (Hh : h = wav_header d sampleRate) by reflexivity
  end.
  rewrite Hh.
  replace 44%nat with (length (wav_header d sampleRate)) at 1 by reflexivity.
  apply write_samples_at_end.
Qed.

Lemma le32_value (u : Z) :
  0 <= u < 4294967296 ->
  u mod 256 + 256 * (Z.shiftr u 8 mod 256) + 65536 * (Z.shiftr u 16 mod 256)
  + 16777216 * (Z.shiftr u 24 mod 256) = u.
Proof.
  intros H. rewrite !Z.shiftr_div_pow2 by lia.
  change (2 ^ 8) with 256. change (2 ^ 16) with 65536. change (2 ^ 24) with 16777216.
  Z.div_mod_to_equations. lia.
Qed.

Lemma le16_value (u : Z) :
  0 <= u < 65536 -> u mod 256 + 256 * (Z.shiftr u 8 mod 256) = u.
Proof.
  intros H. rewrite !Z.shiftr_div_pow2 by lia.
  change (2 ^ 8) with 256.
  Z.div_mod_to_equations. lia.
Qed.

Lemma getUint32_header (d r : Z) (payload : list Z) (off : nat) :
  (off + 3 < 44)%nat ->
  getUint32 (wav_header d r ++ payload) off = getUint32 (wav_header d r) off.
Proof.
  intros H. unfold getUint32.
  rewrite !lookup_total_app_l by (rewrite length_wav_header; lia).
  reflexivity.
Qed.

Lemma getUint16_header (d r : Z) (payload : list Z) (off : nat) :
  (off + 1 < 44)%nat ->
  getUint16 (wav_header d r ++ payload) off = getUint16 (wav_header d r) off.
Proof.
  intros H. unfold getUint16.
  rewrite !lookup_total_app_l by (rewrite length_wav_header; lia).
  reflexivity.
Qed.

(** The data-size field is 32 bits wide: it holds the payload size modulo
    2^32. *)
Lemma encodeWav_dataSize_field (int16 : list Z) (sampleRate : Z) :
  getUint32 (encodeWav int16 sampleRate) 40
  = (Z.of_nat (length int16) * 2) mod 4294967296.
Proof.
  rewrite encodeWav_layout, getUint32_header by lia.
  set (d := Z.of_nat (length int16) * 2).
  change (getUint32 (wav_header d sampleRate) 40)
    with (let u := d mod 4294967296 in
          u mod 256 + 256 * (Z.shiftr u 8 mod 256) + 65536 * (Z.shiftr u 16 mod 256)
          + 16777216 * (Z.shiftr u 24 mod 256)).
  cbv zeta. apply le32_value. apply Z.mod_pos_bound. lia.
Qed.

Lemma encodeWav_riffSize_field (int16 : list Z) (sampleRate : Z) :
  getUint32 (encodeWav int16 sampleRate) 4
  = (36 + Z.of_nat (length int16) * 2) mod 4294967296.
Proof.
  rewrite encodeWav_layout, getUint32_header by lia.
  set (d := Z.of_nat (length int16) * 2).
  change (getUint32 (wav_header d sampleRate) 4)
    with (let u := (36 + d) mod 4294967296 in
          u mod 256 + 256 * (Z.shiftr u 8 mod 256) + 65536 * (Z.shiftr u 16 mod 256)
          + 16777216 * (Z.shiftr u 24 mod 256)).
  cbv zeta. apply le32_value. apply Z.mod_pos_bound. lia.
Qed.

Lemma getInt16_le16 (v : Z) (pre rest : list Z) :
  -32768 <= v <= 32767 ->
  getInt16 (pre ++ le16 v ++ rest) (length pre) = v.
Proof.
  intros H. unfold getInt16, getUint16.
  rewrite (lookup_total_app_r pre _ (length pre)) by lia.
  rewrite (lookup_total_app_r pre _ (length pre + 1)) by lia.
  rewrite Nat.sub_diag.
  replace (length pre + 1 - length pre)%nat with 1%nat by lia.
  unfold le16. cbn [app lookup_total list_lookup_total].
  rewrite le16_value by (apply Z.mod_pos_bound; lia).
  destruct (Z.ltb_spec (v mod 65536) 32768) as [L|L];
    Z.div_mod_to_equations; lia.
Qed.

Lemma getInt16_payload (int16 : list Z) : forall (pre : list Z) (i : nat) (v : Z),
  Forall (fun v => -32768 <= v <= 32767) int16 ->
  int16 !! i = Some v ->
  getInt16 (pre ++ flat_map le16 int16) (length pre + 2 * i) = v.
Proof.
  induction int16 as [|x int16 IH]; intros pre i v Hr Hi; [discriminate|].
  apply Forall_cons in Hr as [Hx Hr].
  change (flat_map le16 (x :: int16)) with (le16 x ++ flat_map le16 int16).
  destruct i as [|i]; simpl in Hi.
  - injection Hi as ->. rewrite Nat.mul_0_r, Nat.add_0_r.
    now apply getInt16_le16.
  - rewrite app_assoc.
    replace (length pre + 2 * S i)%nat with (length (pre ++ le16 x) + 2 * i)%nat
      by (rewrite length_app, length_le16; lia).
    now apply IH.
Qed.

Lemma floatTo16BitPCM_range (src : list Q) :
  Forall (fun v => -32768 <= v <= 32767) (floatTo16BitPCM src).
Proof.
  unfold floatTo16BitPCM. apply Forall_forall. intros v Hv.
  apply list_elem_of_In, in_map_iff in Hv as (x & <- & _).
  apply pcm16_of_spec.
Qed.

Lemma decode_encode (int16 : list Z) (sampleRate : Z) :
  Forall (fun v => -32768 <= v <= 32767) int16 ->
  decode_samples (encodeWav int16 sampleRate) (length int16) = int16.
Proof.
  intros Hr. rewrite encodeWav_layout.
  pose proof (length_wav_header (Z.of_nat (length int16) * 2) sampleRate) as Hh.
  revert Hh. generalize (wav_header (Z.of_nat (length int16) * 2) sampleRate).
  intros h Hh.
  apply list_eq. intros i. unfold decode_samples.
  rewrite list_lookup_fmap.
  destruct (int16 !! i) as [v|] eqn:E.
  - assert (Hi : (i < length int16)%nat) by (eapply lookup_lt_Some; eauto).
    rewrite lookup_seq_lt by exact Hi.
    cbn [fmap option_fmap option_map]. rewrite Nat.add_0_l.
    f_equal. rewrite <- Hh.
    now apply getInt16_payload.
  - apply lookup_ge_None in E.
    rewrite lookup_seq_ge by exact E. reflexivity.
Qed.

(** C9 (amended).  [floatTo16BitPCM] clamps every sample to [-1, 1], scales
    a negative one by 32768 and any other by 32767, and truncates to a
    16-bit integer without wrapping.  [encodeWav] of the [n] integers is
    [44 + 2n] bytes: the RIFF/WAVE header (format tag 1, 1 channel, rate
    16000, byte rate 32000, block alignment 2, 16 bits per sample, "data"),
    whose 32-bit data-size field holds [2n] modulo 2^32, then the samples as
    little-endian 16-bit integers, which read back as written. *)
Theorem C9_pcm_wav_container (src : list Q) :
  let n := length src in
  let pcm := floatTo16BitPCM src in
  let wav := encodeWav pcm 16000 in
  Forall2 (fun x v =>
             ((-1 <= clamp1 x)%Q /\ (clamp1 x <= 1)%Q)
             /\ v = Qtrunc (if Qlt_bool (clamp1 x) 0 then clamp1 x * 32768
                            else clamp1 x * 32767)%Q
             /\ -32768 <= v <= 32767) src pcm
  /\ length wav = (44 + 2 * n)%nat
  /\ take 44 wav = wav_header (Z.of_nat n * 2) 16000
  /\ take 4 wav = map Z.of_N str_RIFF
  /\ take 4 (drop 8 wav) = map Z.of_N str_WAVE
  /\ take 4 (drop 12 wav) = map Z.of_N str_fmt
  /\ getUint32 wav 16 = 16
  /\ getUint16 wav 20 = 1
  /\ getUint16 wav 22 = 1
  /\ getUint32 wav 24 = 16000
  /\ getUint32 wav 28 = 32000
  /\ getUint16 wav 32 = 2
  /\ getUint16 wav 34 = 16
  /\ take 4 (drop 36 wav) = map Z.of_N str_data
  /\ getUint32 wav 40 = (Z.of_nat n * 2) mod 4294967296
  /\ drop 44 wav = flat_map le16 pcm
  /\ decode_samples wav n = pcm.
Proof.
  intros n pcm wav.
  assert (Hn : length pcm = n) by apply length_map.
  assert (L : wav = wav_header (Z.of_nat n * 2) 16000 ++ flat_map le16 pcm).
  { subst wav. rewrite encodeWav_layout, Hn. reflexivity. }
  split.
  { subst pcm. unfold floatTo16BitPCM. clear.
    induction src as [|x src IH]; simpl; constructor; [|exact IH].
    split; [apply clamp1_range|]. apply pcm16_of_spec. }
  split.
  { rewrite L, length_app, length_wav_header, length_flat_map_le16, Hn. reflexivity. }
  split.
  { rewrite L. apply take_app_length'. reflexivity. }
  split; [rewrite L; reflexivity|].
  split; [rewrite L; reflexivity|].
  split; [rewrite L; reflexivity|].
  split; [rewrite L, getUint32_header by lia; reflexivity|].
  split; [rewrite L, getUint16_header by lia; reflexivity|].
  split; [rewrite L, getUint16_header by lia; reflexivity|].
  split; [rewrite L, getUint32_header by lia; reflexivity|].
  split; [rewrite L, getUint32_header by lia; reflexivity|].
  split; [rewrite L, getUint16_header by lia; reflexivity|].
  split; [rewrite L, getUint16_header by lia; reflexivity|].
  split; [rewrite L; reflexivity|].
  split.
  { subst wav. rewrite encodeWav_dataSize_field, Hn. reflexivity. }
  split.
  { rewrite L. apply drop_app_length'. reflexivity. }
  subst wav. rewrite <- Hn. apply decode_encode, floatTo16BitPCM_range.
Qed.

(** The claim as stated fails for a buffer of 2^31 samples: the payload is
    2^32 bytes and the 32-bit data-size field reads 0. *)
Lemma C9_size_field_wraps :
  getUint32 (encodeWav (floatTo16BitPCM (replicate (Z.to_nat 2147483648) 0%Q)) 16000) 40
  <> 2 * Z.of_nat (length (replicate (Z.to_nat 2147483648) 0%Q)).
Proof.
  rewrite encodeWav_dataSize_field.
  unfold floatTo16BitPCM. rewrite length_map, length_replicate.
  rewrite Z2Nat.id by lia.
  discriminate.
Qed.

(* ===================================================================== *)
(** ** Resampler *)
(* ===================================================================== *)

Lemma samples_at_app keep : forall (l1 l2 : list Q) start,
  samples_at keep start (l1 ++ l2)
  = samples_at keep start l1 ++ samples_at keep (start + length l1) l2.
Proof.
  induction l1 as [|x l1 IH]; intros l2 start; simpl.
  - now rewrite Nat.add_0_r.
  - rewrite IH. replace (S start + length l1)%nat with (start + S (length l1))%nat by lia.
    now destruct (keep start).
Qed.

Lemma samples_at_none keep : forall (l : list Q) start,
  (forall j, (j < length l)%nat -> keep (start + j)%nat = false) ->
  samples_at keep start l = [].
Proof.
  induction l as [|x l IH]; intros start H; simpl; [reflexivity|].
  rewrite <- (Nat.add_0_r start) at 1. rewrite (H 0%nat) by (simpl; lia).
  apply IH. intros j Hj. replace (S start + j)%nat with (start + S j)%nat by lia.
  apply H. simpl. lia.
Qed.

Lemma samples_at_all keep : forall (l : list Q) start,
  (forall j, (j < length l)%nat -> keep (start + j)%nat = true) ->
  samples_at keep start l = l.
Proof.
  induction l as [|x l IH]; intros start H; simpl; [reflexivity|].
  rewrite <- (Nat.add_0_r start) at 1. rewrite (H 0%nat) by (simpl; lia).
  f_equal. apply IH. intros j Hj.
  replace (S start + j)%nat with (start + S j)%nat by lia.
  apply H. simpl. lia.
Qed.

(** What the inner loop takes: the longest run of samples from [pos] whose
    positions are below [nextPos]. *)
Lemma gather_spec (nextPos : Q) : forall (rest : list Q) (pos : nat) (sum : Q) (count : nat),
  exists taken rest',
    gather rest pos nextPos sum count
    = (fold_left fadd taken sum, (count + length taken)%nat,
       (pos + length taken)%nat, rest')
    /\ rest = taken ++ rest'
    /\ (forall j, (j < length taken)%nat -> (Qnat (pos + j) < nextPos)%Q)
    /\ (rest' = [] \/ (nextPos <= Qnat (pos + length taken))%Q).
Proof.
  induction rest as [|x rest IH]; intros pos sum count; simpl.
  - exists [], []. simpl. rewrite !Nat.add_0_r.
    repeat split; auto. intros j Hj. lia.
  - destruct (Qlt_bool (Qnat pos) nextPos) eqn:E.
    + destruct (IH (S pos) (fadd sum x) (S count)) as (taken & rest' & Hg & Hr & Ht & Hs).
      exists (x :: taken), rest'. simpl.
      rewrite Hg.
      replace (S count + length taken)%nat with (count + S (length taken))%nat by lia.
      replace (S pos + length taken)%nat with (pos + S (length taken))%nat in * by lia.
      repeat split; auto.
      * now rewrite Hr.
      * intros [|j] Hj.
        -- rewrite Nat.add_0_r. now apply Qlt_bool_iff.
        -- replace (pos + S j)%nat with (S pos + j)%nat by lia. apply Ht. lia.
    + exists [], (x :: rest). simpl. rewrite !Nat.add_0_r.
      repeat split; auto.
      * intros j Hj. lia.
      * right. now apply Qlt_bool_false_iff.
Qed.

Lemma Qnat_succ_ratio (ratio : Q) (idx : nat) :
  (0 <= ratio)%Q -> (Qnat idx * ratio <= Qnat (idx + 1) * ratio)%Q.
Proof.
  intros H. apply Qmult_le_compat_r; [|exact H].
  apply Qnat_le. lia.
Qed.

(** The bounds of the groups, products of numbers, do not decrease. *)
Lemma bound_succ (ratio : Q) (idx : nat) :
  (0 <= ratio)%Q -> (fl64 (Qnat idx * ratio) <= fl64 (Qnat (idx + 1) * ratio))%Q.
Proof.
  intros H. apply fl64_le. now apply Qnat_succ_ratio.
Qed.

Lemma bound_0 (ratio : Q) : fl64 (Qnat 0 * ratio) == 0.
Proof.
  assert (E : Qnat 0 * ratio == 0) by (unfold Qnat; simpl; ring).
  rewrite E. reflexivity.
Qed.

(** The loop invariant: the cursor has consumed exactly the positions below
    the start of group [idx]. *)
Lemma resample_loop_spec (ratio : Q) (buf : list Q) :
  (0 <= ratio)%Q ->
  forall (todo idx : nat) (pre rest : list Q),
    buf = pre ++ rest ->
    (forall p, (p < length pre)%nat -> (Qnat p < fl64 (Qnat idx * ratio))%Q) ->
    (rest = [] \/ (fl64 (Qnat idx * ratio) <= Qnat (length pre))%Q) ->
    resample_loop todo idx ratio rest (length pre)
    = map (fun i => mean (group ratio buf i)) (seq idx todo).
Proof.
  intros Hratio.
  induction todo as [|todo IH]; intros idx pre rest Hbuf Hpre Hcur; simpl.
  - reflexivity.
  - destruct (gather_spec (fl64 (Qnat (idx + 1) * ratio)) rest (length pre) 0%Q 0%nat)
      as (taken & rest' & Hg & Hr & Ht & Hs).
    rewrite Hg. simpl.
    assert (G : group ratio buf idx = taken).
    { unfold group. rewrite Hbuf, Hr, !samples_at_app. simpl.
      rewrite samples_at_none, samples_at_all, samples_at_none.
      - now rewrite app_nil_r.
      - intros j Hj. unfold in_group.
        apply andb_false_iff. right. apply Qlt_bool_false_iff.
        destruct Hs as [-> | Hs]; [simpl in Hj; lia|].
        eapply Qle_trans; [exact Hs|]. apply Qnat_le. lia.
      - intros j Hj. unfold in_group.
        apply andb_true_iff. split.
        + apply Qle_bool_iff.
          destruct Hcur as [-> | Hcur].
          * destruct taken; [simpl in Hj; lia | discriminate].
          * eapply Qle_trans; [exact Hcur|]. apply Qnat_le. lia.
        + apply Qlt_bool_iff. apply Ht. exact Hj.
      - intros j Hj. unfold in_group.
        apply andb_false_iff. left. apply Qle_bool_false_iff.
        apply Hpre. lia. }
    rewrite G. f_equal.
    replace (length pre + length taken)%nat with (length (pre ++ taken))
      by (now rewrite length_app).
    apply IH.
    + now rewrite <- app_assoc, <- Hr.
    + intros p Hp. rewrite length_app in Hp.
      destruct (Nat.lt_ge_cases p (length pre)) as [L|L].
      * eapply Qlt_le_trans; [apply Hpre; exact L|].
        replace (S idx) with (idx + 1)%nat by lia.
        now apply bound_succ.
      * replace (S idx) with (idx + 1)%nat by lia.
        replace p with (length pre + (p - length pre))%nat by lia.
        apply Ht. lia.
    + destruct Hs as [Hs | Hs]; [now left | right].
      replace (S idx) with (idx + 1)%nat by lia.
      now rewrite length_app.
Qed.

(** A rate of 1 Hz or more has a positive ratio to 16000, as a number. *)
Lemma ratio_positive (inRate : Q) : (1 <= inRate)%Q -> (0 < fl64 (inRate / 16000))%Q.
Proof.
  intros H. apply Qlt_le_trans with (fl64 (1 / 16000)).
  - vm_compute. reflexivity.
  - apply fl64_le. apply Qmult_le_compat_r; [exact H | discriminate].
Qed.



(** At the rates of common hardware the 2048 samples of a callback give the
    length [floor (N * 16000 / Rin)]. *)
Lemma downsample_length_of_a_callback :
  (length <$> downsampleTo16k (replicate 2048 0%Q) 44100 = Some 743%nat
   /\ Z.to_nat (Qfloor (Qnat 2048 * 16000 / 44100)) = 743%nat)
  /\ (length <$> downsampleTo16k (replicate 2048 0%Q) 48000 = Some 682%nat
      /\ Z.to_nat (Qfloor (Qnat 2048 * 16000 / 48000)) = 682%nat).
Proof.
  split; split; vm_compute; reflexivity.
Qed.

(* ===================================================================== *)
(** ** Segmenter: the maximum-duration cut *)
(* ===================================================================== *)

Lemma vad_run_app (o : Opts) : forall (fs1 fs2 : list Frame) (st : SegState),
  vad_run o st (fs1 ++ fs2)
  = let '(st1, e1) := vad_run o st fs1 in
    let '(st2, e2) := vad_run o st1 fs2 in
    (st2, e1 ++ e2).
Proof.
  induction fs1 as [|f fs1 IH]; intros fs2 st; simpl.
  - now destruct (vad_run o st fs2).
  - destruct (vad_step o st f) as [st1 em].
    rewrite IH.
    destruct (vad_run o st1 fs1) as [st2 e1].
    destruct (vad_run o st2 fs2) as [st3 e2].
    now destruct em.
Qed.

Lemma add_ms_is_f64 (acc : Q) (f : Frame) : is_f64 (add_ms acc f).
Proof. apply fadd_is_f64. Qed.

Lemma add_ms_ge (acc : Q) (f : Frame) : is_f64 acc -> (acc <= add_ms acc f)%Q.
Proof. intros H. apply fadd_ge_l; [exact H | apply frameMs_nonneg]. Qed.

Lemma add_ms_mono (a b : Q) (f : Frame) : (a <= b)%Q -> (add_ms a f <= add_ms b f)%Q.
Proof. apply fadd_le_mono. Qed.

Lemma add_ms_nonneg (acc : Q) (f : Frame) : (0 <= acc)%Q -> (0 <= add_ms acc f)%Q.
Proof. intros H. apply fadd_nonneg; [exact H | apply frameMs_nonneg]. Qed.

Lemma fold_add_ms_is_f64 (fs : list Frame) : forall acc,
  is_f64 acc -> is_f64 (fold_left add_ms fs acc).
Proof.
  induction fs as [|f fs IH]; intros acc H; simpl; [exact H|].
  apply IH, add_ms_is_f64.
Qed.

(** The accumulated duration does not decrease, rounded as it is. *)
Lemma add_ms_le (fs : list Frame) : forall acc,
  is_f64 acc -> (acc <= fold_left add_ms fs acc)%Q.
Proof.
  induction fs as [|f fs IH]; intros acc H; simpl.
  - apply Qle_refl.
  - eapply Qle_trans; [now apply (add_ms_ge acc f)|].
    apply IH, add_ms_is_f64.
Qed.

Lemma speaking_over_nil (st : SegState) :
  speaking st = true -> silenceMs st = 0%Q -> speaking_over st [] = st.
Proof.
  destruct st as [fr d s sp v]; simpl; intros -> ->.
  unfold speaking_over; simpl. now rewrite app_nil_r.
Qed.

Lemma speaking_over_cons (st : SegState) (f : Frame) (fs : list Frame) :
  speaking_over st (f :: fs) = speaking_over (speaking_over st [f]) fs.
Proof.
  unfold speaking_over; simpl. now rewrite <- app_assoc.
Qed.

(** A voiced frame that keeps the segment below the maximum is appended. *)
Lemma vad_step_voiced_below_max (o : Opts) (st : SegState) (f : Frame) :
  speaking st = true ->
  voiced o f ->
  (add_ms (segDurMs st) f < maxSegmentMs o)%Q ->
  vad_step o st f = (speaking_over st [f], None).
Proof.
  intros Hs Hv Hd. unfold vad_step. rewrite Hs. simpl.
  apply Qlt_bool_false_iff in Hv. rewrite Hv.
  apply Qle_bool_false_iff in Hd. rewrite Hd.
  reflexivity.
Qed.

(** A voiced frame that takes the segment to the maximum ends it. *)
Lemma vad_step_voiced_at_max (o : Opts) (st : SegState) (f : Frame) :
  speaking st = true ->
  voiced o f ->
  (maxSegmentMs o <= add_ms (segDurMs st) f)%Q ->
  vad_step o st f = (resetSegmentState, Some (snapshot (speaking_over st [f]))).
Proof.
  intros Hs Hv Hd. unfold vad_step. rewrite Hs. simpl.
  apply Qlt_bool_false_iff in Hv. rewrite Hv.
  apply Qle_bool_iff in Hd. rewrite Hd.
  reflexivity.
Qed.

Lemma vad_run_voiced_below_max (o : Opts) : forall (fs : list Frame) (st : SegState),
  speaking st = true ->
  silenceMs st = 0%Q ->
  Forall (voiced o) fs ->
  (fs = [] \/ (fold_left add_ms fs (segDurMs st) < maxSegmentMs o)%Q) ->
  vad_run o st fs = (speaking_over st fs, []).
Proof.
  induction fs as [|f fs IH]; intros st Hs Hz Hv Hd.
  - simpl. now rewrite speaking_over_nil.
  - destruct Hd as [Hd|Hd]; [discriminate|].
    apply Forall_cons in Hv as [Hf Hv].
    simpl in Hd. cbn [vad_run].
    assert (Hf1 : (add_ms (segDurMs st) f < maxSegmentMs o)%Q).
    { eapply Qle_lt_trans; [|exact Hd].
      apply (add_ms_le fs (add_ms (segDurMs st) f)), add_ms_is_f64. }
    rewrite (vad_step_voiced_below_max o st f Hs Hf Hf1).
    rewrite (IH (speaking_over st [f]) eq_refl eq_refl Hv (or_intror Hd)).
    now rewrite <- speaking_over_cons.
Qed.

Lemma vad_step_start (o : Opts) (f : Frame) :
  (vadGateHigh o <= energy f)%Q ->
  vad_step o resetSegmentState f = (speaking_over resetSegmentState [f], None).
Proof.
  intros H. unfold vad_step. simpl.
  apply Qle_bool_iff in H. rewrite H. reflexivity.
Qed.

Lemma total_ms_snoc (fs : list Frame) (f : Frame) :
  total_ms (fs ++ [f]) = add_ms (total_ms fs) f.
Proof.
  unfold total_ms. now rewrite fold_left_app.
Qed.

(** C3 (amended).  Durations are accumulated as the hook accumulates them,
    each sum a number.  From idle, let [f1] reach [vadGateHigh], let the
    frames after it stay at or above [vadGateLow], and let [fk] be the first
    frame after [f1] at which the accumulated duration reaches
    [maxSegmentMs].  Then nothing is finalized before [fk]; at [fk] the
    whole segment is handed to [finalizeSegment] with a duration at or above
    [maxSegmentMs] (and, when [fk] is not the second frame, at most the
    number [maxSegmentMs + frameMs fk]), the segmenter is reset to idle, and
    a next frame [g] that reaches [vadGateHigh] starts a new segment of its
    own. *)
Theorem C3_forced_cut_at_max (o : Opts) (f1 : Frame) (mid : list Frame) (fk g : Frame) :
  (vadGateHigh o <= energy f1)%Q ->
  Forall (voiced o) (mid ++ [fk]) ->
  (mid = [] \/ (total_ms (f1 :: mid) < maxSegmentMs o)%Q) ->
  (maxSegmentMs o <= total_ms (f1 :: mid ++ [fk]))%Q ->
  (vadGateHigh o <= energy g)%Q ->
  let whole := f1 :: mid ++ [fk] in
  let snap := {| snap_frames := map down whole;
                 snap_durMs := total_ms whole;
                 snap_voicedMs := total_ms whole |} in
  vad_run o resetSegmentState (f1 :: mid)
  = (speaking_over resetSegmentState (f1 :: mid), [])
  /\ vad_run o resetSegmentState whole = (resetSegmentState, [snap])
  /\ (maxSegmentMs o <= snap_durMs snap)%Q
  /\ (mid <> [] -> (snap_durMs snap <= fl64 (maxSegmentMs o + frameMs fk))%Q)
  /\ vad_run o resetSegmentState (whole ++ [g])
     = (speaking_over resetSegmentState [g], [snap]).
Proof.
  intros H1 Hv Hbelow Hmax Hg whole snap.
  apply Forall_app in Hv as [Hmid Hk].
  apply Forall_cons in Hk as [Hk _].
  assert (R1 : vad_run o resetSegmentState (f1 :: mid)
               = (speaking_over resetSegmentState (f1 :: mid), [])).
  { cbn [vad_run]. rewrite (vad_step_start o f1 H1).
    assert (Hb : mid = []
                 \/ (fold_left add_ms mid (segDurMs (speaking_over resetSegmentState [f1]))
                     < maxSegmentMs o)%Q).
    { destruct Hbelow as [-> | Hb]; [now left | right; exact Hb]. }
    rewrite (vad_run_voiced_below_max o mid (speaking_over resetSegmentState [f1])
               eq_refl eq_refl Hmid Hb).
    now rewrite <- speaking_over_cons. }
  assert (R2 : vad_run o resetSegmentState whole = (resetSegmentState, [snap])).
  { subst whole. change (f1 :: mid ++ [fk]) with ((f1 :: mid) ++ [fk]).
    rewrite vad_run_app, R1. cbn [vad_run].
    rewrite vad_step_voiced_at_max; auto.
    - unfold snapshot, speaking_over, snap. simpl.
      rewrite ?map_app, <- ?app_assoc. simpl.
      unfold total_ms. simpl. rewrite ?fold_left_app. reflexivity.
    - simpl segDurMs. unfold total_ms in Hmax. simpl in Hmax.
      rewrite fold_left_app in Hmax. exact Hmax. }
  split; [exact R1|]. split; [exact R2|]. split; [exact Hmax|]. split.
  - intros Hne. destruct Hbelow as [E | Hb]; [contradiction|].
    subst snap whole. simpl snap_durMs.
    change (f1 :: mid ++ [fk]) with ((f1 :: mid) ++ [fk]).
    rewrite total_ms_snoc. unfold add_ms, fadd. apply fl64_le.
    apply Qplus_le_l. now apply Qlt_le_weak.
  - rewrite vad_run_app, R2. cbn [vad_run].
    rewrite (vad_step_start o g Hg). reflexivity.
Qed.

Lemma steady_frameMs (x : Q) : frameMs (steady x) == 128.
Proof. vm_compute. reflexivity. Qed.

(** The claim as stated fails twice with the default options, on 100
    steady frames of 128 ms (12.8 s).  At energy 0.05 every segment is cut
    at 5120 ms, never at or before 5000 ms.  At energy 0.005, which is above
    [vadGateLow] and below [vadGateHigh], no segment ever starts. *)
Lemma C3_cut_is_late_or_absent :
  let o := default_opts [] in
  (Forall (voiced o) (replicate 100 (steady (1 # 20)))
   /\ (maxSegmentMs o < total_ms (replicate 100 (steady (1 # 20))))%Q
   /\ map snap_durMs (snd (vad_run o resetSegmentState (replicate 100 (steady (1 # 20)))))
      = [total_ms (replicate 40 (steady (1 # 20))); total_ms (replicate 40 (steady (1 # 20)))]
   /\ total_ms (replicate 40 (steady (1 # 20))) == 5120
   /\ cut_within_max o (replicate 100 (steady (1 # 20))) = false)
  /\ (Forall (voiced o) (replicate 100 (steady (1 # 200)))
      /\ (maxSegmentMs o < total_ms (replicate 100 (steady (1 # 200))))%Q
      /\ vad_run o resetSegmentState (replicate 100 (steady (1 # 200)))
         = (resetSegmentState, [])
      /\ cut_within_max o (replicate 100 (steady (1 # 200))) = false).
Proof.
  cbv zeta. split; [split; [|split; [|split; [|split]]] | split; [|split; [|split]]].
  - apply Forall_forall. intros f Hf. apply elem_of_replicate in Hf as [-> _].
    unfold voiced. simpl. discriminate.
  - vm_compute. reflexivity.
  - vm_compute. reflexivity.
  - vm_compute. reflexivity.
  - vm_compute. reflexivity.
  - apply Forall_forall. intros f Hf. apply elem_of_replicate in Hf as [-> _].
    unfold voiced. simpl. discriminate.
  - vm_compute. reflexivity.
  - vm_compute. reflexivity.
  - vm_compute. reflexivity.
Qed.

(** Durations are the numbers the hook holds.  Two frames of 1001 samples
    last 125.125 ms, and the sum the hook keeps for them is the number just
    below; with a maximum of 125.125 ms the segment is not cut at the second
    frame but at the third. *)
Lemma durations_are_rounded :
  (Qnat (1001 + 1001) / 16000 * 1000 == 125125 # 1000)%Q
  /\ total_ms [frame_of 1001; frame_of 1001] = (8804889115230207 # 70368744177664)%Q
  /\ (total_ms [frame_of 1001; frame_of 1001] < maxSegmentMs tight_opts)%Q
  /\ snd (vad_run tight_opts resetSegmentState (replicate 2 (frame_of 1001))) = []
  /\ map (fun s => length (snap_frames s))
         (snd (vad_run tight_opts resetSegmentState (replicate 3 (frame_of 1001))))
     = [3%nat].
Proof.
  split; [|split; [|split; [|split]]]; vm_compute; reflexivity.
Qed.

(* ===================================================================== *)
(** ** The session: what an event does to one task *)
(* ===================================================================== *)

Lemma callbacks_of_app (k k' : nat) (l : list (nat * Callback)) (cbs : list Callback)
    (ts : list Task) (r : option nat) :
  callbacks_of k {| tasks := ts; reqCtrl := r; log := l ++ map (pair k') cbs |}
  = map snd (List.filter (fun e => Nat.eqb (fst e) k) l)
    ++ (if Nat.eqb k' k then cbs else []).
Proof.
  unfold callbacks_of. simpl.
  rewrite List.filter_app, map_app. f_equal.
  induction cbs as [|cb cbs IH]; simpl.
  - now destruct (Nat.eqb k' k).
  - destruct (Nat.eqb k' k) eqn:E; simpl; [f_equal|]; exact IH.
Qed.

Lemma abort_current_lookup (s : Session) (k : nat) (t : Task) :
  tasks s !! k = Some t ->
  abort_current s !! k = Some t \/ abort_current s !! k = Some (with_abort t).
Proof.
  intros H. unfold abort_current.
  destruct (reqCtrl s) as [j|]; [|now left].
  destruct (Nat.eq_dec j k) as [->|NE].
  - right. rewrite list_lookup_alter_eq, H. reflexivity.
  - left. now rewrite list_lookup_alter_ne.
Qed.

Lemma length_abort_current (s : Session) : length (abort_current s) = length (tasks s).
Proof.
  unfold abort_current. destruct (reqCtrl s); [apply length_alter | reflexivity].
Qed.

Lemma finalizeSegment_log (o : Opts) (snap : Snapshot) (s : Session) :
  log (finalizeSegment o snap s) = log s.
Proof.
  unfold finalizeSegment. now destruct (gate o snap).
Qed.

Lemma finalizeSegment_lookup (o : Opts) (snap : Snapshot) (s : Session) (k : nat) (t : Task) :
  tasks s !! k = Some t ->
  tasks (finalizeSegment o snap s) !! k = Some t
  \/ tasks (finalizeSegment o snap s) !! k = Some (with_abort t).
Proof.
  intros H. unfold finalizeSegment.
  destruct (gate o snap); try (now left). simpl.
  pose proof (lookup_lt_Some _ _ _ H) as Hk.
  rewrite lookup_app_l by (now rewrite length_abort_current).
  now apply abort_current_lookup.
Qed.

(** One event, seen from task [k]: the task is left alone, or its signal is
    aborted, or the promise it awaits settles and its callbacks are logged. *)
Lemma step_task (o : Opts) (net : Network) (sys : System) (e : Event) (k : nat) (t : Task) :
  tasks (sess sys) !! k = Some t ->
  exists t' cbs,
    tasks (sess (step o net sys e)) !! k = Some t'
    /\ callbacks_of k (sess (step o net sys e)) = callbacks_of k (sess sys) ++ cbs
    /\ ((t' = t /\ cbs = [])
        \/ (t' = with_abort t /\ cbs = [])
        \/ (exists w, settle_task o (net k) t w = (t', cbs))).
Proof.
  intros H. destruct e as [f|k' w|]; simpl.
  - destruct (vad_step o (seg sys) f) as [st [snap|]]; simpl.
    + destruct (finalizeSegment_lookup o snap (sess sys) k t H) as [L|L].
      * exists t, []. unfold callbacks_of. rewrite finalizeSegment_log, app_nil_r.
        split; [exact L|]. split; [reflexivity|]. left. auto.
      * exists (with_abort t), [].
        unfold callbacks_of. rewrite finalizeSegment_log, app_nil_r.
        split; [exact L|]. split; [reflexivity|]. right. left. auto.
    + exists t, []. rewrite app_nil_r.
      split; [exact H|]. split; [reflexivity|]. left. auto.
  - unfold settle.
    destruct (Nat.eq_dec k' k) as [->|NE].
    + rewrite H. destruct (settle_task o (net k) t w) as [t' cbs] eqn:E.
      exists t', cbs. simpl.
      rewrite list_lookup_insert_eq by (eapply lookup_lt_Some; eauto).
      rewrite callbacks_of_app, Nat.eqb_refl.
      split; [reflexivity|]. split; [reflexivity|]. right. right. now exists w.
    + exists t, []. rewrite app_nil_r.
      destruct (tasks (sess sys) !! k') as [t0|] eqn:E0;
        [|split; [exact H|]; split; [reflexivity|]; left; auto].
      destruct (settle_task o (net k') t0 w) as [t' cbs]. simpl.
      rewrite list_lookup_insert_ne by exact NE.
      rewrite callbacks_of_app.
      apply Nat.eqb_neq in NE. rewrite NE, app_nil_r.
      split; [exact H|]. split; [reflexivity|]. left. auto.
  - destruct (abort_current_lookup (sess sys) k t H) as [L|L].
    + exists t, []. rewrite app_nil_r.
      split; [exact L|]. split; [reflexivity|]. left. auto.
    + exists (with_abort t), []. rewrite app_nil_r.
      split; [exact L|]. split; [reflexivity|]. right. left. auto.
Qed.

(** Such a task never makes a callback again, whatever events follow. *)
Lemma run_quiet (o : Opts) (net : Network) (k : nat) (P : Task -> Prop) :
  quiet o (net k) P ->
  forall (es : list Event) (sys : System) (t : Task),
    tasks (sess sys) !! k = Some t ->
    P t ->
    exists t',
      tasks (sess (run o net sys es)) !! k = Some t'
      /\ P t'
      /\ callbacks_of k (sess (run o net sys es)) = callbacks_of k (sess sys).
Proof.
  intros [Qa Qs]. unfold run.
  induction es as [|e es IH]; intros sys t Ht HP; simpl.
  - exists t. auto.
  - destruct (step_task o net sys e k t Ht) as (t1 & cbs & L1 & C1 & Hcase).
    assert (P t1 /\ cbs = []) as [HP1 ->].
    { destruct Hcase as [[-> ->] | [[-> ->] | [w Hw]]]; auto.
      destruct (Qs t w HP) as [A B]. rewrite Hw in A, B. auto. }
    destruct (IH (step o net sys e) t1 L1 HP1) as (t' & L' & HP' & C').
    exists t'. split; [exact L'|]. split; [exact HP'|].
    rewrite C', C1. apply app_nil_r.
Qed.

(** Callbacks are made only when [finalizeSegment] returns. *)
Lemma settle_task_callbacks (o : Opts) answers (t : Task) (w : nat) :
  snd (settle_task o answers t w) <> [] ->
  phase (fst (settle_task o answers t w)) = Finished.
Proof.
  unfold settle_task, deliver.
  destruct (phase t) as [c|tr p|] eqn:Ph.
  - destruct (call_step 2 (aborted t) (answers Transcribe) c) as [c'|text|e]; simpl.
    + congruence.
    + destruct (truthy (trimmed_text text)); simpl; [|congruence].
      destruct (forallb is_exited (workers (start_pool o))); simpl; congruence.
    + reflexivity.
  - destruct (forallb is_exited _); simpl; congruence.
  - simpl. congruence.
Qed.

Lemma finished_is_quiet (o : Opts) answers : quiet o answers (fun t => phase t = Finished).
Proof.
  split.
  - intros t H. exact H.
  - intros t w H. unfold settle_task. rewrite H. auto.
Qed.

Lemma step_log_of_finished (o : Opts) (net : Network) (sys : System) (e : Event) :
  log_of_finished (sess sys) -> log_of_finished (sess (step o net sys e)).
Proof.
  intros Inv k cb Hin.
  assert (Hold : In (k, cb) (log (sess sys)) ->
                 exists t, tasks (sess (step o net sys e)) !! k = Some t
                           /\ phase t = Finished).
  { intros Hl. destruct (Inv k cb Hl) as (t & Ht & Hf).
    destruct (step_task o net sys e k t Ht) as (t1 & cbs & L1 & _ & Hcase).
    exists t1. split; [exact L1|].
    destruct Hcase as [[-> _] | [[-> _] | [w Hw]]]; auto.
    unfold settle_task in Hw. rewrite Hf in Hw. injection Hw as <- _. exact Hf. }
  destruct e as [f|k' w|]; simpl in Hin.
  - apply Hold. destruct (vad_step o (seg sys) f) as [st [snap|]]; simpl in Hin;
      [now rewrite finalizeSegment_log in Hin | exact Hin].
  - unfold settle in Hin.
    destruct (tasks (sess sys) !! k') as [t0|] eqn:E0; [|now apply Hold].
    destruct (settle_task o (net k') t0 w) as [t' cbs] eqn:E. simpl in Hin.
    apply in_app_or in Hin as [Hin|Hin]; [now apply Hold|].
    apply in_map_iff in Hin as (cb' & [= <- <-] & Hcb).
    exists t'. simpl. unfold settle. rewrite E0, E. simpl.
    split; [apply list_lookup_insert_eq; eapply lookup_lt_Some; eauto|].
    pose proof (settle_task_callbacks o (net k') t0 w) as Hc.
    rewrite E in Hc. simpl in Hc. apply Hc. intros ->. contradiction.
  - now apply Hold.
Qed.

Lemma reachable_log_of_finished (o : Opts) (net : Network) (es : list Event) :
  log_of_finished (sess (run o net initial es)).
Proof.
  unfold run.
  assert (G : forall sys, log_of_finished (sess sys) ->
                log_of_finished (sess (fold_left (step o net) es sys))).
  { induction es as [|e es IH]; intros sys H; simpl; [exact H|].
    apply IH. now apply step_log_of_finished. }
  apply G. intros k cb [].
Qed.

Lemma unfinished_has_no_callbacks (s : Session) (k : nat) (t : Task) :
  log_of_finished s ->
  tasks s !! k = Some t ->
  phase t <> Finished ->
  callbacks_of k s = [].
Proof.
  intros Inv Ht Hp. unfold callbacks_of.
  destruct (List.filter _ (log s)) as [|[k' cb] l] eqn:E; [reflexivity|].
  exfalso.
  assert (Hin : In (k', cb) (List.filter (fun e => Nat.eqb (fst e) k) (log s)))
    by (rewrite E; now left).
  apply filter_In in Hin as [Hin Hk]. simpl in Hk. apply Nat.eqb_eq in Hk as ->.
  destruct (Inv k cb Hin) as (t' & Ht' & Hf). congruence.
Qed.

(* ===================================================================== *)
(** ** Trimming *)
(* ===================================================================== *)

Lemma trim_start_nil_iff (s : jsstring) : trim_start s = [] <-> blank s = true.
Proof.
  unfold blank. induction s as [|c s IH]; simpl.
  - tauto.
  - destruct (is_js_space c); simpl; [exact IH|]. split; discriminate.
Qed.

Lemma blank_rev (s : jsstring) : blank (rev s) = blank s.
Proof.
  unfold blank. induction s as [|c s IH]; simpl; [reflexivity|].
  rewrite forallb_app, IH. simpl. rewrite andb_true_r. apply andb_comm.
Qed.

Lemma trim_start_blank (s : jsstring) : blank (trim_start s) = true -> blank s = true.
Proof.
  unfold blank. induction s as [|c s IH]; simpl; [auto|].
  destruct (is_js_space c) eqn:E; simpl; [exact IH|].
  rewrite E. discriminate.
Qed.

(** [s.trim()] is empty exactly for a string of white space. *)
Lemma trim_nil_iff (s : jsstring) : trim s = [] <-> blank s = true.
Proof.
  unfold trim, trim_end. split.
  - intros H. apply (f_equal (@rev N)) in H. rewrite rev_involutive in H. simpl in H.
    apply trim_start_nil_iff in H. rewrite blank_rev in H.
    now apply trim_start_blank.
  - intros H. apply trim_start_nil_iff in H. rewrite H. reflexivity.
Qed.

Lemma truthy_false_iff (s : jsstring) : truthy s = false <-> s = [].
Proof. destruct s; simpl; split; congruence. Qed.

(* ===================================================================== *)
(** ** Transcription: empty transcript *)
(* ===================================================================== *)

Lemma phase_of_Some (s : Session) (k : nat) (ph : Phase) :
  phase_of s k = Some ph <-> exists t, tasks s !! k = Some t /\ phase t = ph.
Proof.
  unfold phase_of. destruct (tasks s !! k) as [t|]; simpl; split.
  - intros [= <-]. eauto.
  - intros (t' & [= <-] & <-). reflexivity.
  - discriminate.
  - intros (t' & [=] & _).
Qed.

Lemma aborted_of_Some (s : Session) (k : nat) (b : bool) :
  aborted_of s k = Some b <-> exists t, tasks s !! k = Some t /\ aborted t = b.
Proof.
  unfold aborted_of. destruct (tasks s !! k) as [t|]; simpl; split.
  - intros [= <-]. eauto.
  - intros (t' & [= <-] & <-). reflexivity.
  - discriminate.
  - intros (t' & [=] & _).
Qed.

(** A transcript that trims to nothing ends [finalizeSegment] in silence. *)
Lemma settle_task_blank_transcript (o : Opts) answers (t : Task) (w : nat)
    (text : option jsstring) :
  phase t = Stt (AwaitJson (Json text)) ->
  blank (text_or_empty text) = true ->
  settle_task o answers t w = (with_phase t Finished, []).
Proof.
  intros Hp Hb. unfold settle_task. rewrite Hp. simpl.
  unfold json_result. destruct (aborted t); [reflexivity|].
  unfold trimmed_text. apply trim_nil_iff in Hb. rewrite Hb. reflexivity.
Qed.

(** C7.  In a session reached from the initial one, let task [k] await the
    body of a successful transcription response whose [text] is empty (or
    missing).  When that promise settles, nothing is logged and the task is
    finished; whatever events follow, the task stays finished, so it never
    reaches the translation phase, and it never makes a callback. *)
Theorem C7_empty_transcript_is_silent (o : Opts) (net : Network)
    (es0 es : list Event) (k w : nat) (text : option jsstring) :
  let sys := run o net initial es0 in
  let sys' := step o net sys (EvSettle k w) in
  phase_of (sess sys) k = Some (Stt (AwaitJson (Json text))) ->
  text_or_empty text = [] ->
  log (sess sys') = log (sess sys)
  /\ phase_of (sess sys') k = Some Finished
  /\ phase_of (sess (run o net sys' es)) k = Some Finished
  /\ callbacks_of k (sess (run o net sys' es)) = [].
Proof.
  intros sys sys' Hph Htext.
  apply phase_of_Some in Hph as (t & Ht & Hp).
  assert (Hs : settle_task o (net k) t w = (with_phase t Finished, [])).
  { apply (settle_task_blank_transcript o (net k) t w text Hp). now rewrite Htext. }
  assert (L' : tasks (sess sys') !! k = Some (with_phase t Finished)).
  { subst sys'. simpl. unfold settle. rewrite Ht, Hs. simpl.
    apply list_lookup_insert_eq. eapply lookup_lt_Some; eauto. }
  assert (Hlog : log (sess sys') = log (sess sys)).
  { subst sys'. simpl. unfold settle. rewrite Ht, Hs. simpl. apply app_nil_r. }
  assert (C0 : callbacks_of k (sess sys') = []).
  { unfold callbacks_of. rewrite Hlog.
    apply (unfinished_has_no_callbacks (sess sys) k t).
    - apply reachable_log_of_finished.
    - exact Ht.
    - rewrite Hp. discriminate. }
  destruct (run_quiet o net k _ (finished_is_quiet o (net k)) es sys'
              (with_phase t Finished) L' eq_refl) as (t' & Lt & Pt & Ct).
  split; [exact Hlog|]. split; [|split].
  - apply phase_of_Some. eauto.
  - apply phase_of_Some. eauto.
  - now rewrite Ct.
Qed.


(* ===================================================================== *)
(** ** Sorting by target position *)
(* ===================================================================== *)

Section Sorting.
Context {A : Type} (key : A -> Z).

Lemma sort_insert_perm (x : A) (l : list A) : sort_insert (cmp_by key) x l ≡ₚ x :: l.
Proof.
  induction l as [|y l IH]; simpl; [reflexivity|].
  destruct (cmp_by key x y <=? 0); [reflexivity|].
  rewrite IH. apply perm_swap.
Qed.

Lemma js_sort_perm (l : list A) : js_sort (cmp_by key) l ≡ₚ l.
Proof.
  induction l as [|x l IH]; simpl; [reflexivity|].
  now rewrite sort_insert_perm, IH.
Qed.

Lemma sort_insert_sorted (x : A) (l : list A) :
  StronglySorted (key_le key) l -> StronglySorted (key_le key) (sort_insert (cmp_by key) x l).
Proof.
  induction 1 as [|y l Hl IH Hy]; simpl.
  - repeat constructor.
  - destruct (Z.leb_spec (cmp_by key x y) 0) as [L|L]; unfold cmp_by in L.
    + constructor; [now constructor|].
      constructor; [unfold key_le; lia|].
      eapply Forall_impl; [exact Hy|]. unfold key_le. simpl. intros; lia.
    + constructor; [exact IH|].
      rewrite sort_insert_perm. constructor; [unfold key_le; lia | exact Hy].
Qed.

Lemma js_sort_sorted (l : list A) : StronglySorted (key_le key) (js_sort (cmp_by key) l).
Proof.
  induction l as [|x l IH]; simpl; [constructor|].
  now apply sort_insert_sorted.
Qed.

(** The sort returns the one arrangement that is in key order, when there
    is one on which the key separates the elements. *)
Lemma js_sort_unique (l sorted : list A) :
  l ≡ₚ sorted ->
  StronglySorted (key_le key) sorted ->
  (forall a b, a ∈ sorted -> b ∈ sorted -> key a = key b -> a = b) ->
  js_sort (cmp_by key) l = sorted.
Proof.
  intros Hp Hs Hinj.
  apply (StronglySorted_unique_strong (key_le key)).
  - intros a b Ha Hb Hab Hba.
    apply Hinj; [| exact Hb | unfold key_le in *; lia].
    now rewrite <- Hp, <- (js_sort_perm l).
  - apply js_sort_sorted.
  - exact Hs.
  - now rewrite js_sort_perm.
Qed.
End Sorting.

Lemma jsstring_eqb_true (a b : jsstring) : jsstring_eqb a b = true <-> a = b.
Proof. unfold jsstring_eqb. apply bool_decide_eq_true. Qed.

Lemma jsstring_eqb_false (a b : jsstring) : jsstring_eqb a b = false <-> a <> b.
Proof. unfold jsstring_eqb. apply bool_decide_eq_false. Qed.

Lemma indexOf_from_member (l : list jsstring) (x : jsstring) : forall i,
  x ∈ l -> i <= indexOf_from l x i < i + Z.of_nat (length l).
Proof.
  induction l as [|y l IH]; intros i Hx; [now apply not_elem_of_nil in Hx|].
  simpl. destruct (jsstring_eqb y x) eqn:E; [lia|].
  apply jsstring_eqb_false in E.
  apply elem_of_cons in Hx as [->|Hx]; [congruence|].
  specialize (IH (i + 1) Hx). lia.
Qed.

Lemma indexOf_from_skip (pre l : list jsstring) (x : jsstring) : forall i,
  x ∉ pre -> indexOf_from (pre ++ l) x i = indexOf_from l x (i + Z.of_nat (length pre)).
Proof.
  induction pre as [|y pre IH]; intros i Hx; simpl.
  - f_equal. lia.
  - apply not_elem_of_cons in Hx as [Hy Hx].
    assert (E : jsstring_eqb y x = false) by (apply jsstring_eqb_false; congruence).
    rewrite E, IH by exact Hx. f_equal. lia.
Qed.

Lemma indexOf_from_inj (l : list jsstring) (x y : jsstring) : forall i,
  x ∈ l -> y ∈ l -> indexOf_from l x i = indexOf_from l y i -> x = y.
Proof.
  induction l as [|z l IH]; intros i Hx Hy; [now apply not_elem_of_nil in Hx|].
  simpl.
  destruct (jsstring_eqb z x) eqn:Ex, (jsstring_eqb z y) eqn:Ey.
  - apply jsstring_eqb_true in Ex, Ey. congruence.
  - apply jsstring_eqb_false in Ey.
    apply elem_of_cons in Hy as [->|Hy]; [congruence|].
    pose proof (indexOf_from_member l y (i + 1) Hy). lia.
  - apply jsstring_eqb_false in Ex.
    apply elem_of_cons in Hx as [->|Hx]; [congruence|].
    pose proof (indexOf_from_member l x (i + 1) Hx). lia.
  - apply jsstring_eqb_false in Ex, Ey.
    apply elem_of_cons in Hx as [->|Hx]; [congruence|].
    apply elem_of_cons in Hy as [->|Hy]; [congruence|].
    now apply IH.
Qed.

Lemma translateOne_lang answers (lang : jsstring) (x : Translation) :
  translateOne answers lang = Some x -> fst x = lang.
Proof.
  unfold translateOne.
  destruct (request _ _) as [e|text]; [discriminate|].
  destruct (truthy _); [|discriminate].
  now intros [= <-].
Qed.

Lemma in_target_order_elem answers (outs : list jsstring) (x : Translation) :
  x ∈ in_target_order answers outs ->
  fst x ∈ outs /\ translateOne answers (fst x) = Some x.
Proof.
  unfold in_target_order. intros H.
  apply list_elem_of_omap in H as (l & Hl & Hx).
  pose proof (translateOne_lang answers l x Hx) as <-. auto.
Qed.

(** With pairwise distinct targets, the translations in target order are
    sorted by [outputs.indexOf]. *)
Lemma in_target_order_sorted answers (outs : list jsstring) :
  NoDup outs ->
  StronglySorted (fun a b => indexOf outs (fst a) <= indexOf outs (fst b))
                 (in_target_order answers outs).
Proof.
  intros Hnd. unfold in_target_order, indexOf.
  assert (G : forall suf pre, outs = pre ++ suf ->
            StronglySorted
              (fun a b => indexOf_from outs (fst a) 0 <= indexOf_from outs (fst b) 0)
              (omap (translateOne answers) suf)).
  { induction suf as [|x suf IH]; intros pre Ho; [constructor|].
    assert (Ho' : outs = (pre ++ [x]) ++ suf) by (now rewrite <- app_assoc).
    specialize (IH _ Ho').
    simpl. destruct (translateOne answers x) as [e|] eqn:E; [|exact IH].
    constructor; [exact IH|].
    apply Forall_forall. intros e' He'.
    apply list_elem_of_omap in He' as (y & Hy & Ey).
    apply translateOne_lang in E, Ey. rewrite E, Ey.
    rewrite Ho in Hnd. apply NoDup_app in Hnd as (_ & Hdis & Hsuf).
    apply NoDup_cons in Hsuf as [Hx _].
    rewrite Ho.
    rewrite (indexOf_from_skip pre (x :: suf) x 0)
      by (intros Hin; apply (Hdis x Hin); now left).
    rewrite (indexOf_from_skip pre (x :: suf) y 0)
      by (intros Hin; apply (Hdis y Hin); now right).
    simpl. assert (Exx : jsstring_eqb x x = true) by now apply jsstring_eqb_true.
    assert (Exy : jsstring_eqb x y = false).
    { apply jsstring_eqb_false. intros ->. contradiction. }
    rewrite Exx, Exy.
    pose proof (indexOf_from_member suf y (0 + Z.of_nat (length pre) + 1) Hy). lia. }
  apply (G outs []). reflexivity.
Qed.

(** What [onResult] receives when the collected results are, in some order,
    the translations of all the targets. *)
Lemma sorted_results (answers : Endpoint -> nat -> FetchOutcome)
    (outs : list jsstring) (res : list Translation) :
  NoDup outs ->
  res ≡ₚ in_target_order answers outs ->
  js_sort (by_target outs) res = in_target_order answers outs.
Proof.
  intros Hnd Hp.
  apply (js_sort_unique (fun a => indexOf outs (fst a)) res _ Hp).
  - now apply in_target_order_sorted.
  - intros a b Ha Hb Hk.
    apply in_target_order_elem in Ha as [Ha Ta], Hb as [Hb Tb].
    assert (fst a = fst b) as E.
    { unfold indexOf in Hk. eapply indexOf_from_inj; eauto. }
    rewrite E in Ta. congruence.
Qed.

(* ===================================================================== *)
(** ** The worker pool *)
(* ===================================================================== *)

Arguments fetch_result : simpl never.
Arguments json_result : simpl never.

Lemma call_step_on_track (answers : nat -> FetchOutcome) (c : Call) :
  on_track answers c ->
  match call_step 2 false answers c with
  | Pending c' => on_track answers c'
  | Returned t => request answers 2 = inr t
  | Threw e => request answers 2 = inl e
  end.
Proof.
  destruct c as [[|[|i]] | [|i] | b]; simpl; try contradiction.
  - intros _. destruct (fetch_result false (answers 0%nat)) as [e|b] eqn:E; simpl.
    + eauto.
    + unfold fetchWithRetry. simpl. now rewrite E.
  - intros [e0 E0].
    destruct (fetch_result false (answers 1%nat)) as [e|b] eqn:E; simpl.
    + unfold request, fetchWithRetry. simpl. now rewrite E0, E.
    + unfold fetchWithRetry. simpl. now rewrite E0, E.
  - auto.
  - intros Hb. unfold request. rewrite Hb.
    destruct (json_result false b); reflexivity.
Qed.

Lemma call_step_measure (ab : bool) (answers : nat -> FetchOutcome) (c c' : Call) :
  call_step 2 ab answers c = Pending c' -> (call_measure c' < call_measure c)%nat.
Proof.
  destruct c as [[|i] | i | b]; simpl.
  - destruct (fetch_result ab (answers 0%nat)); intros [= <-]; simpl; lia.
  - destruct (fetch_result ab (answers (S i))); [discriminate|].
    intros [= <-]; simpl; lia.
  - intros [= <-]; simpl; lia.
  - destruct (json_result ab b); discriminate.
Qed.

Lemma pull_truthy (q : list jsstring) :
  Forall (fun l => truthy l = true) q ->
  pull q = match q with
           | [] => (Exited, [])
           | lang :: q' => (Busy lang (AwaitFetch 0), q')
           end.
Proof.
  destruct q as [|l q]; [reflexivity|].
  intros H. apply Forall_cons in H as [H _]. simpl. now rewrite H.
Qed.

Lemma omap_busy_insert (ws : list Worker) (w : nat) (lang : jsstring) (c : Call) (wk : Worker) :
  ws !! w = Some (Busy lang c) ->
  omap busy_lang ws ≡ₚ lang :: omap busy_lang (<[w := Exited]> ws)
  /\ omap busy_lang (<[w := wk]> ws)
     ≡ₚ omap busy_lang [wk] ++ omap busy_lang (<[w := Exited]> ws).
Proof.
  intros H.
  pose proof (lookup_lt_Some _ _ _ H) as Hw.
  rewrite !insert_take_drop by exact Hw.
  rewrite <- (take_drop_middle ws w _ H) at 1.
  rewrite !omap_app. simpl.
  split.
  - now rewrite <- Permutation_middle.
  - destruct (busy_lang wk); simpl; [now rewrite <- Permutation_middle | reflexivity].
Qed.

Lemma queue_truthy answers outs p done :
  pool_inv answers outs p done ->
  Forall (fun l => truthy l = true) outs ->
  Forall (fun l => truthy l = true) (queue p).
Proof.
  intros [Ht _ _ _] Ho.
  rewrite <- Ht in Ho. now apply Forall_app in Ho as [_ [_ ?]%Forall_app].
Qed.

(** A runner whose [translateOne(lang)] is over takes the next target: the
    invariant holds again with [lang] done. *)
Lemma next_target_inv answers outs (p : Pool) (done : list jsstring) (w : nat)
    (lang : jsstring) (c : Call) (res : list Translation) :
  pool_inv answers outs p done ->
  Forall (fun l => truthy l = true) outs ->
  workers p !! w = Some (Busy lang c) ->
  res ≡ₚ omap (translateOne answers) (done ++ [lang]) ->
  pool_inv answers outs (next_target p w res) (done ++ [lang]).
Proof.
  intros Inv Ho Hw Hres.
  pose proof (queue_truthy _ _ _ _ Inv Ho) as Hq.
  destruct Inv as [Ht Hr Htr Hqu].
  unfold next_target. rewrite (pull_truthy _ Hq).
  destruct (omap_busy_insert (workers p) w lang c Exited Hw) as [P1 _].
  destruct (queue p) as [|l' q'] eqn:Eq.
  - constructor; simpl.
    + rewrite <- Ht, P1, ?app_nil_r, <- ?app_assoc. simpl.
      now rewrite ?app_nil_r.
    + exact Hres.
    + apply Forall_insert; [exact Htr | exact I].
    + congruence.
  - destruct (omap_busy_insert (workers p) w lang c (Busy l' (AwaitFetch 0)) Hw)
      as [_ P2].
    constructor; simpl.
    + rewrite <- Ht, P1, P2. simpl. rewrite <- !app_assoc. simpl.
      apply Permutation_app_head.
      rewrite <- ?Permutation_middle. first [reflexivity | apply perm_swap].
    + exact Hres.
    + apply Forall_insert; [exact Htr | exact I].
    + intros _. apply Forall_insert; [apply Hqu; discriminate | reflexivity].
Qed.

Lemma settle_worker_inv answers outs (p : Pool) (done : list jsstring) (w : nat) :
  pool_inv answers outs p done ->
  Forall (fun l => truthy l = true) outs ->
  exists done', pool_inv answers outs (settle_worker false answers p w) done'.
Proof.
  intros Inv Ho. unfold settle_worker.
  destruct (workers p !! w) as [[lang c|]|] eqn:Hw; try (now exists done).
  assert (Hc : on_track (answers (Translate lang)) c).
  { destruct Inv as [_ _ Htr _].
    rewrite Forall_forall in Htr. apply (Htr (Busy lang c)).
    eapply list_elem_of_lookup_2; eauto. }
  pose proof (call_step_on_track _ _ Hc) as Hstep.
  destruct (call_step 2 false (answers (Translate lang)) c) as [c'|text|e].
  - exists done. destruct Inv as [Ht Hr Htr Hqu]. constructor; simpl.
    + destruct (omap_busy_insert (workers p) w lang c (Busy lang c') Hw) as [P1 P2].
      now rewrite P2, <- Ht, P1.
    + exact Hr.
    + apply Forall_insert; [exact Htr | exact Hstep].
    + intros Hq. apply Forall_insert; [now apply Hqu | reflexivity].
  - exists (done ++ [lang]). apply (next_target_inv answers outs p done w lang c _ Inv Ho Hw).
    rewrite omap_app. simpl. unfold translateOne at 2. rewrite Hstep.
    destruct Inv as [_ Hr _ _].
    destruct (truthy (trimmed_text text)); simpl;
      [now rewrite Hr | now rewrite app_nil_r].
  - exists (done ++ [lang]). apply (next_target_inv answers outs p done w lang c _ Inv Ho Hw).
    rewrite omap_app. simpl. unfold translateOne at 2. rewrite Hstep. simpl.
    destruct Inv as [_ Hr _ _]. now rewrite app_nil_r.
Qed.

Lemma length_settle_worker ab answers (p : Pool) (w : nat) :
  length (workers (settle_worker ab answers p w)) = length (workers p).
Proof.
  unfold settle_worker, next_target.
  destruct (workers p !! w) as [[lang c|]|]; try reflexivity.
  destruct (call_step _ _ _ _); simpl; try apply length_insert;
    destruct (pull (queue p)); simpl; apply length_insert.
Qed.

Lemma spawn_inv answers outs (n : nat) : forall p,
  pool_inv answers outs p [] ->
  Forall (fun l => truthy l = true) outs ->
  pool_inv answers outs (spawn n p) []
  /\ length (workers (spawn n p)) = (length (workers p) + n)%nat.
Proof.
  induction n as [|n IH]; intros p Inv Ho; simpl.
  - split; [exact Inv | lia].
  - pose proof (queue_truthy _ _ _ _ Inv Ho) as Hq.
    rewrite (pull_truthy _ Hq).
    destruct Inv as [Ht Hr Htr Hqu]. simpl in Ht.
    destruct (queue p) as [|l' q'] eqn:Eq.
    + destruct (IH {| queue := []; results := results p;
                      workers := workers p ++ [Exited] |}) as [I L]; [|exact Ho|].
      * constructor; simpl; auto.
        -- rewrite omap_app. simpl. rewrite !app_nil_r in *. exact Ht.
        -- apply Forall_app. split; [exact Htr | repeat constructor].
        -- congruence.
      * split; [exact I|]. simpl in L. rewrite length_app in L. simpl in L. lia.
    + destruct (IH {| queue := q'; results := results p;
                      workers := workers p ++ [Busy l' (AwaitFetch 0)] |})
        as [I L]; [|exact Ho|].
      * constructor; simpl; auto.
        -- rewrite omap_app. simpl. now rewrite <- app_assoc.
        -- apply Forall_app. split; [exact Htr | repeat constructor].
        -- intros _. apply Forall_app. split; [apply Hqu; discriminate|].
           repeat constructor.
      * split; [exact I|]. simpl in L. rewrite length_app in L. simpl in L. lia.
Qed.

Lemma maxWorkers_pos (o : Opts) : (1 <= maxWorkers o)%nat.
Proof. unfold maxWorkers. lia. Qed.

Lemma start_pool_inv (o : Opts) answers :
  Forall (fun l => truthy l = true) (outputs o) ->
  pool_inv answers (outputs o) (start_pool o) []
  /\ workers (start_pool o) <> [].
Proof.
  intros Ho. unfold start_pool.
  destruct (spawn_inv answers (outputs o) (maxWorkers o)
              {| queue := outputs o; results := []; workers := [] |}) as [I L].
  - constructor; simpl; auto; constructor.
  - exact Ho.
  - split; [exact I|]. simpl in L.
    pose proof (maxWorkers_pos o). intros E. rewrite E in L. simpl in L. lia.
Qed.

(** When every runner has left, [onResult] receives the translations in
    target order. *)
Lemma deliver_inv (o : Opts) answers (transcript : jsstring) (p : Pool)
    (done : list jsstring) :
  NoDup (outputs o) ->
  pool_inv answers (outputs o) p done ->
  workers p <> [] ->
  deliver o transcript p
  = (Finished, [OnResult transcript (in_target_order answers (outputs o))])
  \/ deliver o transcript p = (Translating transcript p, []).
Proof.
  intros Hnd [Ht Hr Htr Hqu] Hne. unfold deliver.
  destruct (forallb is_exited (workers p)) eqn:E; [left | now right].
  rewrite forallb_forall in E.
  assert (Hq : queue p = []).
  { destruct (queue p) as [|l q] eqn:Eq; [reflexivity|]. exfalso.
    destruct (workers p) as [|wk ws] eqn:Ew; [congruence|].
    assert (Hb : Forall (fun w => is_exited w = false) (wk :: ws))
      by (apply Hqu; discriminate).
    apply Forall_cons in Hb as [Hb _].
    rewrite (E wk) in Hb by (now left). discriminate. }
  assert (Hb : omap busy_lang (workers p) = []).
  { clear -E. induction (workers p) as [|wk ws IH]; [reflexivity|].
    simpl. pose proof (E wk (or_introl eq_refl)) as Hw.
    destruct wk; [discriminate|]. simpl. apply IH.
    intros x Hx. apply E. now right. }
  rewrite Hq, Hb, !app_nil_r in Ht.
  do 2 f_equal. f_equal.
  apply sorted_results; [exact Hnd|].
  rewrite Hr. unfold in_target_order. now rewrite Ht.
Qed.

(* ===================================================================== *)
(** ** The dispatcher: results in target order *)
(* ===================================================================== *)

Lemma run_task_app (o : Opts) answers : forall (ws1 ws2 : list nat) (t : Task),
  run_task o answers t (ws1 ++ ws2)
  = let '(t1, c1) := run_task o answers t ws1 in
    let '(t2, c2) := run_task o answers t1 ws2 in
    (t2, c1 ++ c2).
Proof.
  induction ws1 as [|w ws1 IH]; intros ws2 t; simpl.
  - now destruct (run_task o answers t ws2).
  - destruct (settle_task o answers t w) as [t1 c1].
    rewrite IH.
    destruct (run_task o answers t1 ws1) as [t2 c2].
    destruct (run_task o answers t2 ws2) as [t3 c3].
    now rewrite app_assoc.
Qed.

Section Dispatch.
Variable o : Opts.
Variable answers : Endpoint -> nat -> FetchOutcome.
Hypothesis distinct : NoDup (outputs o).
Hypothesis nonempty : Forall (fun l => truthy l = true) (outputs o).

Lemma settle_dispatch_inv (transcript : jsstring) (t : Task) (cbs : list Callback) (w : nat) :
  dispatch_inv o answers transcript t cbs ->
  dispatch_inv o answers transcript (fst (settle_task o answers t w))
               (cbs ++ snd (settle_task o answers t w)).
Proof.
  intros [Hab [(p & done & Hp & Inv & Hne & ->) | [Hp ->]]].
  - unfold settle_task. rewrite Hp, Hab.
    destruct (settle_worker_inv answers (outputs o) p done w Inv nonempty)
      as [done' Inv'].
    assert (Hne' : workers (settle_worker false answers p w) <> []).
    { intros E. apply (f_equal (@length Worker)) in E.
      rewrite length_settle_worker in E. destruct (workers p); [congruence|discriminate]. }
    destruct (deliver_inv o answers transcript _ done' distinct Inv' Hne') as [D|D];
      rewrite D; simpl; (split; [exact Hab|]).
    + right. auto.
    + left. eauto 10.
  - unfold settle_task. rewrite Hp. simpl. rewrite ?app_nil_r.
    split; [exact Hab|]. right. auto.
Qed.

Lemma run_dispatch_inv (transcript : jsstring) (ws : list nat) :
  forall (t : Task) (cbs : list Callback),
    dispatch_inv o answers transcript t cbs ->
    dispatch_inv o answers transcript (fst (run_task o answers t ws))
                 (cbs ++ snd (run_task o answers t ws)).
Proof.
  induction ws as [|w ws IH]; intros t cbs H; simpl.
  - now rewrite app_nil_r.
  - pose proof (settle_dispatch_inv transcript t cbs w H) as H1.
    destruct (settle_task o answers t w) as [t1 c1]. simpl in H1.
    specialize (IH t1 (cbs ++ c1) H1).
    destruct (run_task o answers t1 ws) as [t2 c2]. simpl in *.
    now rewrite app_assoc.
Qed.

(** The transcript arrives: the pool starts, and delivers at once when
    there is no target. *)
Lemma start_dispatch_inv (t : Task) (text : option jsstring) (w : nat) :
  aborted t = false ->
  phase t = Stt (AwaitJson (Json text)) ->
  truthy (trimmed_text text) = true ->
  dispatch_inv o answers (trimmed_text text) (fst (settle_task o answers t w))
               (snd (settle_task o answers t w)).
Proof.
  intros Hab Hp Htr. unfold settle_task. rewrite Hp, Hab. simpl.
  unfold json_result. rewrite Htr.
  destruct (start_pool_inv o answers nonempty) as [Inv Hne].
  destruct (deliver_inv o answers (trimmed_text text) _ [] distinct Inv Hne) as [D|D];
    rewrite D; simpl; (split; [exact Hab|]).
  - right. auto.
  - left. eauto 10.
Qed.
End Dispatch.

(** *** Every schedule can be run to the end *)

Lemma measure_insert (wk old : Worker) : forall (ws : list Worker) (w : nat),
  ws !! w = Some old ->
  (sum_list (worker_measure <$> <[w := wk]> ws) + worker_measure old
   = sum_list (worker_measure <$> ws) + worker_measure wk)%nat.
Proof.
  induction ws as [|x ws IH]; intros [|w] H; try discriminate; csimpl in *.
  - injection H as ->. lia.
  - specialize (IH w H). lia.
Qed.

Lemma pull_measure (q : list jsstring) :
  (worker_measure (fst (pull q)) + 5 * length (snd (pull q)) <= 5 * length q)%nat.
Proof.
  destruct q as [|l q]; simpl; [lia|].
  destruct (truthy l); simpl; lia.
Qed.

Lemma call_measure_pos (c : Call) : (1 <= call_measure c)%nat.
Proof. destruct c as [[|i]|i|b]; simpl; lia. Qed.

Lemma settle_worker_measure (ab : bool) answers (p : Pool) (w : nat)
    (lang : jsstring) (c : Call) :
  workers p !! w = Some (Busy lang c) ->
  (pool_measure (settle_worker ab answers p w) < pool_measure p)%nat.
Proof.
  intros Hw. unfold settle_worker. rewrite Hw.
  pose proof (call_measure_pos c) as Hc.
  pose proof (pull_measure (queue p)) as Hq.
  unfold pool_measure.
  destruct (call_step 2 ab (answers (Translate lang)) c) as [c'|text|e] eqn:E.
  - apply call_step_measure in E. simpl.
    pose proof (measure_insert (Busy lang c') _ (workers p) w Hw) as M.
    simpl in M. lia.
  - unfold next_target. destruct (pull (queue p)) as [wk q']. simpl in *.
    pose proof (measure_insert wk _ (workers p) w Hw) as M. simpl in M. lia.
  - unfold next_target. destruct (pull (queue p)) as [wk q']. simpl in *.
    pose proof (measure_insert wk _ (workers p) w Hw) as M. simpl in M. lia.
Qed.

Lemma some_worker_busy (ws : list Worker) :
  forallb is_exited ws = false ->
  exists w lang c, ws !! w = Some (Busy lang c).
Proof.
  induction ws as [|wk ws IH]; simpl; [discriminate|].
  destruct wk as [lang c|]; simpl.
  - intros _. now exists 0%nat, lang, c.
  - intros H. destruct (IH H) as (w & lang & c & Hw). now exists (S w), lang, c.
Qed.

Lemma translating_can_finish (o : Opts) answers (n : nat) :
  forall (t : Task) (transcript : jsstring) (p : Pool),
    (pool_measure p <= n)%nat ->
    phase t = Translating transcript p ->
    exists ws, phase (fst (run_task o answers t ws)) = Finished.
Proof.
  induction n as [|n IH]; intros t transcript p Hm Hp.
  - exists [0%nat]. simpl. unfold settle_task, deliver. rewrite Hp.
    destruct (forallb is_exited (workers (settle_worker (aborted t) answers p 0))) eqn:E;
      [reflexivity|].
    exfalso. unfold settle_worker in E.
    destruct (workers p !! 0%nat) as [[lang c|]|] eqn:Hw.
    + pose proof (settle_worker_measure (aborted t) answers p 0 lang c Hw). lia.
    + destruct (some_worker_busy _ E) as (w & lang & c & Hb).
      pose proof (settle_worker_measure (aborted t) answers p w lang c Hb). lia.
    + destruct (some_worker_busy _ E) as (w & lang & c & Hb).
      pose proof (settle_worker_measure (aborted t) answers p w lang c Hb). lia.
  - destruct (forallb is_exited (workers p)) eqn:E.
    + exists [0%nat]. simpl. unfold settle_task, deliver. rewrite Hp.
      assert (Hs : settle_worker (aborted t) answers p 0 = p).
      { unfold settle_worker.
        destruct (workers p !! 0%nat) as [[lang c|]|] eqn:Hw; try reflexivity.
        exfalso. rewrite forallb_forall in E.
        assert (Hin : In (Busy lang c) (workers p)).
        { apply list_elem_of_In. eapply list_elem_of_lookup_2; eauto. }
        specialize (E _ Hin). discriminate. }
      rewrite Hs, E. reflexivity.
    + destruct (some_worker_busy _ E) as (w & lang & c & Hb).
      pose proof (settle_worker_measure (aborted t) answers p w lang c Hb) as Hlt.
      destruct (forallb is_exited (workers (settle_worker (aborted t) answers p w)))
        eqn:E'.
      * exists [w]. simpl. unfold settle_task, deliver. rewrite Hp, E'. reflexivity.
      * destruct (IH (with_phase t (Translating transcript
                                      (settle_worker (aborted t) answers p w)))
                     transcript (settle_worker (aborted t) answers p w))
          as [ws Hws]; [lia | reflexivity |].
        exists (w :: ws). simpl.
        unfold settle_task at 1. unfold deliver. rewrite Hp, E'.
        destruct (run_task o answers _ ws) as [t2 c2]. exact Hws.
Qed.

(** C2 (amended).  Let the targets be pairwise distinct and none of them the
    empty string, and let no signal be aborted.  From the moment the
    transcript arrives, whatever the order [w0 :: ws] in which the awaited
    promises settle: either the task is still translating and has made no
    callback, or it has finished and its one callback is [onResult] with the
    translations in target order, the targets without a translation left
    out.  And every such order can be continued to the end. *)
Theorem C2_translations_in_target_order (o : Opts)
    (answers : Endpoint -> nat -> FetchOutcome)
    (t : Task) (text : option jsstring) (w0 : nat) (ws : list nat) :
  NoDup (outputs o) ->
  Forall (fun l => truthy l = true) (outputs o) ->
  aborted t = false ->
  phase t = Stt (AwaitJson (Json text)) ->
  truthy (trimmed_text text) = true ->
  let expected := OnResult (trimmed_text text) (in_target_order answers (outputs o)) in
  ((phase (fst (run_task o answers t (w0 :: ws))) = Finished
    /\ snd (run_task o answers t (w0 :: ws)) = [expected])
   \/ ((exists p, phase (fst (run_task o answers t (w0 :: ws)))
                  = Translating (trimmed_text text) p)
       /\ snd (run_task o answers t (w0 :: ws)) = []))
  /\ exists ws',
       phase (fst (run_task o answers t (w0 :: ws ++ ws'))) = Finished
       /\ snd (run_task o answers t (w0 :: ws ++ ws')) = [expected].
Proof.
  intros Hnd Hne Hab Hp Htr expected.
  assert (Inv : forall l, dispatch_inv o answers (trimmed_text text)
                            (fst (run_task o answers t (w0 :: l)))
                            (snd (run_task o answers t (w0 :: l)))).
  { intros l. simpl.
    pose proof (start_dispatch_inv o answers Hnd Hne t text w0 Hab Hp Htr) as H0.
    destruct (settle_task o answers t w0) as [t1 c1]. simpl in H0.
    pose proof (run_dispatch_inv o answers Hnd Hne (trimmed_text text) l t1 c1 H0) as H1.
    destruct (run_task o answers t1 l) as [t2 c2]. exact H1. }
  split.
  - destruct (Inv ws) as [_ [(p & done & Ph & _ & _ & Hc) | [Ph Hc]]].
    + right. eauto.
    + left. auto.
  - assert (Hfin : exists ws',
               phase (fst (run_task o answers t ((w0 :: ws) ++ ws'))) = Finished).
    { destruct (Inv ws) as [_ [(p & done & Ph & _ & _ & _) | [Ph _]]].
      - destruct (translating_can_finish o answers (pool_measure p)
                    (fst (run_task o answers t (w0 :: ws))) _ p (le_n _) Ph)
          as [ws' Hws'].
        exists ws'. rewrite run_task_app.
        destruct (run_task o answers t (w0 :: ws)) as [t1 c1]. simpl in Hws'.
        destruct (run_task o answers t1 ws') as [t2 c2]. exact Hws'.
      - exists []. now rewrite app_nil_r. }
    destruct Hfin as [ws' Hws']. exists ws'.
    change (w0 :: ws ++ ws') with ((w0 :: ws) ++ ws') .
    destruct (Inv (ws ++ ws')) as [_ [(p & done & Ph & _) | [Ph Hc]]].
    + change (w0 :: ws ++ ws') with ((w0 :: ws) ++ ws') in Ph. congruence.
    + change (w0 :: ws ++ ws') with ((w0 :: ws) ++ ws') in Hc. auto.
Qed.

(** The claim as stated fails for a target list with a repeated target, and
    for one with an empty target.
    (1) Targets [en, ja, en], every translation succeeding (the reply is the
    target name): the three runners finish in turn and [onResult] receives
    [en, en, ja], not the target order [en, ja, en].
    (2) Targets ["", en] with one runner: the runner leaves its loop at the
    empty target, [en] is never requested, and [onResult] receives no
    translation, though the translation of [en] would succeed. *)
Lemma C2_repeated_or_empty_target :
  let answers := always_ok text_hello (fun lang => lang) 0%nat in
  let t := awaiting_transcript (Some text_hello) in
  (let o := default_opts [lang_en; lang_ja; lang_en] in
   snd (run_task o answers t [0; 0; 0; 1; 1; 2; 2]%nat)
   = [OnResult text_hello [(lang_en, lang_en); (lang_en, lang_en); (lang_ja, lang_ja)]]
   /\ in_target_order answers (outputs o)
      = [(lang_en, lang_en); (lang_ja, lang_ja); (lang_en, lang_en)]
   /\ snd (run_task o answers t [0; 0; 0; 1; 1; 2; 2]%nat)
      <> [OnResult text_hello (in_target_order answers (outputs o))])
  /\ (let o := {| outputs := [[]; lang_en]; vadGateHigh := 1 # 100;
                  vadGateLow := 4 # 1000; padMs := 70; minSpeechMs := 800;
                  maxSegmentMs := 5000; preGain := 102 # 100;
                  translationParallelWorkers := Some 1 |} in
      run_task o answers t [0%nat]
      = (with_phase t Finished, [OnResult text_hello []])
      /\ in_target_order answers (outputs o) = [(lang_en, lang_en)]
      /\ snd (run_task o answers t [0%nat])
         <> [OnResult text_hello (in_target_order answers (outputs o))]).
Proof.
  cbv zeta. repeat split; try (vm_compute; reflexivity);
    intros H; vm_compute in H; discriminate H.
Qed.

(* ===================================================================== *)
(** ** Cancellation *)
(* ===================================================================== *)

Lemma aborted_transcription_is_quiet (o : Opts) answers :
  quiet o answers
    (fun t => aborted t = true /\ ((exists c, phase t = Stt c) \/ phase t = Finished)).
Proof.
  split.
  - intros t [_ H]. split; [reflexivity | exact H].
  - intros t w [Hab [[c Hp] | Hp]]; unfold settle_task; rewrite Hp; [|simpl; auto].
    rewrite Hab. unfold call_step, fetch_result, json_result.
    destruct c as [i|i|b]; simpl.
    + destruct (S i <? 2)%nat; simpl; eauto.
    + eauto.
    + auto.
Qed.

(** A request aborted while the transcription is pending (the fetch, the
    back-off timer or the body) never makes a callback: every later fetch
    and the body read reject with [AbortError], which [finalizeSegment]
    returns on. *)
Lemma aborted_transcription_is_silent (o : Opts) (net : Network)
    (es0 es : list Event) (k : nat) (c : Call) :
  let sys := run o net initial es0 in
  phase_of (sess sys) k = Some (Stt c) ->
  aborted_of (sess sys) k = Some true ->
  callbacks_of k (sess (run o net sys es)) = [].
Proof.
  intros sys Hp Ha.
  apply phase_of_Some in Hp as (t & Ht & Hp).
  apply aborted_of_Some in Ha as (t' & Ht' & Ha).
  assert (t' = t) as -> by congruence.
  destruct (run_quiet o net k _ (aborted_transcription_is_quiet o (net k)) es sys t Ht)
    as (t2 & _ & _ & C); [eauto|].
  rewrite C.
  apply (unfinished_has_no_callbacks (sess sys) k t).
  - apply reachable_log_of_finished.
  - exact Ht.
  - rewrite Hp. discriminate.
Qed.

(** The next uploaded segment and the teardown both abort the request in
    [reqCtrlRef]. *)
Lemma superseding_segment_aborts (o : Opts) (snap : Snapshot) (s : Session) (k : nat)
    (wav : list Z) (st : Stats) (t : Task) :
  gate o snap = Upload wav st ->
  reqCtrl s = Some k ->
  tasks s !! k = Some t ->
  tasks (finalizeSegment o snap s) !! k = Some (with_abort t).
Proof.
  intros Hg Hr Ht. unfold finalizeSegment. rewrite Hg. simpl.
  pose proof (lookup_lt_Some _ _ _ Ht) as Hk.
  rewrite lookup_app_l by (now rewrite length_abort_current).
  unfold abort_current. rewrite Hr, list_lookup_alter_eq, Ht. reflexivity.
Qed.

Lemma cleanup_aborts (s : Session) (k : nat) (t : Task) :
  reqCtrl s = Some k ->
  tasks s !! k = Some t ->
  tasks (cleanup s) !! k = Some (with_abort t).
Proof.
  intros Hr Ht. unfold cleanup, abort_current. simpl.
  rewrite Hr, list_lookup_alter_eq, Ht. reflexivity.
Qed.

Lemma settle_task_aborted (o : Opts) answers (t : Task) (w : nat) :
  aborted (fst (settle_task o answers t w)) = aborted t.
Proof.
  unfold settle_task.
  destruct (phase t) as [c|tr p|]; simpl; [| |reflexivity].
  - destruct (call_step 2 (aborted t) (answers Transcribe) c); simpl; try reflexivity.
    destruct (truthy (trimmed_text text)); [|reflexivity].
    destruct (deliver o (trimmed_text text) (start_pool o)). reflexivity.
  - destruct (deliver o tr (settle_worker (aborted t) answers p w)). reflexivity.
Qed.

Lemma abort_current_all_aborted (s : Session) (k : nat) (t : Task) :
  single_live_request s ->
  abort_current s !! k = Some t ->
  aborted t = true.
Proof.
  intros Inv Hk. unfold abort_current in Hk.
  destruct (reqCtrl s) as [j|] eqn:Hr.
  - destruct (Nat.eq_dec j k) as [->|NE].
    + rewrite list_lookup_alter_eq in Hk.
      destruct (tasks s !! k); [|discriminate]. simpl in Hk. now injection Hk as <-.
    + rewrite list_lookup_alter_ne in Hk by exact NE.
      destruct (aborted t) eqn:E; [reflexivity|].
      specialize (Inv k t Hk E). congruence.
  - destruct (aborted t) eqn:E; [reflexivity|].
    specialize (Inv k t Hk E). congruence.
Qed.

Lemma step_single_live_request (o : Opts) (net : Network) (sys : System) (e : Event) :
  single_live_request (sess sys) -> single_live_request (sess (step o net sys e)).
Proof.
  intros Inv k t Hk Ha. destruct e as [f|k' w|]; simpl in *.
  - destruct (vad_step o (seg sys) f) as [st [snap|]]; simpl in *; [|exact (Inv k t Hk Ha)].
    unfold finalizeSegment in *.
    destruct (gate o snap); simpl in *; try exact (Inv k t Hk Ha).
    destruct (Nat.lt_ge_cases k (length (abort_current (sess sys)))) as [L|L].
    + rewrite lookup_app_l in Hk by exact L.
      pose proof (abort_current_all_aborted _ _ _ Inv Hk). congruence.
    + rewrite lookup_app_r in Hk by exact L.
      destruct (k - length (abort_current (sess sys)))%nat as [|n] eqn:E;
        [|now destruct n].
      f_equal. lia.
  - unfold settle in *.
    destruct (tasks (sess sys) !! k') as [t0|] eqn:E0; [|exact (Inv k t Hk Ha)].
    pose proof (settle_task_aborted o (net k') t0 w) as Hab.
    destruct (settle_task o (net k') t0 w) as [t' cbs]. simpl in *.
    destruct (Nat.eq_dec k' k) as [->|NE].
    + rewrite list_lookup_insert_eq in Hk by (eapply lookup_lt_Some; eauto).
      injection Hk as <-. apply (Inv k t0 E0). congruence.
    + rewrite list_lookup_insert_ne in Hk by exact NE. exact (Inv k t Hk Ha).
  - pose proof (abort_current_all_aborted _ _ _ Inv Hk). congruence.
Qed.

(** At most one request of a session has a live signal: each upload and the
    teardown abort the one before. *)
Lemma reachable_single_live_request (o : Opts) (net : Network) (es : list Event) :
  single_live_request (sess (run o net initial es)).
Proof.
  unfold run.
  assert (G : forall sys, single_live_request (sess sys) ->
                single_live_request (sess (fold_left (step o net) es sys))).
  { induction es as [|e es IH]; intros sys H; simpl; [exact H|].
    apply IH. now apply step_single_live_request. }
  apply G. intros k t Hk. discriminate Hk.
Qed.

(** The teardown, or the upload of a next segment, while the transcription
    of task [k] is pending (the fetch, the back-off timer or the body):
    task [k] is aborted and never makes a callback. *)
Lemma superseded_transcription_is_silent (o : Opts) (net : Network)
    (es0 es : list Event) (k : nat) (c : Call) (e : Event) :
  let sys := run o net initial es0 in
  phase_of (sess sys) k = Some (Stt c) ->
  aborting o sys e ->
  aborted_of (sess (step o net sys e)) k = Some true
  /\ phase_of (sess (step o net sys e)) k = Some (Stt c)
  /\ callbacks_of k (sess (run o net (step o net sys e) es)) = [].
Proof.
  intros sys Hp He.
  apply phase_of_Some in Hp as (t & Ht & Hp).
  pose proof (reachable_single_live_request o net es0) as Live. fold sys in Live.
  assert (L : exists t', tasks (sess (step o net sys e)) !! k = Some t'
                         /\ aborted t' = true /\ phase t' = Stt c).
  { destruct (aborted t) eqn:Ha.
    - destruct e as [f|k' w|]; simpl in *.
      + destruct He as (snap & wav & st & Hs & Hg).
        destruct (vad_step o (seg sys) f) as [sg em]. simpl in Hs. subst em. simpl.
        destruct (finalizeSegment_lookup o snap (sess sys) k t Ht) as [E|E];
          rewrite E; eauto.
      + contradiction.
      + destruct (abort_current_lookup (sess sys) k t Ht) as [E|E];
          rewrite E; eauto.
    - pose proof (Live k t Ht Ha) as Hr.
      exists (with_abort t). split; [|split; [reflexivity | exact Hp]].
      destruct e as [f|k' w|]; simpl in *.
      + destruct He as (snap & wav & st & Hs & Hg).
        destruct (vad_step o (seg sys) f) as [sg em]. simpl in Hs. subst em. simpl.
        eapply superseding_segment_aborts; eauto.
      + contradiction.
      + now apply cleanup_aborts. }
  destruct L as (t' & L & A & P).
  assert (HA : aborted_of (sess (step o net sys e)) k = Some true)
    by (unfold aborted_of; rewrite L; simpl; now rewrite A).
  assert (HP : phase_of (sess (step o net sys e)) k = Some (Stt c))
    by (unfold phase_of; rewrite L; simpl; now rewrite P).
  split; [exact HA|]. split; [exact HP|].
  assert (R : step o net sys e = run o net initial (es0 ++ [e])).
  { unfold sys, run. now rewrite fold_left_app. }
  rewrite R in *.
  now apply (aborted_transcription_is_silent o net (es0 ++ [e]) es k c).
Qed.

(** C1, at the failing input.  Default options, one target [en], every
    request succeeding.  A first utterance is uploaded, its transcription
    returns "hello" and the translation to [en] is requested.  While that
    request is pending a second utterance is uploaded (or the session is
    torn down): the first task's signal is aborted and nothing has been
    delivered yet.  The aborted translation then rejects twice with
    [AbortError], the runner's [catch {}] swallows it, and the aborted task
    calls [onResult] with the transcript and no translation. *)
Theorem C1_onResult_after_abort :
  let o := default_opts [lang_en] in
  let net := always_ok text_hello (fun lang => lang) in
  let first := utterance ++ [EvSettle 0 0; EvSettle 0 0] in
  let late := [EvSettle 0 0; EvSettle 0 0; EvSettle 0 0] in
  let sys1 := run o net initial first in
  phase_of (sess sys1) 0
  = Some (Translating text_hello
            {| queue := []; results := []; workers := [Busy lang_en (AwaitFetch 0)] |})
  /\ aborted_of (sess sys1) 0 = Some false
  /\ (let sys2 := run o net sys1 utterance in
      aborted_of (sess sys2) 0 = Some true
      /\ reqCtrl (sess sys2) = Some 1%nat
      /\ log (sess sys2) = []
      /\ log (sess (run o net sys2 late)) = [(0%nat, OnResult text_hello [])])
  /\ (let sys2 := run o net sys1 [EvCleanup] in
      aborted_of (sess sys2) 0 = Some true
      /\ reqCtrl (sess sys2) = None
      /\ log (sess sys2) = []
      /\ log (sess (run o net sys2 late)) = [(0%nat, OnResult text_hello [])]).
Proof.
  cbv zeta. repeat split; reflexivity.
Qed.

(* ===================================================================== *)
(** ** Blank answers *)
(* ===================================================================== *)

Lemma settle_worker_blank (ab : bool) answers (p : Pool) (w : nat) (lang : jsstring)
    (text : option jsstring) :
  blank (text_or_empty text) = true ->
  workers p !! w = Some (Busy lang (AwaitJson (Json text))) ->
  settle_worker ab answers p w = next_target p w (results p).
Proof.
  intros Hb Hw. unfold settle_worker. rewrite Hw. simpl.
  unfold json_result. destruct ab; [reflexivity|].
  unfold trimmed_text. apply trim_nil_iff in Hb. rewrite Hb. reflexivity.
Qed.

Lemma settle_worker_failed_body (ab : bool) answers (p : Pool) (w : nat) (lang : jsstring)
    (c : Call) (msg : jsstring) :
  workers p !! w = Some (Busy lang c) ->
  settle_worker ab answers
    {| queue := queue p; results := results p;
       workers := <[w := Busy lang (AwaitJson (BadJson msg))]> (workers p) |} w
  = next_target p w (results p).
Proof.
  intros Hw. pose proof (lookup_lt_Some _ _ _ Hw) as Hlt.
  unfold settle_worker. simpl.
  rewrite list_lookup_insert_eq by exact Hlt. simpl.
  unfold json_result, next_target. simpl.
  destruct ab; destruct (pull (queue p)); simpl; now rewrite list_insert_insert_eq.
Qed.

Lemma translateOne_blank answers (lang : jsstring) (text : option jsstring) :
  blank (text_or_empty text) = true ->
  request (answers (Translate lang)) 2 = inr text ->
  translateOne answers lang = None.
Proof.
  intros Hb Hr. unfold translateOne. rewrite Hr.
  unfold trimmed_text. apply trim_nil_iff in Hb. rewrite Hb. reflexivity.
Qed.

(** C10.  Let [text] be empty or made of white space only.
    (1) A runner that awaits a translation body with that text leaves the
    pool as a runner whose body fails to parse does: nothing is pushed and
    the runner takes the next target; the whole task steps alike.
    (2) [translateOne] has no entry for a target answered with that text,
    so the target is absent from the translations in target order.
    (3) A transcript with that text ends [finalizeSegment] with no callback
    and no translation, exactly as the empty transcript does. *)
Theorem C10_blank_text_is_dropped (o : Opts) (answers : Endpoint -> nat -> FetchOutcome)
    (t t0 : Task) (transcript : jsstring) (p : Pool) (w : nat) (lang : jsstring)
    (text : option jsstring) (msg : jsstring) (outs : list jsstring) :
  blank (text_or_empty text) = true ->
  let failing := {| queue := queue p; results := results p;
                    workers := <[w := Busy lang (AwaitJson (BadJson msg))]> (workers p) |} in
  (workers p !! w = Some (Busy lang (AwaitJson (Json text))) ->
   settle_worker (aborted t) answers p w = next_target p w (results p)
   /\ settle_worker (aborted t) answers p w = settle_worker (aborted t) answers failing w
   /\ (phase t = Translating transcript p ->
       settle_task o answers t w
       = settle_task o answers (with_phase t (Translating transcript failing)) w))
  /\ (request (answers (Translate lang)) 2 = inr text ->
      translateOne answers lang = None
      /\ ~ In lang (map fst (in_target_order answers outs)))
  /\ (phase t0 = Stt (AwaitJson (Json text)) ->
      settle_task o answers t0 w = (with_phase t0 Finished, [])
      /\ settle_task o answers t0 w
         = settle_task o answers (with_phase t0 (Stt (AwaitJson (Json (Some []))))) w).
Proof.
  intros Hb failing. split; [|split].
  - intros Hw.
    pose proof (settle_worker_blank (aborted t) answers p w lang text Hb Hw) as E1.
    pose proof (settle_worker_failed_body (aborted t) answers p w lang _ msg Hw) as E2.
    fold failing in E2.
    split; [exact E1|]. split; [now rewrite E1, E2|].
    intros Hp. unfold settle_task. rewrite Hp. simpl. rewrite E1, E2.
    destruct (deliver o transcript (next_target p w (results p))). reflexivity.
  - intros Hr.
    pose proof (translateOne_blank answers lang text Hb Hr) as E.
    split; [exact E|].
    intros Hin. apply in_map_iff in Hin as (x & Hx & Hin).
    apply list_elem_of_In, in_target_order_elem in Hin as [_ Tx].
    rewrite Hx, E in Tx. discriminate.
  - intros Hp.
    rewrite (settle_task_blank_transcript o answers t0 w text Hp Hb).
    split; [reflexivity|].
    rewrite (settle_task_blank_transcript o answers
               (with_phase t0 (Stt (AwaitJson (Json (Some []))))) w (Some []));
      reflexivity.
Qed.

(* ===================================================================== *)
(** ** One task inside the session *)
(* ===================================================================== *)

(** Settling only promises of task [k] runs that task on its own. *)
Lemma run_settle_events (o : Opts) (net : Network) (k : nat) (ws : list nat) :
  forall (sys : System) (t : Task),
    tasks (sess sys) !! k = Some t ->
    tasks (sess (run o net sys (map (EvSettle k) ws))) !! k
    = Some (fst (run_task o (net k) t ws))
    /\ log (sess (run o net sys (map (EvSettle k) ws)))
       = log (sess sys) ++ map (pair k) (snd (run_task o (net k) t ws)).
Proof.
  unfold run. induction ws as [|w ws IH]; intros sys t Ht; simpl.
  - now rewrite app_nil_r.
  - unfold settle. rewrite Ht.
    destruct (settle_task o (net k) t w) as [t1 c1] eqn:E1.
    set (sys1 := {| seg := seg sys;
                    sess := {| tasks := <[k := t1]> (tasks (sess sys));
                               reqCtrl := reqCtrl (sess sys);
                               log := log (sess sys) ++ map (pair k) c1 |} |}).
    assert (H1 : tasks (sess sys1) !! k = Some t1).
    { simpl. apply list_lookup_insert_eq. eapply lookup_lt_Some; eauto. }
    destruct (IH sys1 t1 H1) as [L1 L2].
    destruct (run_task o (net k) t1 ws) as [t2 c2]. simpl in *.
    split; [exact L1|]. rewrite L2, map_app. now rewrite app_assoc.
Qed.

(* ===================================================================== *)
(** ** The theorems at concrete inputs *)
(* ===================================================================== *)

(** Three translations, the last target answering first. *)
Lemma C2_witness :
  snd (run_task (default_opts [lang_en; lang_ja; lang_ko])
                (always_ok text_hello (fun lang => lang) 0%nat)
                (awaiting_transcript (Some text_hello))
                [0; 2; 2; 1; 1; 0; 0]%nat)
  = [OnResult text_hello
       [(lang_en, lang_en); (lang_ja, lang_ja); (lang_ko, lang_ko)]].
Proof.
  destruct (C2_translations_in_target_order
              (default_opts [lang_en; lang_ja; lang_ko])
              (always_ok text_hello (fun lang => lang) 0%nat)
              (awaiting_transcript (Some text_hello)) (Some text_hello)
              0%nat [2; 2; 1; 1; 0; 0]%nat) as [[[_ H] | [[p Hp] _]] _].
  - apply (bool_decide_unpack _). vm_compute. exact I.
  - repeat constructor.
  - reflexivity.
  - reflexivity.
  - reflexivity.
  - exact H.
  - vm_compute in Hp. discriminate Hp.
Defined.

(** Forty steady frames of 128 ms at energy 0.05: the cut comes with the
    fortieth, at 5120 ms. *)
Lemma C3_witness :
  vad_run (default_opts []) resetSegmentState
          (steady (1 # 20) :: replicate 38 (steady (1 # 20)) ++ [steady (1 # 20)])
  = (resetSegmentState,
     [{| snap_frames := map down (replicate 40 (steady (1 # 20)));
         snap_durMs := total_ms (replicate 40 (steady (1 # 20)));
         snap_voicedMs := total_ms (replicate 40 (steady (1 # 20))) |}]).
Proof.
  destruct (C3_forced_cut_at_max (default_opts []) (steady (1 # 20))
              (replicate 38 (steady (1 # 20))) (steady (1 # 20)) (steady (1 # 20)))
    as (_ & H & _).
  - vm_compute. discriminate.
  - apply Forall_app. split; [apply Forall_replicate | repeat constructor];
      vm_compute; discriminate.
  - right. vm_compute. reflexivity.
  - vm_compute. discriminate.
  - vm_compute. discriminate.
  - exact H.
Defined.

(** Energies wandering between [vadGateLow] and [vadGateHigh], with a stray
    settle event and a teardown in between. *)
Lemma C4_witness :
  run (default_opts [lang_en]) (always_ok text_hello (fun lang => lang)) initial
      [EvAudio (steady (5 # 1000)); EvAudio (steady (9 # 1000)); EvSettle 0 0;
       EvAudio (steady (45 # 10000)); EvCleanup; EvAudio (steady (99 # 10000))]
  = initial.
Proof.
  apply (C4_below_gateHigh_stays_idle (default_opts [lang_en])
           (always_ok text_hello (fun lang => lang))).
  repeat (constructor; [first [exact I | vm_compute; reflexivity] |]).
  constructor.
Defined.

(** Half a second of speech is dropped at the duration test. *)
Lemma C5_witness :
  gate (default_opts [])
       {| snap_frames := [replicate 2048 (1 # 20)]; snap_durMs := 500;
          snap_voicedMs := 500 |}
  = DropShort.
Proof.
  apply (C5_short_segment_discarded (default_opts [])
           {| snap_frames := [replicate 2048 (1 # 20)]; snap_durMs := 500;
              snap_voicedMs := 500 |} empty_session).
  - discriminate.
  - vm_compute. reflexivity.
Defined.


(** An utterance whose transcription answers with the empty text. *)
Lemma C7_witness :
  callbacks_of 0
    (sess (run (default_opts [lang_en]) (always_ok [] (fun lang => lang))
             (step (default_opts [lang_en]) (always_ok [] (fun lang => lang))
                (run (default_opts [lang_en]) (always_ok [] (fun lang => lang))
                   initial (utterance ++ [EvSettle 0 0]))
                (EvSettle 0 0))
             [EvSettle 0 0; EvAudio (steady 0); EvSettle 0 1; EvCleanup]))
  = [].
Proof.
  apply (C7_empty_transcript_is_silent (default_opts [lang_en])
           (always_ok [] (fun lang => lang))
           (utterance ++ [EvSettle 0 0])
           [EvSettle 0 0; EvAudio (steady 0); EvSettle 0 1; EvCleanup]
           0%nat 0%nat (Some [])).
  - reflexivity.
  - reflexivity.
Defined.


(** A translation answered with a space and a tab. *)
Lemma C10_witness :
  translateOne (always_ok text_hello (fun _ => [32; 9]%N) 0%nat) lang_en = None.
Proof.
  destruct (C10_blank_text_is_dropped (default_opts [lang_en])
              (always_ok text_hello (fun _ => [32; 9]%N) 0%nat)
              (awaiting_transcript None) (awaiting_transcript (Some [32; 9]%N))
              text_hello
              {| queue := []; results := [];
                 workers := [Busy lang_en (AwaitJson (Json (Some [32; 9]%N)))] |}
              0%nat lang_en (Some [32; 9]%N) [] [lang_en]) as (_ & H & _).
  - reflexivity.
  - apply H. reflexivity.
Defined.

(* ===================================================================== *)
(** ** The helpers on small inputs *)
(* ===================================================================== *)

(** " hi\n" trims to "hi"; a no-break space and a tab trim to nothing. *)
Example trim_hi : trim [32; 104; 105; 10]%N = [104; 105]%N.
Proof. reflexivity. Qed.

Example trim_spaces : trim [160; 9]%N = [].
Proof. reflexivity. Qed.

(** Upsampling from 8 kHz: every second group is empty and yields 0. *)
Example downsample_from_8k :
  downsampleTo16k [1; 2]%Q 8000 = Some [1; 0; 2; 0]%Q.
Proof. vm_compute. reflexivity. Qed.

(** A rate of zero asks for an infinite buffer. *)
Example downsample_rate_zero : downsampleTo16k [1; 2]%Q 0 = None.
Proof. vm_compute. reflexivity. Qed.

(** Clamping, the two scales and the truncation toward zero. *)
Example pcm_samples :
  floatTo16BitPCM [1; -1; 1 # 2; -1 # 2; 2; -2; 0]%Q
  = [32767; -32768; 16383; -16384; 32767; -32768; 0].
Proof. reflexivity. Qed.

(** The container of one sample of value -2 (bytes FE FF). *)
Example wav_of_one_sample :
  encodeWav [-2] 16000
  = [82; 73; 70; 70; 38; 0; 0; 0; 87; 65; 86; 69; 102; 109; 116; 32;
     16; 0; 0; 0; 1; 0; 1; 0; 128; 62; 0; 0; 0; 125; 0; 0; 2; 0; 16; 0;
     100; 97; 116; 97; 2; 0; 0; 0; 254; 255].
Proof. reflexivity. Qed.

(** One second of speech at 0.05 and one silent frame, default options: the
    segment of 1152 ms is uploaded in one request. *)
Example one_utterance_one_request :
  let sys := run (default_opts []) (always_ok text_hello (fun lang => lang)) initial
                 (map EvAudio (replicate 8 (steady (1 # 20)) ++ [steady 0])) in
  length (tasks (sess sys)) = 1%nat
  /\ phase_of (sess sys) 0 = Some (Stt (AwaitFetch 0))
  /\ (st_durMs <$> (stats <$> tasks (sess sys) !! 0%nat)) = Some (total_ms (replicate 9 (steady 0)))
  /\ total_ms (replicate 9 (steady 0)) == 1152
  /\ seg sys = resetSegmentState.
Proof. cbv zeta. repeat split; reflexivity. Qed.

(** With no target, [onResult] follows the transcript at once. *)
Example no_target_delivers_at_once :
  log (sess (run (default_opts []) (always_ok text_hello (fun lang => lang)) initial
               (utterance ++ [EvSettle 0 0; EvSettle 0 0])))
  = [(0%nat, OnResult text_hello [])].
Proof. reflexivity. Qed.

(** A failed transcription is retried once, then reported. *)
Example transcription_fails_twice :
  log (sess (run (default_opts [lang_en])
               (fun _ _ _ => Response false [53; 48; 51]%N (BadJson []))
               initial
               (utterance ++ [EvSettle 0 0; EvSettle 0 0; EvSettle 0 0])))
  = [(0%nat, OnError (Failure [53; 48; 51]%N))].
Proof. reflexivity. Qed.

(* ===================================================================== *)
(** * More of the code *)
(* ===================================================================== *)

(** ** The two encoders and the container's own consistency *)

Lemma setUint16_1_is_writeString (view : list Z) (off : nat) :
  setUint16 view off 1 = writeString view off str_1_0.
Proof. reflexivity. Qed.

(** The encoder of the application's health check and the encoder of the
    microphone pipeline write the same bytes, for every buffer and every
    sample rate. *)
Theorem encodeWavFromFloat32_agrees (float32 : list Q) (sampleRate : Z) :
  encodeWavFromFloat32 float32 sampleRate
  = encodeWav (floatTo16BitPCM float32) sampleRate.
Proof.
  unfold encodeWavFromFloat32, encodeWav, floatTo16BitPCM.
  cbv zeta. rewrite !setUint16_1_is_writeString. reflexivity.
Qed.

Lemma wav_header_bytes (d r : Z) : Forall is_byte (wav_header d r).
Proof.
  unfold wav_header, le32, le16, str_RIFF, str_WAVE, str_fmt, str_data, is_byte.
  cbn [map app].
  repeat (constructor; [first [apply Z.mod_pos_bound; lia | simpl; lia] |]).
  constructor.
Qed.

Lemma payload_bytes (int16 : list Z) : Forall is_byte (flat_map le16 int16).
Proof.
  induction int16 as [|v l IH]; simpl; [constructor|].
  constructor; [apply Z.mod_pos_bound; lia|].
  constructor; [apply Z.mod_pos_bound; lia|]. exact IH.
Qed.

(** Below 4 GiB, and for a sample rate whose byte rate fits 32 bits, the
    container describes itself: every element is a byte, the RIFF size is
    the length less 8, the data size is the length less 44, the rate reads
    back, and the byte rate is the rate times the block alignment. *)
Theorem wav_sizes_consistent (int16 : list Z) (sampleRate : Z) :
  Z.of_nat (44 + 2 * length int16) < 4294967296 ->
  0 <= sampleRate ->
  2 * sampleRate < 4294967296 ->
  let wav := encodeWav int16 sampleRate in
  Forall is_byte wav
  /\ getUint32 wav 4 = Z.of_nat (length wav) - 8
  /\ getUint32 wav 40 = Z.of_nat (length wav) - 44
  /\ getUint32 wav 24 = sampleRate
  /\ getUint32 wav 28 = getUint32 wav 24 * getUint16 wav 32.
Proof.
  intros Hn Hr0 Hr wav.
  assert (L : length wav = (44 + 2 * length int16)%nat).
  { subst wav. rewrite encodeWav_layout, length_app, length_wav_header,
      length_flat_map_le16. reflexivity. }
  split.
  { subst wav. rewrite encodeWav_layout. apply Forall_app.
    split; [apply wav_header_bytes | apply payload_bytes]. }
  split.
  { subst wav. rewrite encodeWav_riffSize_field, L, Z.mod_small; lia. }
  split.
  { subst wav. rewrite encodeWav_dataSize_field, L, Z.mod_small; lia. }
  assert (R : getUint32 wav 24 = sampleRate).
  { subst wav. rewrite encodeWav_layout, getUint32_header by lia.
    change (getUint32 (wav_header (Z.of_nat (length int16) * 2) sampleRate) 24)
      with (let u := sampleRate mod 4294967296 in
            u mod 256 + 256 * (Z.shiftr u 8 mod 256) + 65536 * (Z.shiftr u 16 mod 256)
            + 16777216 * (Z.shiftr u 24 mod 256)).
    cbv zeta. rewrite le32_value by (apply Z.mod_pos_bound; lia).
    apply Z.mod_small. lia. }
  split; [exact R|].
  rewrite R. subst wav.
  rewrite encodeWav_layout, getUint32_header, getUint16_header by lia.
  change (getUint16 (wav_header (Z.of_nat (length int16) * 2) sampleRate) 32) with 2.
  change (getUint32 (wav_header (Z.of_nat (length int16) * 2) sampleRate) 28)
    with (let u := (sampleRate * 2) mod 4294967296 in
          u mod 256 + 256 * (Z.shiftr u 8 mod 256) + 65536 * (Z.shiftr u 16 mod 256)
          + 16777216 * (Z.shiftr u 24 mod 256)).
  cbv zeta. rewrite le32_value by (apply Z.mod_pos_bound; lia).
  apply Z.mod_small. lia.
Qed.

(** ** The pre-gain loop *)

Lemma fl64_one : fl64 1 == 1.
Proof. apply fl64_exact. now apply (is_f64_Z 1). Qed.

Lemma fl64_minus_one : fl64 (-1) == -1.
Proof. apply fl64_exact. now apply (is_f64_Z (-1)). Qed.

Lemma fl32_one : fl32 1 == 1.
Proof. apply fl32_exact. now apply (is_f32_Z 1). Qed.

Lemma fl32_minus_one : fl32 (-1) == -1.
Proof. apply fl32_exact. now apply (is_f32_Z (-1)). Qed.

Lemma fl32_unit_range (v : Q) :
  (-1 <= v)%Q -> (v <= 1)%Q -> (-1 <= fl32 v)%Q /\ (fl32 v <= 1)%Q.
Proof.
  intros Hl Hh. split.
  - rewrite <- fl32_minus_one. now apply fl32_le.
  - rewrite <- fl32_one. now apply fl32_le.
Qed.

Lemma gain1_range (g x : Q) : (-1 <= gain1 g x)%Q /\ (gain1 g x <= 1)%Q.
Proof.
  unfold gain1.
  destruct (Qlt_bool 1 (fl64 (x * g))) eqn:E1; [split; discriminate|].
  destruct (Qlt_bool (fl64 (x * g)) (-1)) eqn:E2; [split; discriminate|].
  apply Qlt_bool_false_iff in E1, E2. now apply fl32_unit_range.
Qed.

Lemma gain1_unclipped (g x : Q) :
  (-1 <= x * g)%Q -> (x * g <= 1)%Q -> gain1 g x = fl32 (fl64 (x * g)).
Proof.
  intros Hl Hh. unfold gain1.
  assert (H1 : (fl64 (x * g) <= 1)%Q) by (rewrite <- fl64_one; now apply fl64_le).
  assert (H2 : (-1 <= fl64 (x * g))%Q) by (rewrite <- fl64_minus_one; now apply fl64_le).
  apply Qlt_bool_false_iff in H1, H2. now rewrite H1, H2.
Qed.

(** With a gain other than 1 the frame keeps its length, every sample ends
    in [-1, 1], and a sample whose product with the gain is already there is
    that product, a number, stored as a single; with a gain of 1 the frame
    is left alone, whatever it holds. *)
Theorem preGain_clips (g : Q) (frame : list Q) :
  length (applyGain g frame) = length frame
  /\ (g == 1 -> applyGain g frame = frame)
  /\ (~ g == 1 ->
      Forall (fun y => (-1 <= y)%Q /\ (y <= 1)%Q) (applyGain g frame)
      /\ forall i x, frame !! i = Some x ->
           (-1 <= x * g)%Q -> (x * g <= 1)%Q ->
           applyGain g frame !! i = Some (fl32 (fl64 (x * g)))).
Proof.
  unfold applyGain.
  destruct (Qeq_bool g 1) eqn:E.
  - apply Qeq_bool_iff in E. split; [reflexivity|]. split; [reflexivity|].
    intros NE. contradiction.
  - split; [apply length_map|]. split.
    + intros H. apply Qeq_bool_iff in H. congruence.
    + intros _. split.
      * apply Forall_forall. intros y Hy.
        apply list_elem_of_In, in_map_iff in Hy as (x & <- & _).
        apply gain1_range.
      * intros i x Hi Hl Hh.
        change (map (gain1 g) frame) with (gain1 g <$> frame).
        rewrite list_lookup_fmap, Hi. simpl. f_equal. now apply gain1_unclipped.
Qed.

(** ** The peak of a segment *)

Lemma peak_fold_spec (l : list Q) : forall p0,
  (p0 <= fold_left (fun peak x => let a := Qabs x in if Qlt_bool peak a then a else peak) l p0)%Q
  /\ Forall (fun x => (Qabs x
       <= fold_left (fun peak x => let a := Qabs x in if Qlt_bool peak a then a else peak) l p0)%Q) l
  /\ (fold_left (fun peak x => let a := Qabs x in if Qlt_bool peak a then a else peak) l p0 = p0
      \/ exists x, In x l
         /\ fold_left (fun peak x => let a := Qabs x in if Qlt_bool peak a then a else peak) l p0
            = Qabs x).
Proof.
  induction l as [|x l IH]; intros p0; simpl.
  - split; [apply Qle_refl|]. split; [constructor | now left].
  - destruct (Qlt_bool p0 (Qabs x)) eqn:E.
    + apply Qlt_bool_iff in E.
      destruct (IH (Qabs x)) as (H1 & H2 & H3).
      split; [eapply Qle_trans; [apply Qlt_le_weak; exact E | exact H1]|].
      split; [constructor; [exact H1 | exact H2]|].
      right. destruct H3 as [H3 | (y & Hy & H3)].
      * exists x. auto.
      * exists y. auto.
    + apply Qlt_bool_false_iff in E.
      destruct (IH p0) as (H1 & H2 & H3).
      split; [exact H1|].
      split; [constructor; [eapply Qle_trans; [exact E | exact H1] | exact H2]|].
      destruct H3 as [H3 | (y & Hy & H3)]; [now left|].
      right. exists y. auto.
Qed.

(** The peak sent with a segment is the largest absolute sample value: no
    sample exceeds it, and it is 0 or the absolute value of some sample. *)
Theorem peak_is_largest (merged : list Q) :
  Forall (fun x => (Qabs x <= peak_of merged)%Q) merged
  /\ (0 <= peak_of merged)%Q
  /\ (peak_of merged = 0%Q \/ exists x, In x merged /\ peak_of merged = Qabs x).
Proof.
  destruct (peak_fold_spec merged 0%Q) as (H1 & H2 & H3).
  unfold peak_of. auto.
Qed.

(** ** The segmenter's accounts *)

Lemma frames_ms_snoc (frames : list (list Q)) (f : Frame) :
  frames_ms (frames ++ [down f]) = add_ms (frames_ms frames) f.
Proof.
  unfold frames_ms. now rewrite fold_left_app.
Qed.

Lemma frames_ms_is_f64 (frames : list (list Q)) : is_f64 (frames_ms frames).
Proof.
  induction frames as [|d frames _] using rev_ind.
  - exact is_f64_0.
  - unfold frames_ms. rewrite fold_left_app. simpl. apply fadd_is_f64.
Qed.

Lemma snoc_not_nil {A : Type} (l : list A) (x : A) : l ++ [x] <> [].
Proof. intros E. now apply app_eq_nil in E as [_ ?]. Qed.

Lemma vad_step_consistent (o : Opts) (st : SegState) (f : Frame) :
  seg_consistent st -> seg_consistent (fst (vad_step o st f)).
Proof.
  unfold seg_consistent, vad_step.
  destruct (speaking st) eqn:Hs; simpl.
  - intros (Hne & Hd & Hv0 & Hv & Hz0 & Hz).
    assert (Fd : is_f64 (segDurMs st)) by (rewrite Hd; apply frames_ms_is_f64).
    pose proof (add_ms_ge (segDurMs st) f Fd) as Hge.
    destruct (Qlt_bool (energy f) (vadGateLow o)).
    + destruct (_ || _); simpl; [reflexivity|].
      split; [apply snoc_not_nil|].
      split; [now rewrite frames_ms_snoc, Hd|].
      split; [exact Hv0|]. split; [lra|].
      split; [now apply add_ms_nonneg | now apply add_ms_mono].
    + destruct (Qle_bool _ _); simpl; [reflexivity|].
      split; [apply snoc_not_nil|].
      split; [now rewrite frames_ms_snoc, Hd|].
      split; [now apply add_ms_nonneg|]. split; [now apply add_ms_mono|].
      split; [apply Qle_refl|]. apply add_ms_nonneg. lra.
  - intros ->. simpl.
    destruct (Qle_bool _ _); simpl; [|reflexivity].
    split; [discriminate|].
    split; [reflexivity|].
    assert (0 <= add_ms 0 f)%Q by (apply add_ms_nonneg; apply Qle_refl).
    split; [assumption|]. split; [apply Qle_refl|].
    split; [apply Qle_refl | assumption].
Qed.

Lemma vad_step_bounded (o : Opts) (st : SegState) (f : Frame) :
  seg_consistent st -> seg_bounded o (fst (vad_step o st f)).
Proof.
  unfold seg_consistent, seg_bounded, vad_step.
  destruct (speaking st) eqn:Hs; simpl.
  - intros _.
    destruct (Qlt_bool (energy f) (vadGateLow o)).
    + destruct (Qle_bool (padMs o) _) eqn:Ep; simpl; [discriminate|].
      destruct (Qle_bool (maxSegmentMs o) _) eqn:Em; simpl; [discriminate|].
      intros _. apply Qle_bool_false_iff in Ep, Em. auto.
    + destruct (Qle_bool (maxSegmentMs o) _) eqn:Em; simpl; [discriminate|].
      intros _. apply Qle_bool_false_iff in Em. auto.
  - intros ->. simpl.
    destruct (Qle_bool _ _); simpl; [|discriminate].
    intros _. auto.
Qed.

Lemma step_seg (o : Opts) (net : Network) (sys : System) (e : Event) :
  seg (step o net sys e)
  = match e with
    | EvAudio f => fst (vad_step o (seg sys) f)
    | EvSettle _ _ => seg sys
    | EvCleanup => resetSegmentState
    end.
Proof.
  destruct e as [f|k w|]; simpl; try reflexivity.
  now destruct (vad_step o (seg sys) f).
Qed.

Lemma reachable_seg (o : Opts) (net : Network) (es : list Event) :
  seg_consistent (seg (run o net initial es))
  /\ seg_bounded o (seg (run o net initial es)).
Proof.
  unfold run.
  assert (G : forall sys,
            seg_consistent (seg sys) /\ seg_bounded o (seg sys) ->
            seg_consistent (seg (fold_left (step o net) es sys))
            /\ seg_bounded o (seg (fold_left (step o net) es sys))).
  { induction es as [|e es IH]; intros sys H; simpl; [exact H|].
    apply IH. rewrite step_seg. destruct H as [Hc Hb].
    destruct e as [f|k w|].
    - split; [now apply vad_step_consistent | now apply vad_step_bounded].
    - auto.
    - split; [reflexivity | discriminate]. }
  apply G. split; [reflexivity | discriminate].
Qed.

(** Whatever has happened, the five refs agree with one another.  When
    the segmenter is idle they are all reset.  While it speaks, the buffer
    holds at least one frame, [segDurMs] is what the durations of the
    buffered frames sum to, added one by one as numbers, and the voiced
    time and the trailing silence each lie between 0 and [segDurMs]. *)
Theorem segmenter_accounts_agree (o : Opts) (net : Network) (es : list Event) :
  let st := seg (run o net initial es) in
  (speaking st = false /\ st = resetSegmentState)
  \/ (speaking st = true
      /\ segFrames st <> []
      /\ segDurMs st = frames_ms (segFrames st)
      /\ (0 <= voicedMs st)%Q /\ (voicedMs st <= segDurMs st)%Q
      /\ (0 <= silenceMs st)%Q /\ (silenceMs st <= segDurMs st)%Q).
Proof.
  intros st. destruct (reachable_seg o net es) as [Hc _]. fold st in Hc.
  unfold seg_consistent in Hc.
  destruct (speaking st) eqn:Hs; [right | left]; auto.
Qed.


Lemma vad_step_snapshot (o : Opts) (st : SegState) (f : Frame)
    (st' : SegState) (snap : Snapshot) :
  seg_consistent st ->
  vad_step o st f = (st', Some snap) ->
  st' = resetSegmentState
  /\ snap_frames snap <> []
  /\ snap_durMs snap = frames_ms (snap_frames snap)
  /\ (0 <= snap_voicedMs snap)%Q
  /\ (snap_voicedMs snap <= snap_durMs snap)%Q
  /\ ((maxSegmentMs o <= snap_durMs snap)%Q
      \/ (silent o f
          /\ (padMs o <= add_ms (silenceMs st) f)%Q
          /\ (padMs o <= snap_durMs snap)%Q)).
Proof.
  intros Hc.
  unfold seg_consistent in Hc. unfold vad_step.
  destruct (speaking st) eqn:Hs; simpl.
  - destruct Hc as (Hne & Hd & Hv0 & Hv & Hz0 & Hz).
    assert (Fd : is_f64 (segDurMs st)) by (rewrite Hd; apply frames_ms_is_f64).
    pose proof (add_ms_ge (segDurMs st) f Fd) as Hge.
    destruct (Qlt_bool (energy f) (vadGateLow o)) eqn:Eq.
    + apply Qlt_bool_iff in Eq.
      destruct (Qle_bool (padMs o) _) eqn:Ep; simpl.
      * intros [= <- <-]. simpl. apply Qle_bool_iff in Ep.
        split; [reflexivity|].
        split; [apply snoc_not_nil|].
        split; [now rewrite frames_ms_snoc, Hd|].
        split; [exact Hv0|]. split; [lra|]. right.
        split; [exact Eq|]. split; [exact Ep|].
        eapply Qle_trans; [exact Ep|]. now apply add_ms_mono.
      * destruct (Qle_bool (maxSegmentMs o) _) eqn:Em; simpl; [|discriminate].
        intros [= <- <-]. simpl. apply Qle_bool_iff in Em.
        split; [reflexivity|].
        split; [apply snoc_not_nil|].
        split; [now rewrite frames_ms_snoc, Hd|].
        split; [exact Hv0|]. split; [lra|]. left. exact Em.
    + destruct (Qle_bool (maxSegmentMs o) _) eqn:Em; simpl; [|discriminate].
      intros [= <- <-]. simpl. apply Qle_bool_iff in Em.
      split; [reflexivity|].
      split; [apply snoc_not_nil|].
      split; [now rewrite frames_ms_snoc, Hd|].
      split; [now apply add_ms_nonneg|]. split; [now apply add_ms_mono|].
      left. exact Em.
  - destruct (Qle_bool _ _); discriminate.
Qed.

(** Whenever the audio callback hands a segment to [finalizeSegment], it
    resets the refs, and what it hands over is sound: at least one frame, a
    duration that is what the durations of the frames sum to, a voiced time
    between 0 and the duration, and one of the two reasons to end: the
    duration has reached [maxSegmentMs], or the frame is silent and the
    trailing silence, itself no more than the duration, has reached
    [padMs]. *)
Theorem handed_over_segment_is_sound (o : Opts) (net : Network) (es : list Event)
    (f : Frame) (st' : SegState) (snap : Snapshot) :
  vad_step o (seg (run o net initial es)) f = (st', Some snap) ->
  st' = resetSegmentState
  /\ snap_frames snap <> []
  /\ snap_durMs snap = frames_ms (snap_frames snap)
  /\ (0 <= snap_voicedMs snap)%Q
  /\ (snap_voicedMs snap <= snap_durMs snap)%Q
  /\ ((maxSegmentMs o <= snap_durMs snap)%Q
      \/ (silent o f
          /\ (padMs o <= add_ms (silenceMs (seg (run o net initial es))) f)%Q
          /\ (padMs o <= snap_durMs snap)%Q)).
Proof.
  apply vad_step_snapshot. apply (reachable_seg o net es).
Qed.

(** ** Pauses *)

Lemma silent_over_nil (st : SegState) :
  speaking st = true -> silent_over st [] = st.
Proof.
  destruct st as [fr d s sp v]; simpl; intros ->.
  unfold silent_over; simpl. now rewrite app_nil_r.
Qed.

Lemma silent_over_cons (st : SegState) (f : Frame) (fs : list Frame) :
  silent_over st (f :: fs) = silent_over (silent_over st [f]) fs.
Proof.
  unfold silent_over; simpl. now rewrite <- app_assoc.
Qed.

Lemma vad_step_silent_below (o : Opts) (st : SegState) (f : Frame) :
  speaking st = true ->
  silent o f ->
  (add_ms (silenceMs st) f < padMs o)%Q ->
  (add_ms (segDurMs st) f < maxSegmentMs o)%Q ->
  vad_step o st f = (silent_over st [f], None).
Proof.
  intros Hs Hq Hp Hm. unfold vad_step. rewrite Hs. simpl.
  apply Qlt_bool_iff in Hq. rewrite Hq.
  apply Qle_bool_false_iff in Hp, Hm. rewrite Hp, Hm. reflexivity.
Qed.

Lemma vad_step_silent_cut (o : Opts) (st : SegState) (f : Frame) :
  speaking st = true ->
  silent o f ->
  (padMs o <= add_ms (silenceMs st) f)%Q
  \/ (maxSegmentMs o <= add_ms (segDurMs st) f)%Q ->
  vad_step o st f = (resetSegmentState, Some (snapshot (silent_over st [f]))).
Proof.
  intros Hs Hq Hc. unfold vad_step. rewrite Hs. simpl.
  apply Qlt_bool_iff in Hq. rewrite Hq.
  assert (E : Qle_bool (padMs o) (add_ms (silenceMs st) f)
              || Qle_bool (maxSegmentMs o) (add_ms (segDurMs st) f) = true).
  { apply orb_true_iff. destruct Hc as [H|H]; [left | right]; now apply Qle_bool_iff. }
  rewrite E. reflexivity.
Qed.

Lemma vad_run_silent_below (o : Opts) : forall (fs : list Frame) (st : SegState),
  speaking st = true ->
  Forall (silent o) fs ->
  (fs = [] \/ (fold_left add_ms fs (silenceMs st) < padMs o)%Q) ->
  (fs = [] \/ (fold_left add_ms fs (segDurMs st) < maxSegmentMs o)%Q) ->
  vad_run o st fs = (silent_over st fs, []).
Proof.
  induction fs as [|f fs IH]; intros st Hs Hq Hp Hm.
  - simpl. now rewrite silent_over_nil.
  - destruct Hp as [Hp|Hp]; [discriminate|].
    destruct Hm as [Hm|Hm]; [discriminate|].
    apply Forall_cons in Hq as [Hf Hq].
    simpl in Hp, Hm. cbn [vad_run].
    assert (Hp1 : (add_ms (silenceMs st) f < padMs o)%Q).
    { eapply Qle_lt_trans; [|exact Hp].
      apply (add_ms_le fs (add_ms (silenceMs st) f)), add_ms_is_f64. }
    assert (Hm1 : (add_ms (segDurMs st) f < maxSegmentMs o)%Q).
    { eapply Qle_lt_trans; [|exact Hm].
      apply (add_ms_le fs (add_ms (segDurMs st) f)), add_ms_is_f64. }
    rewrite (vad_step_silent_below o st f Hs Hf Hp1 Hm1).
    rewrite (IH (silent_over st [f]) eq_refl Hq (or_intror Hp) (or_intror Hm)).
    now rewrite <- silent_over_cons.
Qed.

(** Speech, then a pause of at least [padMs].  From idle, let [f1] reach
    [vadGateHigh], let the frames [speech] stay at or above [vadGateLow], and
    let the frames [pause ++ [last]] fall below it.  If the duration stays
    below [maxSegmentMs] up to [last], the silence of [pause] stays below
    [padMs] and the silence up to [last] reaches it, then nothing is handed
    over before [last]; at [last] the whole segment is, with the silence
    included in its duration and left out of its voiced time, and the
    segmenter is idle again.  Every duration here is the sum the callback
    keeps: frame by frame, each sum a number. *)
Theorem pause_ends_the_segment (o : Opts) (f1 : Frame) (speech pause : list Frame)
    (last : Frame) :
  (vadGateHigh o <= energy f1)%Q ->
  Forall (voiced o) speech ->
  Forall (silent o) (pause ++ [last]) ->
  (speech ++ pause = [] \/ (total_ms (f1 :: speech ++ pause) < maxSegmentMs o)%Q) ->
  (pause = [] \/ (total_ms pause < padMs o)%Q) ->
  (padMs o <= total_ms (pause ++ [last]))%Q ->
  let whole := f1 :: speech ++ pause ++ [last] in
  vad_run o resetSegmentState (f1 :: speech ++ pause)
  = (silent_over (speaking_over resetSegmentState (f1 :: speech)) pause, [])
  /\ vad_run o resetSegmentState whole
     = (resetSegmentState,
        [{| snap_frames := map down whole;
            snap_durMs := total_ms whole;
            snap_voicedMs := total_ms (f1 :: speech) |}]).
Proof.
  intros H1 Hv Hq Hmax Hpad Hcut whole.
  apply Forall_app in Hq as [Hpause Hlast].
  apply Forall_cons in Hlast as [Hlast _].
  set (sp := speaking_over resetSegmentState (f1 :: speech)).
  assert (Hsp : segDurMs sp = total_ms (f1 :: speech)) by reflexivity.
  assert (R1 : vad_run o resetSegmentState (f1 :: speech) = (sp, [])).
  { cbn [vad_run]. rewrite (vad_step_start o f1 H1).
    assert (Hb : speech = []
                 \/ (fold_left add_ms speech
                       (segDurMs (speaking_over resetSegmentState [f1]))
                     < maxSegmentMs o)%Q).
    { destruct speech as [|s speech]; [now left | right].
      destruct Hmax as [E|Hm]; [discriminate|].
      eapply Qle_lt_trans; [|exact Hm].
      unfold total_ms. rewrite app_comm_cons, fold_left_app.
      apply add_ms_le, fold_add_ms_is_f64, is_f64_0. }
    rewrite (vad_run_voiced_below_max o speech (speaking_over resetSegmentState [f1])
               eq_refl eq_refl Hv Hb).
    unfold sp. now rewrite <- speaking_over_cons. }
  assert (R2 : vad_run o sp pause = (silent_over sp pause, [])).
  { apply vad_run_silent_below; auto.
    destruct pause as [|q pause]; [now left | right].
    destruct Hmax as [E|Hm]; [now apply app_eq_nil in E as [_ ?]|].
    rewrite Hsp. unfold total_ms in *.
    rewrite app_comm_cons, fold_left_app in Hm. exact Hm. }
  assert (R12 : vad_run o resetSegmentState (f1 :: speech ++ pause)
                = (silent_over sp pause, [])).
  { rewrite app_comm_cons, vad_run_app, R1, R2. reflexivity. }
  split; [exact R12|].
  subst whole. rewrite app_assoc, app_comm_cons, vad_run_app, R12.
  cbn [vad_run].
  rewrite vad_step_silent_cut; auto.
  - unfold snapshot, silent_over, sp, speaking_over. simpl.
    rewrite ?map_app, <- ?app_assoc. simpl.
    unfold total_ms. simpl. rewrite ?fold_left_app. simpl.
    rewrite ?map_app, <- ?app_assoc, ?fold_left_app. reflexivity.
  - left. simpl silenceMs. unfold total_ms in Hcut.
    rewrite fold_left_app in Hcut. exact Hcut.
Qed.

(** Speech, a pause shorter than [padMs], speech again.  From idle, with
    the duration below [maxSegmentMs] throughout: the pause does not end the
    segment; after [next] the buffer holds every frame, the trailing
    silence is back to 0, and the voiced time leaves the pause out.  Every
    duration here is the sum the callback keeps: frame by frame, each sum a
    number. *)
Theorem short_pause_is_bridged (o : Opts) (f1 : Frame) (speech pause : list Frame)
    (next : Frame) :
  (vadGateHigh o <= energy f1)%Q ->
  Forall (voiced o) (speech ++ [next]) ->
  Forall (silent o) pause ->
  (total_ms (f1 :: speech ++ pause ++ [next]) < maxSegmentMs o)%Q ->
  (total_ms pause < padMs o)%Q ->
  vad_run o resetSegmentState (f1 :: speech ++ pause ++ [next])
  = ({| segFrames := map down (f1 :: speech ++ pause ++ [next]);
        segDurMs := total_ms (f1 :: speech ++ pause ++ [next]);
        silenceMs := 0;
        speaking := true;
        voicedMs := add_ms (total_ms (f1 :: speech)) next |}, []).
Proof.
  intros H1 Hv Hq Hmax Hpad.
  apply Forall_app in Hv as [Hv Hnext].
  apply Forall_cons in Hnext as [Hnext _].
  set (sp := speaking_over resetSegmentState (f1 :: speech)).
  assert (Mono : forall a b : list Frame,
            (total_ms (f1 :: a) <= total_ms (f1 :: a ++ b))%Q).
  { intros a b. unfold total_ms. rewrite app_comm_cons, fold_left_app.
    apply add_ms_le, fold_add_ms_is_f64, is_f64_0. }
  assert (M1 : (total_ms (f1 :: speech ++ pause) < maxSegmentMs o)%Q).
  { eapply Qle_lt_trans; [|exact Hmax].
    rewrite (app_assoc speech pause [next]). apply Mono. }
  assert (M0 : (total_ms (f1 :: speech) < maxSegmentMs o)%Q).
  { eapply Qle_lt_trans; [|exact M1]. apply Mono. }
  assert (R1 : vad_run o resetSegmentState (f1 :: speech) = (sp, [])).
  { cbn [vad_run]. rewrite (vad_step_start o f1 H1).
    assert (Hb : speech = []
                 \/ (fold_left add_ms speech
                       (segDurMs (speaking_over resetSegmentState [f1]))
                     < maxSegmentMs o)%Q) by (right; exact M0).
    rewrite (vad_run_voiced_below_max o speech (speaking_over resetSegmentState [f1])
               eq_refl eq_refl Hv Hb).
    unfold sp. now rewrite <- speaking_over_cons. }
  assert (R2 : vad_run o sp pause = (silent_over sp pause, [])).
  { apply vad_run_silent_below; auto.
    right. unfold total_ms in M1.
    rewrite app_comm_cons, fold_left_app in M1. exact M1. }
  replace (vad_run o resetSegmentState (f1 :: speech ++ pause ++ [next]))
    with (vad_run o resetSegmentState (((f1 :: speech) ++ pause) ++ [next]))
    by (simpl; now rewrite <- app_assoc).
  rewrite !vad_run_app, R1, R2.
  cbn [vad_run].
  rewrite vad_step_voiced_below_max; auto.
  - unfold speaking_over, silent_over, sp, speaking_over. simpl.
    rewrite ?map_app, <- ?app_assoc. simpl.
    unfold total_ms. simpl. rewrite ?fold_left_app. simpl.
    rewrite ?map_app, <- ?app_assoc, ?fold_left_app. reflexivity.
  - simpl segDurMs. unfold total_ms in Hmax. simpl in Hmax.
    rewrite !fold_left_app in Hmax. simpl in Hmax.
    unfold sp. simpl. exact Hmax.
Qed.

(** ** Requests: the retry loop *)

Lemma retry_loop_S (answers : nat -> FetchOutcome) (todo i : nat) (e : Err) :
  retry_loop answers (S todo) i e
  = match fetch_result false (answers i) with
    | inr b => inr b
    | inl e' => retry_loop answers todo (S i) e'
    end.
Proof. reflexivity. Qed.

Lemma retry_loop_outcome (answers : nat -> FetchOutcome) :
  forall (todo i : nat) (e : Err) (r : Err + Body),
    (0 < todo)%nat ->
    retry_loop answers todo i e = r
    <-> exists n, (n < todo)%nat
          /\ (forall j, (j < n)%nat -> attempt_fails answers (i + j))
          /\ fetch_result false (answers (i + n)%nat) = r
          /\ ends_loop todo n r.
Proof.
  induction todo as [|t IH]; intros i e r Hpos; [lia|].
  rewrite retry_loop_S. split.
  - destruct (fetch_result false (answers i)) as [e0|b] eqn:E.
    + destruct t as [|t].
      * simpl. intros <-. exists 0%nat. rewrite Nat.add_0_r.
        repeat split; [lia | intros j Hj; lia | exact E | now right].
      * intros H. apply IH in H as (n & Hn & Hf & Hr & He); [|lia].
        exists (S n). repeat split.
        -- lia.
        -- intros [|j] Hj; [rewrite Nat.add_0_r; now exists e0|].
           replace (i + S j)%nat with (S i + j)%nat by lia. apply Hf. lia.
        -- now replace (i + S n)%nat with (S i + n)%nat by lia.
        -- destruct He as [He|He]; [now left | right; lia].
    + intros <-. exists 0%nat. rewrite Nat.add_0_r.
      repeat split; [lia | intros j Hj; lia | exact E | left; now exists b].
  - intros ([|n] & Hn & Hf & Hr & He).
    + rewrite Nat.add_0_r in Hr. rewrite Hr.
      destruct r as [e0|b]; [|reflexivity].
      destruct He as [[b Hb]|He]; [discriminate|].
      assert (t = 0%nat) as -> by lia. reflexivity.
    + destruct (Hf 0%nat ltac:(lia)) as [e0 He0]. rewrite Nat.add_0_r in He0.
      rewrite He0. apply IH; [lia|].
      exists n. repeat split.
      * lia.
      * intros j Hj. replace (S i + j)%nat with (i + S j)%nat by lia. apply Hf. lia.
      * now replace (S i + n)%nat with (i + S n)%nat by lia.
      * destruct He as [He|He]; [now left | right; lia].
Qed.

(** [fetchWithRetry] returns what one attempt gave: the first response that
    is ok, or, when every attempt failed, the error of the last one.  Every
    attempt before it failed, and no attempt after it is made. *)
Theorem fetchWithRetry_outcome (answers : nat -> FetchOutcome) (tries : nat)
    (r : Err + Body) :
  (0 < tries)%nat ->
  fetchWithRetry answers tries = r
  <-> exists n, (n < tries)%nat
        /\ (forall j, (j < n)%nat -> attempt_fails answers j)
        /\ fetch_result false (answers n) = r
        /\ ends_loop tries n r.
Proof.
  intros Hpos. unfold fetchWithRetry.
  rewrite (retry_loop_outcome answers tries 0 (Failure []) r Hpos).
  reflexivity.
Qed.

Lemma retry_loop_error (answers : nat -> FetchOutcome) :
  forall (todo i : nat) (e0 e : Err),
    retry_loop answers todo i e0 = inl e -> e = e0 \/ exists msg, e = Failure msg.
Proof.
  induction todo as [|t IH]; intros i e0 e.
  - simpl. intros [= ->]. now left.
  - rewrite retry_loop_S.
    destruct (fetch_result false (answers i)) as [e1|b] eqn:E; [|discriminate].
    intros H. apply IH in H as [->|H]; [|now right].
    right. unfold fetch_result in E.
    destruct (answers i) as [[] status body|msg]; inversion E; eauto.
Qed.

Lemma request_error (answers : nat -> FetchOutcome) (tries : nat) (e : Err) :
  request answers tries = inl e -> exists msg, e = Failure msg.
Proof.
  unfold request, fetchWithRetry.
  destruct (retry_loop answers tries 0 (Failure [])) as [e1|b] eqn:E.
  - intros [= <-]. apply retry_loop_error in E as [->|E]; eauto.
  - unfold json_result. destruct b; intros [= <-]. eauto.
Qed.

(** ** Requests: the same code cut at its awaits *)

Lemma call_run_S (fuel tries : nat) (ab : bool) (answers : nat -> FetchOutcome) (c : Call) :
  call_run (S fuel) tries ab answers c
  = match call_step tries ab answers c with
    | Pending c' => call_run fuel tries ab answers c'
    | settled => settled
    end.
Proof. reflexivity. Qed.

Lemma call_run_unaborted (answers : nat -> FetchOutcome) (tries : nat) :
  forall (todo i fuel : nat) (e : Err),
    (0 < todo)%nat ->
    (i + todo = tries)%nat ->
    (2 * todo <= fuel)%nat ->
    call_run fuel tries false answers (AwaitFetch i)
    = settled_of match retry_loop answers todo i e with
                 | inl e' => inl e'
                 | inr b => json_result false b
                 end.
Proof.
  induction todo as [|t IH]; intros i fuel e Hpos Hi Hfuel; [lia|].
  destruct fuel as [|[|fuel]]; [lia | lia |].
  rewrite call_run_S, retry_loop_S. unfold call_step at 1.
  destruct (fetch_result false (answers i)) as [e0|b] eqn:E.
  - destruct (S i <? tries)%nat eqn:Hlt.
    + apply Nat.ltb_lt in Hlt. rewrite call_run_S. unfold call_step at 1.
      apply IH; lia.
    + apply Nat.ltb_ge in Hlt. assert (t = 0%nat) as -> by lia. reflexivity.
  - rewrite call_run_S. unfold call_step at 1.
    now destruct (json_result false b).
Qed.

(** Cut at its awaits, a request that nothing aborts settles within
    [2 * tries] awaited promises, and as the straight-line code does: with
    the parsed body of the first response that is ok, or throwing the last
    error. *)
Theorem request_settles_as_straight_line (answers : nat -> FetchOutcome)
    (tries fuel : nat) :
  (0 < tries)%nat ->
  (2 * tries <= fuel)%nat ->
  call_run fuel tries false answers (AwaitFetch 0) = settled_of (request answers tries).
Proof.
  intros Hpos Hfuel. unfold request, fetchWithRetry.
  now apply call_run_unaborted.
Qed.

Lemma call_rest_pos (tries : nat) (c : Call) : (1 <= call_rest tries c)%nat.
Proof. destruct c; simpl; lia. Qed.

Lemma call_run_aborted (answers : nat -> FetchOutcome) (tries : nat) :
  forall (fuel : nat) (c : Call),
    (call_rest tries c <= fuel -> call_run fuel tries true answers c = Threw AbortError)%nat
    /\ (fuel < call_rest tries c ->
        exists c', call_run fuel tries true answers c = Pending c')%nat.
Proof.
  induction fuel as [|fuel IH]; intros c.
  - pose proof (call_rest_pos tries c). split; [lia|]. intros _. now exists c.
  - rewrite call_run_S. destruct c as [i|i|b]; unfold call_step.
    + unfold fetch_result at 1. destruct (S i <? tries)%nat eqn:Hlt.
      * apply Nat.ltb_lt in Hlt. destruct (IH (AwaitDelay i)) as [H1 H2].
        simpl call_rest in *. split; intros H; [apply H1 | apply H2]; lia.
      * apply Nat.ltb_ge in Hlt. simpl call_rest. split; [reflexivity | lia].
    + destruct (IH (AwaitFetch (S i))) as [H1 H2].
      simpl call_rest in *. split; intros H; [apply H1 | apply H2]; lia.
    + unfold json_result. simpl call_rest. split; [reflexivity | lia].
Qed.

(** Aborting does not cut the retry loop short.  A call whose signal is
    aborted never returns a body; it throws [AbortError], but only after
    every attempt left has rejected and every back-off timer between them
    has run out: [call_rest] awaited promises, not one fewer. *)
Theorem aborted_request_waits_out_retries (answers : nat -> FetchOutcome)
    (tries fuel : nat) (c : Call) :
  (forall text, call_run fuel tries true answers c <> Returned text)
  /\ ((call_rest tries c <= fuel)%nat ->
      call_run fuel tries true answers c = Threw AbortError)
  /\ ((fuel < call_rest tries c)%nat ->
      exists c', call_run fuel tries true answers c = Pending c').
Proof.
  destruct (call_run_aborted answers tries fuel c) as [H1 H2].
  split; [|split; assumption].
  intros text E.
  destruct (Nat.le_gt_cases (call_rest tries c) fuel) as [H|H].
  - rewrite (H1 H) in E. discriminate.
  - destruct (H2 H) as [c' Hc']. rewrite Hc' in E. discriminate.
Qed.

(** ** The resampler: range *)

Lemma Qnat_plus (a b : nat) : Qnat (a + b) == Qnat a + Qnat b.
Proof.
  unfold Qnat. rewrite Nat2Z.inj_add, inject_Z_plus. reflexivity.
Qed.

Lemma Qnat_S (n : nat) : Qnat (S n) == Qnat n + 1.
Proof.
  replace (S n) with (n + 1)%nat by lia. now rewrite Qnat_plus.
Qed.

(** Up to [2^29] times a single is a number: the sum of that many samples
    at a bound is exact. *)
Lemma scaled_is_f64 (k : nat) (x : Q) :
  is_f32 x -> Z.of_nat k <= 2 ^ 29 -> is_f64 (Qnat k * x).
Proof.
  intros (m & e & E & Hm & He) Hk.
  exists (Z.of_nat k * m), e. split; [|split].
  - rewrite E, inject_Z_mult. unfold Qnat. ring.
  - rewrite Z.abs_mul, (Z.abs_eq (Z.of_nat k)) by lia.
    change (2 ^ 53) with (2 ^ 29 * 2 ^ 24).
    pose proof (Z.abs_nonneg m).
    apply Z.le_lt_trans with (2 ^ 29 * Z.abs m).
    + apply Z.mul_le_mono_nonneg_r; lia.
    + apply Z.mul_lt_mono_pos_l; [reflexivity | exact Hm].
  - lia.
Qed.

(** The running sum of samples within bounds stays within the count times
    the bounds. *)
Lemma fsum_bounds (lo hi : Q) :
  is_f32 lo -> is_f32 hi ->
  forall (l : list Q) (acc : Q) (k : nat),
    Forall (within lo hi) l ->
    Z.of_nat (k + length l) <= 2 ^ 29 ->
    (Qnat k * lo <= acc)%Q -> (acc <= Qnat k * hi)%Q ->
    (Qnat (k + length l) * lo <= fold_left fadd l acc)%Q
    /\ (fold_left fadd l acc <= Qnat (k + length l) * hi)%Q.
Proof.
  intros Flo Fhi.
  induction l as [|x l IH]; intros acc k H Hk B1 B2.
  - simpl. rewrite Nat.add_0_r. auto.
  - apply Forall_cons in H as [[Hx1 Hx2] H].
    change (fold_left fadd (x :: l) acc) with (fold_left fadd l (fadd acc x)).
    simpl length in *.
    replace (k + S (length l))%nat with (S k + length l)%nat in * by lia.
    assert (Hk1 : Z.of_nat (S k) <= 2 ^ 29) by lia.
    apply IH; [exact H | exact Hk | |].
    + rewrite <- (fl64_exact _ (scaled_is_f64 (S k) lo Flo Hk1)).
      unfold fadd. apply fl64_le. rewrite Qnat_S. lra.
    + rewrite <- (fl64_exact _ (scaled_is_f64 (S k) hi Fhi Hk1)).
      unfold fadd. apply fl64_le. rewrite Qnat_S. lra.
Qed.

Lemma mean_within (lo hi : Q) (l : list Q) :
  is_f32 lo -> is_f32 hi ->
  (lo <= 0)%Q -> (0 <= hi)%Q ->
  Z.of_nat (length l) <= 2 ^ 29 ->
  Forall (within lo hi) l ->
  within lo hi (avg (fold_left fadd l 0%Q) (length l)).
Proof.
  intros Flo Fhi Hlo Hhi Hn H.
  destruct (fsum_bounds lo hi Flo Fhi l 0%Q 0%nat H Hn) as [B1 B2].
  { change (Qnat 0) with 0%Q. lra. }
  { change (Qnat 0) with 0%Q. lra. }
  simpl Nat.add in B1, B2.
  destruct l as [|x l]; [split; assumption|].
  change (avg (fold_left fadd (x :: l) 0%Q) (length (x :: l)))
    with (fl32 (fl64 (fold_left fadd (x :: l) 0%Q / Qnat (length (x :: l))))).
  assert (Hp : (0 < Qnat (length (x :: l)))%Q) by (apply (Qnat_lt 0); simpl; lia).
  split.
  - rewrite <- (fl32_exact lo Flo). apply fl32_le.
    rewrite <- (fl64_exact lo (is_f32_f64 lo Flo)). apply fl64_le.
    apply Qle_shift_div_l; [exact Hp|]. lra.
  - rewrite <- (fl32_exact hi Fhi). apply fl32_le.
    rewrite <- (fl64_exact hi (is_f32_f64 hi Fhi)). apply fl64_le.
    apply Qle_shift_div_r; [exact Hp|]. lra.
Qed.

Lemma resample_loop_within (lo hi ratio : Q) :
  is_f32 lo -> is_f32 hi ->
  (lo <= 0)%Q -> (0 <= hi)%Q ->
  forall (todo idx : nat) (rest : list Q) (pos : nat),
    Z.of_nat (length rest) <= 2 ^ 29 ->
    Forall (within lo hi) rest ->
    Forall (within lo hi) (resample_loop todo idx ratio rest pos).
Proof.
  intros Flo Fhi Hlo Hhi.
  induction todo as [|todo IH]; intros idx rest pos Hn H; simpl; [constructor|].
  destruct (gather_spec (fl64 (Qnat (idx + 1) * ratio)) rest pos 0%Q 0%nat)
    as (taken & rest' & Hg & Hr & _ & _).
  rewrite Hg. simpl. subst rest. apply Forall_app in H as [Ht Hr'].
  rewrite length_app in Hn.
  constructor; [apply mean_within; auto; lia | apply IH; auto; lia].
Qed.

Lemma downsample_within_singles (lo hi : Q) (inCh : list Q) (inRate : Q) (out : list Q) :
  is_f32 lo -> is_f32 hi ->
  (lo <= 0)%Q -> (0 <= hi)%Q ->
  Z.of_nat (length inCh) <= 2 ^ 29 ->
  Forall (within lo hi) inCh ->
  downsampleTo16k inCh inRate = Some out ->
  Forall (within lo hi) out.
Proof.
  intros Flo Fhi Hlo Hhi Hn H. unfold downsampleTo16k.
  destruct (Qeq_bool inRate outRate); [now intros [= <-]|].
  destruct (Qeq_bool (fl64 (inRate / outRate)) 0).
  - destruct inCh; [intros [= <-]; constructor | discriminate].
  - destruct (_ <? 0); [discriminate|].
    intros [= <-]. now apply resample_loop_within.
Qed.

(** Samples that are singles and lie within bounds enclosing 0 lie within
    bounds that are singles themselves: the least and the greatest of the
    samples and 0. *)
Lemma single_bounds (lo hi : Q) (l : list Q) :
  (lo <= 0)%Q -> (0 <= hi)%Q ->
  Forall is_f32 l ->
  Forall (within lo hi) l ->
  exists lo' hi',
    is_f32 lo' /\ is_f32 hi'
    /\ (lo <= lo')%Q /\ (lo' <= 0)%Q /\ (0 <= hi')%Q /\ (hi' <= hi)%Q
    /\ Forall (within lo' hi') l.
Proof.
  intros Hlo Hhi.
  induction l as [|x l IH]; intros F H.
  - assert (F0 : is_f32 0) by now apply (is_f32_Z 0).
    exists 0%Q, 0%Q. repeat split; auto; apply Qle_refl.
  - apply Forall_cons in F as [Fx F]. apply Forall_cons in H as [[Hx1 Hx2] H].
    destruct (IH F H) as (lo1 & hi1 & Fl & Fh & B1 & B2 & B3 & B4 & W).
    destruct (Qlt_le_dec x lo1) as [Lx|Lx]; destruct (Qlt_le_dec hi1 x) as [Ux|Ux].
    + exfalso. lra.
    + exists x, hi1. repeat split; auto; try lra.
      constructor; [split; lra|].
      eapply Forall_impl; [exact W|]. intros y [Y1 Y2]. split; lra.
    + exists lo1, x. repeat split; auto; try lra.
      constructor; [split; lra|].
      eapply Forall_impl; [exact W|]. intros y [Y1 Y2]. split; lra.
    + exists lo1, hi1. repeat split; auto.
      constructor; [split; lra | exact W].
Qed.

(** Resampling and pre-gain keep the samples in range.  Every output sample
    of [downsampleTo16k] is a mean of input samples or the filler 0, each
    sum, quotient and store rounded; so for a buffer of singles, as a
    [Float32Array] is, with up to [2^29] samples, bounds of the input that
    enclose 0 are bounds of the output; and the frame that the audio
    callback buffers lies within [-1, 1] whenever the channel data does. *)
Theorem downsample_keeps_range (lo hi : Q) (inCh : list Q) (inRate g : Q) :
  (lo <= 0)%Q -> (0 <= hi)%Q ->
  Forall is_f32 inCh ->
  Z.of_nat (length inCh) <= 2 ^ 29 ->
  Forall (within lo hi) inCh ->
  (forall out, downsampleTo16k inCh inRate = Some out -> Forall (within lo hi) out)
  /\ ((-1 <= lo)%Q -> (hi <= 1)%Q ->
      forall frame, prepare g inCh inRate = Some frame ->
        Forall (within (-1) 1) frame).
Proof.
  intros Hlo Hhi F Hn H.
  assert (D : forall out, downsampleTo16k inCh inRate = Some out ->
                Forall (within lo hi) out).
  { intros out E.
    destruct (single_bounds lo hi inCh Hlo Hhi F H)
      as (lo1 & hi1 & Fl & Fh & B1 & B2 & B3 & B4 & W).
    pose proof (downsample_within_singles lo1 hi1 inCh inRate out Fl Fh B2 B3 Hn W E) as G.
    eapply Forall_impl; [exact G|]. intros y [Y1 Y2]. split; lra. }
  split; [exact D|].
  intros Hl Hh frame. unfold prepare.
  destruct (downsampleTo16k inCh inRate) as [out|] eqn:E; [|discriminate].
  simpl. intros [= <-]. specialize (D out eq_refl).
  unfold applyGain. destruct (Qeq_bool g 1).
  - eapply Forall_impl; [exact D|].
    intros x [H1 H2]. split; [now apply Qle_trans with lo | now apply Qle_trans with hi].
  - apply Forall_fmap. apply Forall_true. intros x. apply gain1_range.
Qed.

(** ** The session: what holds of every request *)

Lemma abort_current_Forall (P : Task -> Prop) (s : Session) :
  (forall t, P t -> P (with_abort t)) ->
  Forall P (tasks s) -> Forall P (abort_current s).
Proof.
  intros Ha H. unfold abort_current.
  destruct (reqCtrl s) as [k|]; [|exact H].
  apply Forall_alter; [exact H|]. intros t _. apply Ha.
Qed.

Lemma step_tasks_invariant (o : Opts) (net : Network) (P : Task -> Prop)
    (sys : System) (e : Event) :
  (forall t, P t -> P (with_abort t)) ->
  (forall t w k, P t -> P (fst (settle_task o (net k) t w))) ->
  (forall f st' snap wav st,
     vad_step o (seg sys) f = (st', Some snap) ->
     gate o snap = Upload wav st ->
     P (new_task wav st)) ->
  Forall P (tasks (sess sys)) ->
  Forall P (tasks (sess (step o net sys e))).
Proof.
  intros Ha Hs Hn H. destruct e as [f|k w|]; simpl.
  - destruct (vad_step o (seg sys) f) as [st' [snap|]] eqn:E; simpl; [|exact H].
    unfold finalizeSegment.
    destruct (gate o snap) as [| | |wav st] eqn:G; try exact H.
    simpl. apply Forall_app. split; [now apply abort_current_Forall|].
    constructor; [|constructor]. exact (Hn f st' snap wav st E G).
  - unfold settle. destruct (tasks (sess sys) !! k) as [t|] eqn:E; [|exact H].
    pose proof (Hs t w k) as Hst.
    destruct (settle_task o (net k) t w) as [t' cbs]. simpl in *.
    apply Forall_insert; [exact H|]. apply Hst.
    eapply Forall_lookup_1; eauto.
  - now apply abort_current_Forall.
Qed.

Lemma run_snoc (o : Opts) (net : Network) (sys : System) (es : list Event) (e : Event) :
  run o net sys (es ++ [e]) = step o net (run o net sys es) e.
Proof. unfold run. now rewrite fold_left_app. Qed.

Lemma reachable_tasks_invariant (o : Opts) (net : Network) (P : Task -> Prop) :
  (forall t, P t -> P (with_abort t)) ->
  (forall t w k, P t -> P (fst (settle_task o (net k) t w))) ->
  (forall es f st' snap wav st,
     vad_step o (seg (run o net initial es)) f = (st', Some snap) ->
     gate o snap = Upload wav st ->
     P (new_task wav st)) ->
  forall es, Forall P (tasks (sess (run o net initial es))).
Proof.
  intros Ha Hs Hn es. induction es as [|e es IH] using rev_ind.
  - constructor.
  - rewrite run_snoc. apply step_tasks_invariant; auto.
    intros f st' snap wav st. apply Hn.
Qed.

(** *** The pool *)

Lemma length_spawn (n : nat) : forall p,
  length (workers (spawn n p)) = (length (workers p) + n)%nat.
Proof.
  induction n as [|n IH]; intros p; simpl; [lia|].
  destruct (pull (queue p)) as [w q]. rewrite IH. simpl.
  rewrite length_app. simpl. lia.
Qed.

Lemma length_start_pool (o : Opts) : length (workers (start_pool o)) = maxWorkers o.
Proof. unfold start_pool. now rewrite length_spawn. Qed.

Lemma settle_task_pool_sized (o : Opts) answers (t : Task) (w : nat) :
  pool_sized o t -> pool_sized o (fst (settle_task o answers t w)).
Proof.
  unfold pool_sized, settle_task, deliver.
  destruct (phase t) as [c|tr p|] eqn:Ph.
  - intros _.
    destruct (call_step 2 (aborted t) (answers Transcribe) c) as [c'|text|e]; simpl; auto.
    destruct (truthy (trimmed_text text)); simpl; auto.
    destruct (forallb is_exited (workers (start_pool o))); simpl; auto.
    apply length_start_pool.
  - intros H. destruct (forallb is_exited _); simpl; auto.
    now rewrite length_settle_worker.
  - intros _. simpl. now rewrite Ph.
Qed.

Lemma length_omap_busy (ws : list Worker) :
  (length (omap busy_lang ws) <= length ws)%nat.
Proof.
  induction ws as [|[lang c|] ws IH]; csimpl; lia.
Qed.

(** The translations of a segment run in a pool of fixed size.  Whenever a
    request is in its translation phase, its pool has exactly [maxWorkers]
    runners, so at most that many translation requests are in flight; and
    [maxWorkers] is at least 1, at most the number of targets (or 1), and at
    most [translationParallelWorkers] (or 1) when that option is given. *)
Theorem pool_has_maxWorkers_runners (o : Opts) (net : Network) (es : list Event)
    (k : nat) (tr : jsstring) (p : Pool) :
  phase_of (sess (run o net initial es)) k = Some (Translating tr p) ->
  length (workers p) = maxWorkers o
  /\ (length (omap busy_lang (workers p)) <= maxWorkers o)%nat
  /\ (1 <= maxWorkers o)%nat
  /\ (maxWorkers o <= Nat.max 1 (length (outputs o)))%nat
  /\ match translationParallelWorkers o with
     | Some w => (maxWorkers o <= Nat.max 1 (Z.to_nat w))%nat
     | None => True
     end.
Proof.
  intros Hp. apply phase_of_Some in Hp as (t & Ht & Hp).
  assert (S : pool_sized o t).
  { eapply Forall_lookup_1; [|exact Ht].
    apply reachable_tasks_invariant.
    - intros t0 H. exact H.
    - intros t0 w k0. apply settle_task_pool_sized.
    - intros. exact I. }
  unfold pool_sized in S. rewrite Hp in S.
  split; [exact S|].
  split; [rewrite <- S; apply length_omap_busy|].
  unfold maxWorkers.
  destruct (Z.eqb_spec (Z.of_nat (length (outputs o))) 0) as [E|E];
    destruct (translationParallelWorkers o) as [w|]; simpl; lia.
Qed.

(** *** The upload *)

Lemma length_encodeWav (int16 : list Z) (sampleRate : Z) :
  length (encodeWav int16 sampleRate) = (44 + 2 * length int16)%nat.
Proof.
  rewrite encodeWav_layout, length_app, length_wav_header, length_flat_map_le16.
  reflexivity.
Qed.

Lemma settle_task_upload (o : Opts) answers (t : Task) (w : nat) :
  upload (fst (settle_task o answers t w)) = upload t
  /\ stats (fst (settle_task o answers t w)) = stats t.
Proof.
  unfold settle_task.
  destruct (phase t) as [c|tr p|]; simpl; [| |auto].
  - destruct (call_step 2 (aborted t) (answers Transcribe) c); simpl; auto.
    destruct (truthy (trimmed_text text)); [|auto].
    destruct (deliver o (trimmed_text text) (start_pool o)). auto.
  - destruct (deliver o tr (settle_worker (aborted t) answers p w)). auto.
Qed.

Lemma gate_upload_wf (o : Opts) (snap : Snapshot) (wav : list Z) (st : Stats) :
  snap_durMs snap = frames_ms (snap_frames snap) ->
  (0 <= snap_voicedMs snap)%Q ->
  (snap_voicedMs snap <= snap_durMs snap)%Q ->
  gate o snap = Upload wav st ->
  upload_wf o (new_task wav st).
Proof.
  intros Hd Hv Hvd. unfold gate.
  destruct (snap_frames snap) as [|fr frs] eqn:Efr; [discriminate|].
  destruct (Qlt_bool (snap_durMs snap) (minSpeechMs o)) eqn:Emin; [discriminate|].
  destruct (quality_reject _ _) eqn:Eq; [discriminate|].
  intros [= <- <-].
  exists (fr :: frs). simpl upload. simpl stats. simpl st_durMs.
  simpl st_voicedMs. simpl st_voicedFraction.
  split; [|split; [|split; [|split; [|split; [|split]]]]].
  - unfold floatTo16BitPCM. now rewrite length_encodeWav, length_map.
  - exact Hd.
  - now apply Qlt_bool_false_iff.
  - exact Hv.
  - exact Hvd.
  - reflexivity.
  - exact Eq.
Qed.

(** Every upload is well formed.  Whatever has happened, each request of the
    session carries a container of [44 + 2n] bytes for the [n] samples of
    some frames, and the [durMs] of its statistics is what the durations of
    these frames sum to, added one by one as numbers; that duration is at
    least [minSpeechMs]; the voiced time lies between 0 and the duration;
    and the statistics pass the quality filter. *)
Theorem every_upload_is_well_formed (o : Opts) (net : Network) (es : list Event) :
  Forall (upload_wf o) (tasks (sess (run o net initial es))).
Proof.
  apply reachable_tasks_invariant.
  - intros t0 H. exact H.
  - intros t0 w k0 H. unfold upload_wf in *.
    destruct (settle_task_upload o (net k0) t0 w) as [-> ->]. exact H.
  - intros es0 f st' snap wav st Hstep Hg.
    destruct (reachable_seg o net es0) as [Hc _].
    destruct (vad_step_snapshot o _ f st' snap Hc Hstep)
      as (_ & _ & S1 & S2 & S3 & _).
    now apply (gate_upload_wf o snap).
Qed.

(** *** Controllers *)

Lemma step_ctrl_is_newest (o : Opts) (net : Network) (sys : System) (e : Event) :
  ctrl_is_newest (sess sys) -> ctrl_is_newest (sess (step o net sys e)).
Proof.
  intros Inv k. destruct e as [f|k' w|]; simpl.
  - destruct (vad_step o (seg sys) f) as [st [snap|]]; simpl; [|apply Inv].
    unfold finalizeSegment. destruct (gate o snap); simpl; try apply Inv.
    intros [= <-]. rewrite length_app. simpl. lia.
  - unfold settle. destruct (tasks (sess sys) !! k') as [t0|]; [|apply Inv].
    destruct (settle_task o (net k') t0 w) as [t' cbs]. simpl.
    rewrite length_insert. apply Inv.
  - discriminate.
Qed.

Lemma reachable_ctrl_is_newest (o : Opts) (net : Network) (es : list Event) :
  ctrl_is_newest (sess (run o net initial es)).
Proof.
  induction es as [|e es IH] using rev_ind.
  - intros k. discriminate.
  - rewrite run_snoc. now apply step_ctrl_is_newest.
Qed.

(** Only the newest request can be live.  Whatever has happened, a request
    whose signal is not aborted is the one whose controller [reqCtrlRef]
    holds, and it is the last request made; every older request has been
    aborted. *)
Theorem only_newest_request_is_live (o : Opts) (net : Network) (es : list Event)
    (k : nat) :
  aborted_of (sess (run o net initial es)) k = Some false ->
  reqCtrl (sess (run o net initial es)) = Some k
  /\ S k = length (tasks (sess (run o net initial es))).
Proof.
  intros Ha. apply aborted_of_Some in Ha as (t & Ht & Ha).
  pose proof (reachable_single_live_request o net es k t Ht Ha) as Hr.
  split; [exact Hr|]. now apply reachable_ctrl_is_newest.
Qed.

(** The teardown leaves nothing live: the refs of the segmenter are reset,
    [reqCtrlRef] is empty, the signal of every request is aborted, while no
    request is removed, none changes its phase and no callback is made; a
    second teardown changes nothing. *)
Theorem cleanup_leaves_nothing_live (o : Opts) (net : Network) (es : list Event) :
  let sys := run o net initial es in
  let sys' := step o net sys EvCleanup in
  seg sys' = resetSegmentState
  /\ reqCtrl (sess sys') = None
  /\ Forall (fun t => aborted t = true) (tasks (sess sys'))
  /\ map phase (tasks (sess sys')) = map phase (tasks (sess sys))
  /\ log (sess sys') = log (sess sys)
  /\ step o net sys' EvCleanup = sys'.
Proof.
  intros sys sys'. simpl.
  split; [reflexivity|]. split; [reflexivity|].
  split; [|split; [|split; [reflexivity | reflexivity]]].
  - apply Forall_lookup. intros k t Hk.
    eapply abort_current_all_aborted; [|exact Hk].
    apply reachable_single_live_request.
  - apply list_eq. intros j.
    change (map phase) with (fmap (M := list) phase). rewrite !list_lookup_fmap.
    destruct (tasks (sess sys) !! j) as [t|] eqn:E.
    + destruct (abort_current_lookup (sess sys) j t E) as [-> | ->]; reflexivity.
    + apply lookup_ge_None in E. rewrite <- length_abort_current in E.
      apply lookup_ge_None in E. now rewrite E.
Qed.

(** *** Callbacks *)

Lemma settle_task_one_callback (o : Opts) answers (t : Task) (w : nat) :
  (length (snd (settle_task o answers t w)) <= 1)%nat.
Proof.
  unfold settle_task, deliver, on_throw.
  destruct (phase t) as [c|tr p|].
  - destruct (call_step 2 (aborted t) (answers Transcribe) c) as [c'|text|[|msg]];
      simpl; try lia.
    destruct (truthy (trimmed_text text)); simpl; [|lia].
    destruct (forallb is_exited (workers (start_pool o))); simpl; lia.
  - destruct (forallb is_exited _); simpl; lia.
  - simpl. lia.
Qed.

Lemma no_task_no_callbacks (s : Session) (k : nat) :
  log_of_finished s -> tasks s !! k = None -> callbacks_of k s = [].
Proof.
  intros Inv Ht. unfold callbacks_of.
  destruct (List.filter _ (log s)) as [|[k' cb] l] eqn:E; [reflexivity|].
  exfalso.
  assert (Hin : In (k', cb) (List.filter (fun e => Nat.eqb (fst e) k) (log s)))
    by (rewrite E; now left).
  apply filter_In in Hin as [Hin Hk]. simpl in Hk. apply Nat.eqb_eq in Hk as ->.
  destruct (Inv k cb Hin) as (t' & Ht' & Hf). congruence.
Qed.

Lemma step_new_task (o : Opts) (net : Network) (sys : System) (e : Event)
    (k : nat) (t' : Task) :
  tasks (sess sys) !! k = None ->
  tasks (sess (step o net sys e)) !! k = Some t' ->
  phase t' = Stt (AwaitFetch 0).
Proof.
  intros Hn. pose proof Hn as Hlen. apply lookup_ge_None in Hlen.
  destruct e as [f|k' w|]; simpl.
  - destruct (vad_step o (seg sys) f) as [st [snap|]]; simpl; [|congruence].
    unfold finalizeSegment. destruct (gate o snap); simpl; try congruence.
    rewrite lookup_app_r by (rewrite length_abort_current; exact Hlen).
    destruct (k - length (abort_current (sess sys)))%nat as [|[|n]]; simpl;
      [|discriminate|discriminate].
    now intros [= <-].
  - unfold settle. destruct (tasks (sess sys) !! k') as [t0|] eqn:E0; [|congruence].
    destruct (settle_task o (net k') t0 w) as [t1 cbs]. simpl.
    intros H. apply lookup_lt_Some in H. rewrite length_insert in H. lia.
  - intros H. apply lookup_lt_Some in H. rewrite length_abort_current in H. lia.
Qed.

(** In the session, where [onResult] returns to its caller, a call of
    [finalizeSegment] has made at most one callback. *)
Lemma callbacks_of_short (o : Opts) (net : Network) (es : list Event) (k : nat) :
  (length (callbacks_of k (sess (run o net initial es))) <= 1)%nat.
Proof.
  induction es as [|e es IH] using rev_ind; [simpl; lia|].
  rewrite run_snoc.
  pose proof (reachable_log_of_finished o net es) as Inv.
  set (sys := run o net initial es) in *.
  destruct (tasks (sess sys) !! k) as [t|] eqn:Ht.
  - destruct (step_task o net sys e k t Ht) as (t1 & cbs & _ & -> & Hcase).
    destruct Hcase as [[_ ->] | [[_ ->] | [w Hw]]];
      [now rewrite app_nil_r | now rewrite app_nil_r |].
    destruct (phase t) as [c|tr p|] eqn:Ph.
    + rewrite (unfinished_has_no_callbacks (sess sys) k t Inv Ht) by (rewrite Ph; discriminate).
      pose proof (settle_task_one_callback o (net k) t w) as H. now rewrite Hw in H.
    + rewrite (unfinished_has_no_callbacks (sess sys) k t Inv Ht) by (rewrite Ph; discriminate).
      pose proof (settle_task_one_callback o (net k) t w) as H. now rewrite Hw in H.
    + unfold settle_task in Hw. rewrite Ph in Hw. injection Hw as _ <-.
      now rewrite app_nil_r.
  - pose proof (step_log_of_finished o net sys e Inv) as Inv'.
    destruct (tasks (sess (step o net sys e)) !! k) as [t'|] eqn:Ht'.
    + rewrite (unfinished_has_no_callbacks _ k t' Inv' Ht'); [simpl; lia|].
      rewrite (step_new_task o net sys e k t' Ht Ht'). discriminate.
    + rewrite (no_task_no_callbacks _ k Inv' Ht'). simpl; lia.
Qed.

(** No request delivers twice: over any sequence of events, a call of
    [finalizeSegment] has called [onResult] at most once, and not at all
    after an [onError]. *)
Theorem at_most_one_callback (o : Opts) (net : Network) (es : list Event) (k : nat) :
  let cbs := callbacks_of k (sess (run o net initial es)) in
  (result_calls cbs <= 1)%nat
  /\ forall pre e post, cbs = pre ++ OnError e :: post -> result_calls post = 0%nat.
Proof.
  intros cbs.
  assert (H : (length cbs <= 1)%nat) by apply callbacks_of_short.
  clearbody cbs. unfold result_calls.
  destruct cbs as [|cb [|cb' cbs]]; [| |simpl in H; lia].
  - split; [simpl; lia|].
    intros [|x pre] e post E; discriminate E.
  - split; [destruct cb; simpl; lia|].
    intros [|x pre] e post E.
    + now injection E as _ <-.
    + injection E as _ E. destruct pre; discriminate E.
Qed.

Lemma settle_task_no_abort_report (o : Opts) answers (t : Task) (w : nat) :
  Forall not_abort_report (snd (settle_task o answers t w)).
Proof.
  unfold settle_task, deliver, on_throw.
  destruct (phase t) as [c|tr p|].
  - destruct (call_step 2 (aborted t) (answers Transcribe) c) as [c'|text|[|msg]];
      simpl; repeat constructor; try discriminate.
    destruct (truthy (trimmed_text text)); simpl; [|constructor].
    destruct (forallb is_exited (workers (start_pool o))); simpl;
      repeat constructor; discriminate.
  - destruct (forallb is_exited _); simpl; repeat constructor; discriminate.
  - constructor.
Qed.

Lemma step_no_abort_report (o : Opts) (net : Network) (sys : System) (e : Event) :
  Forall not_abort_report (map snd (log (sess sys))) ->
  Forall not_abort_report (map snd (log (sess (step o net sys e)))).
Proof.
  intros H. destruct e as [f|k w|]; simpl.
  - destruct (vad_step o (seg sys) f) as [st [snap|]]; simpl; [|exact H].
    now rewrite finalizeSegment_log.
  - unfold settle. destruct (tasks (sess sys) !! k) as [t|]; [|exact H].
    pose proof (settle_task_no_abort_report o (net k) t w) as Hs.
    destruct (settle_task o (net k) t w) as [t' cbs]. simpl in *.
    rewrite map_app. apply Forall_app. split; [exact H|].
    rewrite map_map. simpl. now rewrite map_id.
  - exact H.
Qed.

(** An abort is never reported as an error: over any sequence of events, no
    call of [onError] carries an [AbortError]. *)
Theorem abort_is_never_reported (o : Opts) (net : Network) (es : list Event) :
  Forall not_abort_report (map snd (log (sess (run o net initial es)))).
Proof.
  induction es as [|e es IH] using rev_ind; [constructor|].
  rewrite run_snoc. now apply step_no_abort_report.
Qed.

(** *** The transcription phase *)

Lemma run_task_cons (o : Opts) answers (t : Task) (w : nat) (ws : list nat) :
  run_task o answers t (w :: ws)
  = let '(t1, c1) := settle_task o answers t w in
    let '(t2, c2) := run_task o answers t1 ws in
    (t2, c1 ++ c2).
Proof. reflexivity. Qed.

Lemma run_task_finished (o : Opts) answers : forall (ws : list nat) (t : Task),
  phase t = Finished -> run_task o answers t ws = (t, []).
Proof.
  induction ws as [|w ws IH]; intros t H; [reflexivity|].
  rewrite run_task_cons. unfold settle_task. rewrite H.
  now rewrite (IH t H).
Qed.

Lemma with_phase_same (t : Task) (ph : Phase) : phase t = ph -> with_phase t ph = t.
Proof. destruct t; simpl; now intros ->. Qed.

Lemma run_task_stt (o : Opts) answers : forall (ws : list nat) (t : Task) (c : Call),
  phase t = Stt c ->
  match call_run (length ws) 2 (aborted t) (answers Transcribe) c with
  | Pending c' => run_task o answers t ws = (with_phase t (Stt c'), [])
  | Threw e => run_task o answers t ws = (with_phase t Finished, on_throw e)
  | Returned text =>
      truthy (trimmed_text text) = false ->
      run_task o answers t ws = (with_phase t Finished, [])
  end.
Proof.
  induction ws as [|w ws IH]; intros t c Hp.
  - simpl. now rewrite with_phase_same.
  - change (length (w :: ws)) with (S (length ws)).
    rewrite call_run_S, run_task_cons. unfold settle_task. rewrite Hp.
    destruct (call_step 2 (aborted t) (answers Transcribe) c) as [c'|text|e] eqn:E.
    + specialize (IH (with_phase t (Stt c')) c' eq_refl). simpl aborted in IH.
      destruct (call_run (length ws) 2 (aborted t) (answers Transcribe) c')
        as [c2|text|e].
      * now rewrite IH.
      * intros Hb. now rewrite (IH Hb).
      * now rewrite IH.
    + intros ->. now rewrite run_task_finished.
    + rewrite run_task_finished by reflexivity. now rewrite app_nil_r.
Qed.

(** How the transcription phase ends.  Once four of its awaited promises
    have settled, a request that started the transcription has returned in
    each of these cases: aborted, it is silent; not aborted and the
    transcription request failing (both attempts, or the body), it calls
    [onError] once with the last error and never [onResult]; not aborted and
    the transcript blank, it is silent. *)
Theorem transcription_outcome (o : Opts) (answers : Endpoint -> nat -> FetchOutcome)
    (t : Task) (ws : list nat) :
  phase t = Stt (AwaitFetch 0) ->
  (4 <= length ws)%nat ->
  (aborted t = true -> run_task o answers t ws = (with_phase t Finished, []))
  /\ (aborted t = false ->
      forall e, request (answers Transcribe) 2 = inl e ->
        run_task o answers t ws = (with_phase t Finished, [OnError e]))
  /\ (aborted t = false ->
      forall text, request (answers Transcribe) 2 = inr text ->
        blank (text_or_empty text) = true ->
        run_task o answers t ws = (with_phase t Finished, [])).
Proof.
  intros Hp Hlen.
  pose proof (run_task_stt o answers ws t (AwaitFetch 0) Hp) as R.
  split; [|split].
  - intros Ha. rewrite Ha in R.
    destruct (call_run_aborted (answers Transcribe) 2 (length ws) (AwaitFetch 0))
      as [H _].
    rewrite H in R by (simpl; lia). exact R.
  - intros Ha e He. rewrite Ha in R.
    rewrite (call_run_unaborted (answers Transcribe) 2 2 0 (length ws) (Failure []))
      in R by lia.
    destruct (request_error (answers Transcribe) 2 e He) as [msg ->].
    unfold request, fetchWithRetry in He. rewrite He in R. exact R.
  - intros Ha text He Hb. rewrite Ha in R.
    rewrite (call_run_unaborted (answers Transcribe) 2 2 0 (length ws) (Failure []))
      in R by lia.
    unfold request, fetchWithRetry in He. rewrite He in R. apply R.
    apply truthy_false_iff. unfold trimmed_text. now apply trim_nil_iff.
Qed.

(** ** [useAudioDevices] *)

Lemma is_mic_kind (d : Device) : is_mic d = true -> kind d = AudioInput.
Proof. unfold is_mic. now destruct (kind d). Qed.

Lemma devices_step_microphones (s : DevicesState) (e : DevicesEvent) :
  Forall (fun d => kind d = AudioInput) (devices s) /\ (ready s = true \/ devices s = []) ->
  Forall (fun d => kind d = AudioInput) (devices (devices_step s e))
  /\ (ready (devices_step s e) = true \/ devices (devices_step s e) = []).
Proof.
  intros [H1 H2]. destruct e as [all|msg|]; simpl.
  - destruct (mounted s); simpl; [|auto]. split; [|now left].
    apply Forall_forall. intros d Hd. apply list_elem_of_In in Hd.
    apply filter_In in Hd as [_ Hd]. now apply is_mic_kind.
  - destruct (mounted s); simpl; auto.
  - auto.
Qed.

(** The hook lists microphones only, and lists nothing before it is ready:
    whatever [refresh] calls have settled, every device in [devices] is an
    audio input, and [devices] is empty while [ready] is false. *)
Theorem audio_devices_are_microphones (es : list DevicesEvent) :
  Forall (fun d => kind d = AudioInput) (devices (devices_run devices_initial es))
  /\ (ready (devices_run devices_initial es) = true
      \/ devices (devices_run devices_initial es) = []).
Proof.
  unfold devices_run.
  induction es as [|e es IH] using rev_ind.
  - simpl. split; [constructor | now right].
  - rewrite fold_left_app. simpl. now apply devices_step_microphones.
Qed.

Lemma devices_step_unmounted (s : DevicesState) (e : DevicesEvent) :
  mounted s = false -> devices_step s e = s.
Proof.
  destruct s as [m d r er]. simpl. intros ->. now destruct e.
Qed.

(** After the effect's cleanup the state is frozen: a [refresh] that
    settles later, with devices or with an error, changes nothing. *)
Theorem audio_devices_frozen_after_unmount (s : DevicesState) (es : list DevicesEvent) :
  devices_run (devices_step s Unmounted) es = devices_step s Unmounted.
Proof.
  unfold devices_run.
  induction es as [|e es IH] using rev_ind; [reflexivity|].
  rewrite fold_left_app, IH. simpl fold_left.
  now apply devices_step_unmounted.
Qed.

(** [ready] and [error] never go back: once [ready] is true it stays true,
    and once an error is set an error stays set, also after a later
    [refresh] succeeds. *)
Theorem audio_devices_never_go_back (s : DevicesState) (es : list DevicesEvent) :
  (ready s = true -> ready (devices_run s es) = true)
  /\ (is_Some (error s) -> is_Some (error (devices_run s es))).
Proof.
  unfold devices_run. revert s.
  induction es as [|e es IH]; intros s; [auto|].
  simpl. destruct (IH (devices_step s e)) as [I1 I2].
  split; intros H.
  - apply I1. destruct e; simpl; destruct (mounted s); simpl; auto.
  - apply I2. destruct e; simpl; destruct (mounted s); simpl; eauto.
Qed.

(** ** What [onResult] receives, whatever happens *)

Lemma pull_sound (q : list jsstring) :
  omap busy_lang [fst (pull q)] ++ snd (pull q) ⊆+ q.
Proof.
  destruct q as [|lang q]; [reflexivity|].
  unfold pull. destruct (truthy lang); csimpl; [reflexivity|].
  now apply submseteq_cons.
Qed.

Lemma spawn_sound (outs : list jsstring) (n : nat) : forall p,
  pool_sound outs p -> pool_sound outs (spawn n p).
Proof.
  induction n as [|n IH]; intros p [H F]; simpl; [now split|].
  pose proof (pull_sound (queue p)) as Hp.
  destruct (pull (queue p)) as [w q]. apply IH. split; simpl; [|exact F].
  etransitivity; [|exact H].
  apply submseteq_app; [reflexivity|].
  rewrite omap_app, <- app_assoc.
  apply submseteq_app; [reflexivity | exact Hp].
Qed.

Lemma next_target_sound (outs : list jsstring) (p : Pool) (w : nat) (lang : jsstring)
    (c : Call) (res : list Translation) :
  workers p !! w = Some (Busy lang c) ->
  map fst res ++ omap busy_lang (<[w := Exited]> (workers p)) ++ queue p ⊆+ outs ->
  Forall (fun x : Translation => snd x <> []) res ->
  pool_sound outs (next_target p w res).
Proof.
  intros Hw H F. unfold next_target.
  pose proof (pull_sound (queue p)) as Hp.
  destruct (pull (queue p)) as [wk q].
  destruct (omap_busy_insert (workers p) w lang c wk Hw) as [_ P2].
  split; simpl; [|exact F].
  etransitivity; [|exact H].
  apply submseteq_app; [reflexivity|].
  rewrite P2.
  rewrite (Permutation_app_comm (omap busy_lang [wk])), <- app_assoc.
  apply submseteq_app; [reflexivity | exact Hp].
Qed.

Lemma truthy_nonempty (s : jsstring) : truthy s = true -> s <> [].
Proof. destruct s; [discriminate | discriminate]. Qed.

Lemma settle_worker_sound (outs : list jsstring) (ab : bool) answers (p : Pool) (w : nat) :
  pool_sound outs p -> pool_sound outs (settle_worker ab answers p w).
Proof.
  intros [H F]. unfold settle_worker.
  destruct (workers p !! w) as [[lang c|]|] eqn:Hw; try (now split).
  destruct (omap_busy_insert (workers p) w lang c Exited Hw) as [P1 _].
  rewrite P1 in H.
  destruct (call_step 2 ab (answers (Translate lang)) c) as [c'|text|e].
  - destruct (omap_busy_insert (workers p) w lang c (Busy lang c') Hw) as [_ P2].
    split; simpl; [|exact F]. now rewrite P2.
  - apply (next_target_sound outs p w lang c _ Hw).
    + destruct (truthy (trimmed_text text)).
      * rewrite map_app, <- app_assoc. exact H.
      * etransitivity; [|exact H].
        apply submseteq_app; [reflexivity|]. simpl. now apply submseteq_cons.
    + destruct (truthy (trimmed_text text)) eqn:E; [|exact F].
      apply Forall_app. split; [exact F|].
      repeat constructor. simpl. now apply truthy_nonempty.
  - apply (next_target_sound outs p w lang c _ Hw); [|exact F].
    etransitivity; [|exact H].
    apply submseteq_app; [reflexivity|]. simpl. now apply submseteq_cons.
Qed.

Lemma deliver_sound (o : Opts) (t : Task) (tr : jsstring) (p : Pool) :
  tr <> [] ->
  pool_sound (outputs o) p ->
  task_sound o (with_phase t (fst (deliver o tr p)))
  /\ Forall (result_sound o) (snd (deliver o tr p)).
Proof.
  intros Htr [H F]. unfold deliver.
  destruct (forallb is_exited (workers p)); simpl.
  - split; [exact I|]. repeat constructor; [exact Htr| |].
    + pose proof (js_sort_perm (fun a : Translation => indexOf (outputs o) (fst a))
                    (results p)) as Hs.
      change (cmp_by _) with (by_target (outputs o)) in Hs.
      rewrite Hs. etransitivity; [|exact H].
      now apply submseteq_inserts_r.
    + pose proof (js_sort_perm (fun a : Translation => indexOf (outputs o) (fst a))
                    (results p)) as Hs.
      change (cmp_by _) with (by_target (outputs o)) in Hs.
      now rewrite Hs.
  - split; [|constructor]. unfold task_sound. simpl. split; [exact Htr|]. now split.
Qed.

Lemma settle_task_sound (o : Opts) answers (t : Task) (w : nat) :
  task_sound o t ->
  task_sound o (fst (settle_task o answers t w))
  /\ Forall (result_sound o) (snd (settle_task o answers t w)).
Proof.
  unfold settle_task. intros H.
  destruct (phase t) as [c|tr p|] eqn:Ph.
  - destruct (call_step 2 (aborted t) (answers Transcribe) c) as [c'|text|e]; simpl.
    + split; [exact I | constructor].
    + destruct (truthy (trimmed_text text)) eqn:E; simpl;
        [|split; [exact I | constructor]].
      pose proof (deliver_sound o t (trimmed_text text) (start_pool o)
                    (truthy_nonempty _ E)) as D.
      destruct (deliver o (trimmed_text text) (start_pool o)) as [ph cbs].
      apply D. unfold start_pool. apply spawn_sound.
      split; simpl; [reflexivity | constructor].
    + split; [exact I|]. destruct e; simpl; repeat constructor.
  - unfold task_sound in H. rewrite Ph in H. destruct H as [Htr Hp].
    pose proof (deliver_sound o t tr (settle_worker (aborted t) answers p w) Htr
                  (settle_worker_sound _ _ _ _ _ Hp)) as D.
    now destruct (deliver o tr (settle_worker (aborted t) answers p w)) as [ph cbs].
  - simpl. split; [exact H | constructor].
Qed.

Lemma reachable_task_sound (o : Opts) (net : Network) (es : list Event) :
  Forall (task_sound o) (tasks (sess (run o net initial es))).
Proof.
  apply reachable_tasks_invariant.
  - intros t H. exact H.
  - intros t w k H. now apply settle_task_sound.
  - intros. exact I.
Qed.

(** What [onResult] receives is sound, whatever happens: signals aborted
    or not, targets repeated or empty, requests failing or not.  The
    transcript is not empty; the languages of the translations are among
    the targets, none more often than it is a target; and no translation
    has an empty text. *)
Theorem delivered_results_are_sound (o : Opts) (net : Network) (es : list Event) :
  Forall (result_sound o) (map snd (log (sess (run o net initial es)))).
Proof.
  induction es as [|e es IH] using rev_ind; [constructor|].
  rewrite run_snoc.
  pose proof (reachable_task_sound o net es) as Ts.
  set (sys := run o net initial es) in *.
  destruct e as [f|k w|]; simpl.
  - destruct (vad_step o (seg sys) f) as [st [snap|]]; simpl; [|exact IH].
    now rewrite finalizeSegment_log.
  - unfold settle. destruct (tasks (sess sys) !! k) as [t|] eqn:Ht; [|exact IH].
    destruct (settle_task_sound o (net k) t w) as [_ Hs].
    { eapply Forall_lookup_1; eauto. }
    destruct (settle_task o (net k) t w) as [t' cbs]. simpl in *.
    rewrite map_app. apply Forall_app. split; [exact IH|].
    rewrite map_map. simpl. now rewrite map_id.
  - exact IH.
Qed.

(* ===================================================================== *)
(** ** The further theorems at concrete inputs *)
(* ===================================================================== *)

(** Three samples at 16 kHz. *)
Lemma wav_sizes_witness :
  let wav := encodeWav [1; -2; 3] 16000 in
  Forall is_byte wav
  /\ getUint32 wav 4 = Z.of_nat (length wav) - 8
  /\ getUint32 wav 40 = Z.of_nat (length wav) - 44
  /\ getUint32 wav 24 = 16000
  /\ getUint32 wav 28 = getUint32 wav 24 * getUint16 wav 32.
Proof.
  apply (wav_sizes_consistent [1; -2; 3] 16000); simpl; lia.
Defined.

(** A gain of 1.02, a number: half scale is scaled and stored as a single,
    full scale is clipped. *)
Lemma preGain_witness :
  applyGain (fl64 (102 # 100)) [1 # 2; 1; -1]%Q !! 0%nat = Some (2139095 # 4194304)%Q
  /\ Forall (fun y => (-1 <= y)%Q /\ (y <= 1)%Q)
            (applyGain (fl64 (102 # 100)) [1 # 2; 1; -1]%Q).
Proof.
  destruct (preGain_clips (fl64 (102 # 100)) [1 # 2; 1; -1]%Q) as (_ & _ & H).
  destruct H as [F E]; [vm_compute; discriminate|].
  split; [|exact F].
  transitivity (Some (fl32 (fl64 ((1 # 2) * fl64 (102 # 100))))).
  - apply (E 0%nat (1 # 2)%Q); [reflexivity | vm_compute; discriminate
                                            | vm_compute; discriminate].
  - vm_compute. reflexivity.
Defined.

(** Seven voiced frames, then a silent one: the segment is handed over. *)
Lemma handed_over_segment_witness :
  let snap := snapshot (silent_over
                          (speaking_over resetSegmentState (replicate 7 (steady (1 # 20))))
                          [steady 0]) in
  resetSegmentState = resetSegmentState
  /\ snap_frames snap <> []
  /\ snap_durMs snap = frames_ms (snap_frames snap)
  /\ (0 <= snap_voicedMs snap)%Q
  /\ (snap_voicedMs snap <= snap_durMs snap)%Q
  /\ ((maxSegmentMs (default_opts []) <= snap_durMs snap)%Q
      \/ (silent (default_opts []) (steady 0)
          /\ (padMs (default_opts [])
              <= add_ms (silenceMs (seg (run (default_opts [])
                                           (always_ok text_hello (fun lang => lang))
                                           initial
                                           (map EvAudio (replicate 7 (steady (1 # 20)))))))
                        (steady 0))%Q
          /\ (padMs (default_opts []) <= snap_durMs snap)%Q)).
Proof.
  apply (handed_over_segment_is_sound (default_opts [])
           (always_ok text_hello (fun lang => lang))
           (map EvAudio (replicate 7 (steady (1 # 20)))) (steady 0)).
  vm_compute. reflexivity.
Defined.

(** With a pad of 300 ms: three voiced frames, two silent ones (256 ms),
    and a third (384 ms) that ends the segment. *)
Lemma long_pause_witness :
  vad_run patient_opts resetSegmentState
    (steady (1 # 20) :: replicate 2 (steady (1 # 20)) ++ replicate 2 (steady 0)
       ++ [steady 0])
  = (resetSegmentState,
     [{| snap_frames := map down (steady (1 # 20) :: replicate 2 (steady (1 # 20))
                                    ++ replicate 2 (steady 0) ++ [steady 0]);
         snap_durMs := total_ms (steady (1 # 20) :: replicate 2 (steady (1 # 20))
                                   ++ replicate 2 (steady 0) ++ [steady 0]);
         snap_voicedMs := total_ms (steady (1 # 20) :: replicate 2 (steady (1 # 20))) |}]).
Proof.
  destruct (pause_ends_the_segment patient_opts (steady (1 # 20))
              (replicate 2 (steady (1 # 20))) (replicate 2 (steady 0)) (steady 0))
    as [_ H].
  - vm_compute. discriminate.
  - apply Forall_replicate. vm_compute. discriminate.
  - apply Forall_app. split; [apply Forall_replicate | repeat constructor];
      vm_compute; reflexivity.
  - right. vm_compute. reflexivity.
  - right. vm_compute. reflexivity.
  - vm_compute. discriminate.
  - exact H.
Defined.

(** With a pad of 300 ms: two voiced frames, two silent ones, and a voiced
    one that continues the segment. *)
Lemma short_pause_witness :
  vad_run patient_opts resetSegmentState
    (steady (1 # 20) :: [steady (1 # 20)] ++ replicate 2 (steady 0) ++ [steady (1 # 20)])
  = ({| segFrames := map down (steady (1 # 20) :: [steady (1 # 20)]
                                 ++ replicate 2 (steady 0) ++ [steady (1 # 20)]);
        segDurMs := total_ms (steady (1 # 20) :: [steady (1 # 20)]
                                ++ replicate 2 (steady 0) ++ [steady (1 # 20)]);
        silenceMs := 0;
        speaking := true;
        voicedMs := add_ms (total_ms (steady (1 # 20) :: [steady (1 # 20)]))
                           (steady (1 # 20)) |}, []).
Proof.
  apply (short_pause_is_bridged patient_opts (steady (1 # 20)) [steady (1 # 20)]
           (replicate 2 (steady 0)) (steady (1 # 20))).
  - vm_compute. discriminate.
  - repeat constructor; vm_compute; discriminate.
  - apply Forall_replicate. vm_compute. reflexivity.
  - vm_compute. reflexivity.
  - vm_compute. reflexivity.
Defined.

(** The first attempt fails, the second one answers. *)
Lemma fetchWithRetry_witness :
  fetchWithRetry (flaky 1 text_hello) 2 = inr (Json (Some text_hello)).
Proof.
  apply (fetchWithRetry_outcome (flaky 1 text_hello) 2); [lia|].
  exists 1%nat. split; [lia|]. split; [|split].
  - intros j Hj. assert (j = 0%nat) as -> by lia.
    exists (Failure text_ok). reflexivity.
  - reflexivity.
  - left. eexists. reflexivity.
Defined.

Lemma request_settles_witness :
  call_run 4 2 false (flaky 1 text_hello) (AwaitFetch 0) = Returned (Some text_hello).
Proof.
  exact (eq_trans
           (request_settles_as_straight_line (flaky 1 text_hello) 2 4
              ltac:(lia) ltac:(lia))
           eq_refl).
Defined.

(** Aborted at its first fetch, a request with two tries is still pending
    after two of its promises have settled, and throws after the third. *)
Lemma aborted_request_witness :
  call_run 3 2 true (flaky 0 text_hello) (AwaitFetch 0) = Threw AbortError
  /\ exists c', call_run 2 2 true (flaky 0 text_hello) (AwaitFetch 0) = Pending c'.
Proof.
  split.
  - apply (aborted_request_waits_out_retries (flaky 0 text_hello) 2 3 (AwaitFetch 0)).
    simpl. lia.
  - apply (aborted_request_waits_out_retries (flaky 0 text_hello) 2 2 (AwaitFetch 0)).
    simpl. lia.
Defined.

(** Six samples within [-1, 1] at 48 kHz, gain 1.02. *)
Lemma downsample_range_witness :
  prepare (fl64 (102 # 100)) [1; -1; 1 # 2; 0; 1; 1]%Q 48000
  = Some [11408507 # 67108864; 11408507 # 16777216]%Q
  /\ Forall (within (-1) 1) [11408507 # 67108864; 11408507 # 16777216]%Q.
Proof.
  split; [vm_compute; reflexivity|].
  apply (proj2 (downsample_keeps_range (-1) 1 [1; -1; 1 # 2; 0; 1; 1]%Q 48000
                  (fl64 (102 # 100))
                  ltac:(vm_compute; discriminate) ltac:(vm_compute; discriminate)
                  ltac:(repeat constructor;
                        [apply (is_f32_Z 1) | apply (is_f32_Z (-1))
                         | exists 1, (-1); vm_compute; repeat split; discriminate
                         | apply (is_f32_Z 0) | apply (is_f32_Z 1) | apply (is_f32_Z 1)];
                        reflexivity)
                  ltac:(vm_compute; discriminate)
                  ltac:(repeat (constructor; [split; vm_compute; discriminate|]);
                        constructor))).
  - vm_compute. discriminate.
  - vm_compute. discriminate.
  - vm_compute. reflexivity.
Defined.

(** Three targets and at most two runners: after the transcript, two
    translations are in flight and one target is queued. *)
Lemma pool_runners_witness :
  let p := {| queue := [lang_ko]; results := [];
              workers := [Busy lang_en (AwaitFetch 0); Busy lang_ja (AwaitFetch 0)] |} in
  length (workers p) = maxWorkers two_runner_opts
  /\ (length (omap busy_lang (workers p)) <= maxWorkers two_runner_opts)%nat.
Proof.
  destruct (pool_has_maxWorkers_runners two_runner_opts
              (always_ok text_hello (fun lang => lang))
              (utterance ++ [EvSettle 0 0; EvSettle 0 0]) 0%nat text_hello
              {| queue := [lang_ko]; results := [];
                 workers := [Busy lang_en (AwaitFetch 0); Busy lang_ja (AwaitFetch 0)] |}
              eq_refl)
    as (H1 & H2 & _).
  split; [exact H1 | exact H2].
Defined.


(** Two utterances: the second request is the live one. *)
Lemma newest_request_witness :
  reqCtrl (sess (run (default_opts [lang_en]) (always_ok text_hello (fun lang => lang))
                   initial (utterance ++ utterance))) = Some 1%nat
  /\ 2%nat = length (tasks (sess (run (default_opts [lang_en])
                                    (always_ok text_hello (fun lang => lang))
                                    initial (utterance ++ utterance)))).
Proof.
  apply (only_newest_request_is_live (default_opts [lang_en])
           (always_ok text_hello (fun lang => lang)) (utterance ++ utterance) 1%nat).
  reflexivity.
Defined.

(** Both attempts of the transcription fail: one [onError]. *)
Lemma transcription_failure_witness :
  run_task (default_opts [lang_en]) (fun _ => flaky 2 text_hello)
           (new_task [] {| st_durMs := 1024; st_voicedMs := 896;
                           st_voicedFraction := 896 / 1024; st_peak := 1 # 20 |})
           [0; 0; 0; 0]%nat
  = (with_phase (new_task [] {| st_durMs := 1024; st_voicedMs := 896;
                                st_voicedFraction := 896 / 1024; st_peak := 1 # 20 |})
                Finished,
     [OnError (Failure text_ok)]).
Proof.
  apply (proj1 (proj2 (transcription_outcome (default_opts [lang_en])
                         (fun _ => flaky 2 text_hello)
                         (new_task [] {| st_durMs := 1024; st_voicedMs := 896;
                                         st_voicedFraction := 896 / 1024;
                                         st_peak := 1 # 20 |})
                         [0; 0; 0; 0]%nat eq_refl ltac:(simpl; lia)))).
  - reflexivity.
  - reflexivity.
Defined.

(** A refused permission, then a successful [refresh]: the hook is ready
    and still reports the error. *)
Lemma audio_devices_witness :
  is_Some (error (devices_run (devices_step devices_initial (Refused text_ok))
                    [Enumerated [a_microphone; a_loudspeaker]]))
  /\ ready (devices_run (devices_step devices_initial (Refused text_ok))
              [Enumerated [a_microphone; a_loudspeaker]]) = true.
Proof.
  split; [|reflexivity].
  apply (audio_devices_never_go_back (devices_step devices_initial (Refused text_ok))
           [Enumerated [a_microphone; a_loudspeaker]]).
  eexists. reflexivity.
Defined.
